(** * youtube_face_search: face matching over thumbnails, avatars and sampled frames

    A shallow embedding of [youtube_face_search.py].  External capabilities
    (HTTP, the YouTube API, yt-dlp, OpenCV, face_recognition) are oracles
    collected in a record [Env]; each is a function of its arguments -- and
    of the attempt number where the program retries -- that returns a value
    or raises.  Python floats are idealised as rationals (no NaN, no
    infinity, no rounding), with one exception: where the program truncates
    a product to an integer, the product is first rounded to the nearest
    double, as the machine does, since that rounding can carry it across an
    integer.  Effects are threaded through a small monad: the files on
    disk are state, the external calls are written to a trace, a computation
    returns or raises, and [None] stands for a loop that has not finished
    within the fuel it was given.  Only exceptions derived from [Exception]
    are modelled; log lines are left out, except the two that the
    properties observe. *)

From Stdlib Require Import QArith Qround Ascii String.
From stdpp Require Import gmap strings list.

Local Open Scope string_scope.
Local Open Scope list_scope.
Local Open Scope Z_scope.

(** ** Python exceptions and results *)

Inductive exn :=
| HttpError            (* googleapiclient.errors.HttpError *)
| KeyError (k : string)
| IndexError
| ZeroDivisionError
| OSError
| LibraryError.        (* any other Exception raised inside a library call *)

Inductive result (A : Type) :=
| Ok (a : A)
| Raise (e : exn).
Arguments Ok {A} a.
Arguments Raise {A} e.

Definition is_HttpError (e : exn) : bool :=
  match e with HttpError => true | _ => false end.

(** ** Floats as rationals *)

(** [int(x)] on a float: truncation toward zero. *)
Definition py_int (x : Q) : Z := Z.quot (Qnum x) (Z.pos (Qden x)).

Definition Qlt_bool (x y : Q) : bool := negb (Qle_bool y x).

(** The integer nearest to [num / den] for a positive [den], a tie going to
    the even one. *)
Definition round_half_even (num den : Z) : Z :=
  let q := num / den in
  match 2 * (num mod den) ?= den with
  | Lt => q
  | Gt => q + 1
  | Eq => if Z.even q then q else q + 1
  end.

(** The double nearest to the positive rational [num / den]: a significand
    of 53 bits (fewer below the normal range), a tie going to the even
    significand. *)
Definition round_double_pos (num den : Z) : Q :=
  let k := Z.log2 num - Z.log2 den in
  let k := if num * 2 ^ Z.max 0 (- k) <? den * 2 ^ Z.max 0 k then k - 1 else k in
  let e := Z.max (k - 52) (-1074) in
  let m := round_half_even (num * 2 ^ Z.max 0 (- e)) (den * 2 ^ Z.max 0 e) in
  if 0 <=? e then inject_Z (m * 2 ^ e) else m # Z.to_pos (2 ^ (- e)).

(** The rounding of binary64 arithmetic (to nearest, ties to even): the
    double that a floating-point operation returns for the exact result
    [x]. *)
Definition round_double (x : Q) : Q :=
  match Qnum x with
  | 0 => 0
  | Z.pos n => round_double_pos (Z.pos n) (Z.pos (Qden x))
  | Z.neg n => - round_double_pos (Z.pos n) (Z.pos (Qden x))
  end.

(** [int(x * y)] on two floats *)
Definition py_int_mul (x y : Q) : Z := py_int (round_double (x * y)).

(** [x / y] raises [ZeroDivisionError] when [y] is zero. *)
Definition py_truediv (x y : Q) : result Q :=
  if Qeq_bool y 0 then Raise ZeroDivisionError else Ok (x / y)%Q.

(** [range(a, b)] *)
Definition py_range (a b : Z) : list Z :=
  map (λ i, a + Z.of_nat i) (seq 0 (Z.to_nat (b - a))).

(** ** Byte strings: the file-name tests of the gallery loader *)

Definition ascii_lower (c : ascii) : ascii :=
  let n := nat_of_ascii c in
  if (Nat.leb 65 n && Nat.leb n 90)%bool then ascii_of_nat (n + 32) else c.

Fixpoint str_lower (s : string) : string :=
  match s with
  | EmptyString => EmptyString
  | String c s' => String (ascii_lower c) (str_lower s')
  end.

Definition str_endswith (s suffix : string) : bool :=
  let n := String.length s in
  let m := String.length suffix in
  (Nat.leb m n && String.eqb (substring (n - m) m s) suffix)%bool.

(** [filename.lower().endswith(('.jpg', '.jpeg', '.png'))] *)
Definition has_image_ext (filename : string) : bool :=
  let f := str_lower filename in
  (str_endswith f ".jpg" || str_endswith f ".jpeg" || str_endswith f ".png")%bool.

(** Position of the last dot of [s] that has a non-dot character before it. *)
Fixpoint ext_dot (s : string) (i : nat) (seen_name : bool) (found : option nat)
  : option nat :=
  match s with
  | EmptyString => found
  | String c s' =>
      if Ascii.eqb c "."%char
      then ext_dot s' (S i) seen_name (if seen_name then Some i else found)
      else ext_dot s' (S i) true found
  end.

(** [os.path.splitext(filename)[0]] for a name without directory part. *)
Definition splitext_root (filename : string) : string :=
  match ext_dot filename 0 false None with
  | Some i => substring 0 i filename
  | None => filename
  end.

(** [os.path.join(a, b)] for a relative [b]. *)
Definition path_join (a b : string) : string := a +:+ "/" +:+ b.

(** ** Data *)

(** A face box as face_recognition reports it: (top, right, bottom, left). *)
Definition Box : Type := Z * Z * Z * Z.

Record MatchResult := {
  video_id : string;
  has_known_face_in_thumbnail : bool;
  has_known_face_in_avatar : bool;
  has_known_face_in_video : bool
}.

(** The [items[i].snippet.thumbnails] dictionary of an API response:
    size name ↦ (field ↦ value). *)
Definition Thumbnails : Type := gmap string (gmap string string).

#[global] Instance MatchResult_eq_dec : EqDecision MatchResult.
Proof. solve_decision. Defined.

(** External calls and log lines that the properties below observe. *)
Inductive Event :=
| EvLoadImageFile (path : string)
| EvNoKnownFaces       (* the error line of [main] for an empty gallery *)
| EvVideosList (vid : string) (attempt : nat)
| EvChannelsList (cid : string) (attempt : nat)
| EvSleep
| EvRequestsGet (url : string)
| EvFaceLocations
| EvFaceEncodings (box : Box)
| EvMatch (name : string)
| EvYdlDownload (vid : string) (attempt : nat)
| EvCapRead (path : string) (pos : Z)
| EvRemove (path : string)
| EvJsonLoad (path : string)
| EvDump (results : list MatchResult)
| EvRmtree (dir : string).

#[global] Instance Event_eq_dec : EqDecision Event.
Proof. solve_decision. Defined.

(** ** The monad: files on disk, a trace of events, exceptions, fuel

    A computation reads and updates the set of files that exist, appends to
    the trace of external calls, and returns a value or raises; [None] is a
    loop that did not finish within its fuel. *)

Definition Files : Type := gset string.

Definition M (A : Type) : Type :=
  Files → option (result A * Files * list Event).

#[global] Instance M_ret : MRet M := λ A a fs, Some (Ok a, fs, []).

#[global] Instance M_bind : MBind M := λ A B f m fs,
  match m fs with
  | Some (Ok a, fs1, t1) =>
      match f a fs1 with
      | Some (r, fs2, t2) => Some (r, fs2, t1 ++ t2)
      | None => None
      end
  | Some (Raise e, fs1, t1) => Some (Raise e, fs1, t1)
  | None => None
  end.

Definition raise {A} (e : exn) : M A := λ fs, Some (Raise e, fs, []).

Definition lift {A} (r : result A) : M A := λ fs, Some (r, fs, []).

Definition emit (ev : Event) : M unit := λ fs, Some (Ok (), fs, [ev]).

(** An external call: it is recorded, then returns or raises. *)
Definition call {A} (ev : Event) (r : result A) : M A := λ fs, Some (r, fs, [ev]).

Definition out_of_fuel {A} : M A := λ _, None.

(** [try: body  except Exception as e: handler e] *)
Definition try_except {A} (body : M A) (handler : exn → M A) : M A := λ fs,
  match body fs with
  | Some (Ok a, fs1, t1) => Some (Ok a, fs1, t1)
  | Some (Raise e, fs1, t1) =>
      match handler e fs1 with
      | Some (r, fs2, t2) => Some (r, fs2, t1 ++ t2)
      | None => None
      end
  | None => None
  end.

(** [d[k]] on a dictionary *)
Definition py_getitem (d : gmap string string) (k : string) : M string :=
  match d !! k with
  | Some v => mret v
  | None => raise (KeyError k)
  end.

(** [l[i]] on a list *)
Definition py_index {A} (l : list A) (i : nat) : M A :=
  match l !! i with
  | Some v => mret v
  | None => raise IndexError
  end.

(** [matches.index(True)], defined when [True in matches] *)
Fixpoint index_true (matches : list bool) : option nat :=
  match matches with
  | [] => None
  | true :: _ => Some 0%nat
  | false :: rest => S <$> index_true rest
  end.

(** Python truthiness of a string *)
Definition nonempty (s : string) : bool := negb (String.eqb s "").

Section Pipeline.

(** [Pil]: a decoded PIL image; [Img]: a pixel array (numpy); [Enc]: a face
    embedding. *)
Context {Pil Img Enc : Type}.

(** The external capabilities the program calls. *)
Record Env := {
  (* os.path.exists, then os.listdir, on the gallery directory: [None] when
     the path does not exist; the listing can raise (a path that is not a
     directory, or that may not be read) *)
  listdir : string → option (result (list string));
  (* face_recognition.load_image_file *)
  load_image_file : string → result Img;
  (* face_recognition.face_encodings(image) *)
  face_encodings_all : Img → result (list Enc);
  (* requests.get followed by Image.open *)
  requests_get : string → result Pil;
  (* np.array(image) *)
  np_array : Pil → result Img;
  (* cv2.cvtColor(_, COLOR_BGR2RGB) *)
  cvt_rgb : Img → result Img;
  (* face_recognition.face_locations *)
  face_locations : Img → result (list Box);
  (* face_recognition.face_encodings(image, [box]) *)
  face_encodings : Img → Box → result (list Enc);
  (* face_recognition.face_distance on one pair *)
  face_distance : Enc → Enc → Q;
  (* variance of the Laplacian of the grey image *)
  laplacian_var : Img → result Q;
  (* standard deviation of the grey image *)
  gray_std : Img → result Q;
  (* youtube.videos().list(...).execute(): the 'items' of the n-th attempt *)
  videos_list : string → nat → result (list Thumbnails);
  (* youtube.channels().list(...).execute() *)
  channels_list : string → nat → result (list Thumbnails);
  (* ydl.download at the n-th attempt: it returns or raises, and leaves files
     whose names are the output path followed by these suffixes: the output
     file itself (the empty suffix), a partial download ('.part'), ... *)
  ydl_download : string → nat → result unit * list string;
  (* cv2.VideoCapture(path): frame rate, frame count, frame at a position *)
  cap_fps : string → Q;
  cap_frame_count : string → Q;
  cap_read : string → Z → result (option Img);
  (* the paths the operating system refuses to unlink *)
  undeletable : string → bool;
  (* json.load of the input file *)
  json_load : string → result (list (gmap string string));
  (* tempfile.mkdtemp() *)
  mkdtemp : string
}.

Variable E : Env.

(** *** download_image *)
Definition download_image (url : string) : M (option Pil) :=
  try_except
    (image ← call (EvRequestsGet url) (requests_get E url);
     mret (Some image))
    (λ _, mret None).

(** *** load_known_faces *)
Fixpoint load_known_faces_loop (known_faces_dir : string) (filenames : list string)
    (known_face_encodings : list Enc) (known_face_names : list string)
  : M (list Enc * list string) :=
  match filenames with
  | [] => mret (known_face_encodings, known_face_names)
  | filename :: rest =>
      if has_image_ext filename then
        let image_path := path_join known_faces_dir filename in
        image ← call (EvLoadImageFile image_path) (load_image_file E image_path);
        encodings ← lift (face_encodings_all E image);
        match encodings with
        | e :: _ =>
            load_known_faces_loop known_faces_dir rest
              (known_face_encodings ++ [e])
              (known_face_names ++ [splitext_root filename])
        | [] =>
            load_known_faces_loop known_faces_dir rest
              known_face_encodings known_face_names
        end
      else
        load_known_faces_loop known_faces_dir rest
          known_face_encodings known_face_names
  end.

Definition load_known_faces (known_faces_dir : string) : M (list Enc * list string) :=
  match listdir E known_faces_dir with
  | None => mret ([], [])
  | Some listing =>
      filenames ← lift listing;
      load_known_faces_loop known_faces_dir filenames [] []
  end.

(** *** is_frame_blurry, has_low_contrast *)
Definition is_frame_blurry (frame : Img) (threshold : Q) : result bool :=
  match laplacian_var E frame with
  | Ok v => Ok (Qlt_bool v threshold)
  | Raise e => Raise e
  end.

Definition has_low_contrast (frame : Img) (threshold : Q) : result bool :=
  match gray_std E frame with
  | Ok c => Ok (Qlt_bool c threshold)
  | Raise e => Raise e
  end.

(** *** The face comparison shared by images and frames *)

Definition tolerance : Q := 45 # 100.

(** [face_recognition.compare_faces(known, candidate, tolerance)] *)
Definition compare_faces (known_face_encodings : list Enc) (face_encoding : Enc)
    (tol : Q) : list bool :=
  map (λ k, Qle_bool (face_distance E k face_encoding) tol) known_face_encodings.

(** [for face_encoding in face_encodings: ...]; [true] is the [return True]. *)
Fixpoint match_encodings (face_encodings : list Enc)
    (known_face_encodings : list Enc) (known_face_names : list string) : M bool :=
  match face_encodings with
  | [] => mret false
  | face_encoding :: rest =>
      let matches := compare_faces known_face_encodings face_encoding tolerance in
      match index_true matches with
      | Some match_index =>
          name ← py_index known_face_names match_index;
          emit (EvMatch name);;
          mret true
      | None => match_encodings rest known_face_encodings known_face_names
      end
  end.

Definition too_small (box : Box) : bool :=
  let '(top_, right_, bottom_, left_) := box in
  ((right_ - left_ <? 40)%Z || (bottom_ - top_ <? 40)%Z)%bool.

(** [for (top, right, bottom, left) in face_locations: ...] *)
Fixpoint match_locations (rgb_image : Img) (locations : list Box)
    (known_face_encodings : list Enc) (known_face_names : list string) : M bool :=
  match locations with
  | [] => mret false
  | box :: rest =>
      if too_small box then
        match_locations rgb_image rest known_face_encodings known_face_names
      else
        face_encodings ← call (EvFaceEncodings box) (face_encodings E rgb_image box);
        found ← match_encodings face_encodings known_face_encodings known_face_names;
        if found : bool then mret true
        else match_locations rgb_image rest known_face_encodings known_face_names
  end.

(** *** detect_known_faces_in_image *)
Definition detect_known_faces_in_image (image : option Pil)
    (known_face_encodings : list Enc) (known_face_names : list string) : M bool :=
  match image with
  | None => mret false
  | Some image =>
      try_except
        (image_np ← lift (np_array E image);
         rgb_image ← lift (cvt_rgb E image_np);
         face_locations ← call EvFaceLocations (face_locations E rgb_image);
         match face_locations with
         | [] => mret false
         | _ => match_locations rgb_image face_locations
                  known_face_encodings known_face_names
         end)
        (λ _, mret false)
  end.

(** *** extract_frames *)

Definition frame_interval (fps interval : Q) : Z := py_int_mul fps interval.
Definition look_around_frames (fps look_around : Q) : Z :=
  py_int_mul fps look_around.

(** [for pos in range(start_pos, end_pos): ...]: the sharpest readable frame
    of the window, with its score and position. *)
Fixpoint window_scan (video_path : string) (positions : list Z)
    (best_frame : option Img) (best_laplacian : Q) (best_frame_pos : Z)
  : M (option Img * Q * Z) :=
  match positions with
  | [] => mret (best_frame, best_laplacian, best_frame_pos)
  | pos :: rest =>
      r ← call (EvCapRead video_path pos) (cap_read E video_path pos);
      match r with
      | None => window_scan video_path rest best_frame best_laplacian best_frame_pos
      | Some frame =>
          v ← lift (laplacian_var E frame);
          if Qlt_bool best_laplacian v
          then window_scan video_path rest (Some frame) v pos
          else window_scan video_path rest best_frame best_laplacian best_frame_pos
      end
  end.

(** The quality gate on the window's best frame.  The log lines format
    [target_frame / fps] and [best_frame_pos / fps], which divide by [fps]. *)
Definition gate_best_frame (fps : Q) (target_frame : Z) (best_frame : option Img)
    (best_frame_pos : Z) (frames : list Img) (timestamps : list Q)
  : M (list Img * list Q) :=
  match best_frame with
  | None => mret (frames, timestamps)
  | Some best =>
      blurry ← lift (is_frame_blurry best 150);
      if blurry : bool then
        lift (py_truediv (inject_Z target_frame) fps);;
        mret (frames, timestamps)
      else
        low ← lift (has_low_contrast best 30);
        if low : bool then
          lift (py_truediv (inject_Z target_frame) fps);;
          mret (frames, timestamps)
        else
          t ← lift (py_truediv (inject_Z best_frame_pos) fps);
          mret (frames ++ [best], timestamps ++ [t])
  end.

(** The window examined around [target_frame]. *)
Definition window_positions (look_around_frames total_frames target_frame : Z)
  : list Z :=
  let start_pos := Z.max 0 (target_frame - look_around_frames) in
  let end_pos := Z.min total_frames (target_frame + look_around_frames + 1) in
  py_range start_pos end_pos.

(** [while frame_count < total_frames: ...] *)
Fixpoint frames_loop (fuel : nat) (video_path : string) (fps : Q)
    (frame_interval look_around_frames total_frames : Z)
    (frame_count : Z) (frames : list Img) (timestamps : list Q)
  : M (list Img * list Q) :=
  if (frame_count <? total_frames)%Z then
    match fuel with
    | O => out_of_fuel
    | S fuel' =>
        let target_frame := frame_count in
        target ← call (EvCapRead video_path target_frame)
                      (cap_read E video_path target_frame);
        match target with
        | None => mret (frames, timestamps)
        | Some _ =>
            '(best_frame, best_laplacian, best_frame_pos) ←
              window_scan video_path
                (window_positions look_around_frames total_frames target_frame)
                None (-1)%Q target_frame;
            '(frames', timestamps') ←
              gate_best_frame fps target_frame best_frame best_frame_pos
                frames timestamps;
            frames_loop fuel' video_path fps frame_interval look_around_frames
              total_frames (frame_count + frame_interval) frames' timestamps'
        end
    end
  else mret (frames, timestamps).

Definition extract_frames (fuel : nat) (video_path : string)
    (interval look_around : Q) : M (list Img * list Q) :=
  try_except
    (let fps := cap_fps E video_path in
     let frame_interval := frame_interval fps interval in
     let look_around_frames := look_around_frames fps look_around in
     let total_frames := py_int (cap_frame_count E video_path) in
     frames_loop fuel video_path fps frame_interval look_around_frames
       total_frames 0 [] [])
    (λ _, mret ([], [])).

(** *** detect_known_faces_in_frames *)
Fixpoint match_frames (samples : list (Img * Q))
    (known_face_encodings : list Enc) (known_face_names : list string) : M bool :=
  match samples with
  | [] => mret false
  | (frame, timestamp) :: rest =>
      blurry ← lift (is_frame_blurry frame 150);
      if blurry : bool then match_frames rest known_face_encodings known_face_names
      else
        low ← lift (has_low_contrast frame 30);
        if low : bool then match_frames rest known_face_encodings known_face_names
        else
          rgb_frame ← lift (cvt_rgb E frame);
          face_locations ← call EvFaceLocations (face_locations E rgb_frame);
          match face_locations with
          | [] => match_frames rest known_face_encodings known_face_names
          | _ =>
              found ← match_locations rgb_frame face_locations
                        known_face_encodings known_face_names;
              if found : bool then mret true
              else match_frames rest known_face_encodings known_face_names
          end
  end.

Definition detect_known_faces_in_frames (frames : list Img) (timestamps : list Q)
    (known_face_encodings : list Enc) (known_face_names : list string) : M bool :=
  try_except
    (match_frames (zip frames timestamps) known_face_encodings known_face_names)
    (λ _, mret false).

(** *** Files *)

Definition path_exists (path : string) : M bool :=
  λ fs, Some (Ok (bool_decide (path ∈ fs)), fs, []).

(** [os.remove(path)] *)
Definition os_remove (path : string) : M unit := λ fs,
  if (undeletable E path || negb (bool_decide (path ∈ fs)))%bool
  then Some (Raise OSError, fs, [EvRemove path])
  else Some (Ok (), fs ∖ {[path]}, [EvRemove path]).

(** The files that the [attempt]-th download leaves on disk. *)
Definition ydl_files (video_id : string) (attempt : nat) (output_path : string)
  : Files :=
  list_to_set ((λ suffix, output_path +:+ suffix)
                 <$> (ydl_download E video_id attempt).2).

(** [ydl.download([video_url])] with [outtmpl = output_path] *)
Definition run_ydl (video_id : string) (attempt : nat) (output_path : string)
  : M unit := λ fs,
  Some ((ydl_download E video_id attempt).1,
        ydl_files video_id attempt output_path ∪ fs,
        [EvYdlDownload video_id attempt]).

(** *** download_video *)
Fixpoint download_video_loop (attempts : list nat) (video_id temp_dir : string)
  : M (option string) :=
  match attempts with
  | [] => mret None
  | attempt :: rest =>
      r ← try_except
            (let output_path := path_join temp_dir (video_id +:+ ".mp4") in
             run_ydl video_id attempt output_path;;
             found ← path_exists output_path;
             if found : bool then mret (Some (Some output_path))
             else mret (Some None))
            (λ _, emit EvSleep;; mret None);
      match r with
      | Some returned => mret returned
      | None => download_video_loop rest video_id temp_dir
      end
  end.

Definition download_video (video_id temp_dir : string) (retries : nat)
  : M (option string) :=
  download_video_loop (seq 0 retries) video_id temp_dir.

(** *** get_video_and_channel_info *)

(** [try: body  except HttpError as e: handler] *)
Definition try_except_http {A} (body : M A) (handler : M A) : M A := λ fs,
  match body fs with
  | Some (Raise e, fs1, t1) =>
      if is_HttpError e then
        match handler fs1 with
        | Some (r, fs2, t2) => Some (r, fs2, t1 ++ t2)
        | None => None
        end
      else Some (Raise e, fs1, t1)
  | r => r
  end.

(** [thumbnails.get('high', {}).get('url', '')] *)
Definition high_url (thumbnails : Thumbnails) : string :=
  default "" (default ∅ (thumbnails !! "high") !! "url").

Fixpoint video_and_channel_info_loop (attempts : list nat)
    (video_id channel_id : string) : M (string * string) :=
  match attempts with
  | [] => mret ("", "")
  | attempt :: rest =>
      r ← try_except_http
            (video_items ← call (EvVideosList video_id attempt)
                                (videos_list E video_id attempt);
             video_item ← py_index video_items 0;
             let thumbnail_url := high_url video_item in
             channel_items ← call (EvChannelsList channel_id attempt)
                                  (channels_list E channel_id attempt);
             channel_item ← py_index channel_items 0;
             let avatar_url := high_url channel_item in
             mret (Some (thumbnail_url, avatar_url)))
            (emit EvSleep;; mret None);
      match r with
      | Some urls => mret urls
      | None => video_and_channel_info_loop rest video_id channel_id
      end
  end.

Definition get_video_and_channel_info (video_id channel_id : string)
    (retries : nat) : M (string * string) :=
  video_and_channel_info_loop (seq 0 retries) video_id channel_id.

(** *** process_video *)

Definition no_match (video_id : string) : MatchResult :=
  {| video_id := video_id;
     has_known_face_in_thumbnail := false;
     has_known_face_in_avatar := false;
     has_known_face_in_video := false |}.

(** The thumbnail and avatar steps: [if url: ... detect_known_faces_in_image]. *)
Definition check_image_url (url : string)
    (known_face_encodings : list Enc) (known_face_names : list string) : M bool :=
  if nonempty url then
    image ← download_image url;
    detect_known_faces_in_image image known_face_encodings known_face_names
  else mret false.

(** The video step: download, scan the frames, remove the file. *)
Definition check_video_frames (fuel : nat) (video_id temp_dir : string)
    (known_face_encodings : list Enc) (known_face_names : list string) : M bool :=
  video_path ← download_video video_id temp_dir 3;
  match video_path with
  | Some video_path =>
      if nonempty video_path then
        '(frames, timestamps) ← extract_frames fuel video_path (5 # 2) (1 # 4);
        found ← detect_known_faces_in_frames frames timestamps
                  known_face_encodings known_face_names;
        os_remove video_path;;
        mret found
      else mret false
  | None => mret false
  end.

(** The body of the [try] block. *)
Definition process_video_body (fuel : nat) (video_id channel_id temp_dir : string)
    (known_face_encodings : list Enc) (known_face_names : list string)
  : M MatchResult :=
  '(thumbnail_url, avatar_url) ← get_video_and_channel_info video_id channel_id 3;
  in_thumbnail ← check_image_url thumbnail_url known_face_encodings known_face_names;
  in_avatar ← check_image_url avatar_url known_face_encodings known_face_names;
  in_video ← check_video_frames fuel video_id temp_dir
               known_face_encodings known_face_names;
  mret {| video_id := video_id;
          has_known_face_in_thumbnail := in_thumbnail;
          has_known_face_in_avatar := in_avatar;
          has_known_face_in_video := in_video |}.

Definition process_video (fuel : nat) (video : gmap string string)
    (temp_dir : string)
    (known_face_encodings : list Enc) (known_face_names : list string)
  : M MatchResult :=
  video_id ← py_getitem video "video_id";
  channel_id ← py_getitem video "channel_id";
  try_except
    (process_video_body fuel video_id channel_id temp_dir
       known_face_encodings known_face_names)
    (λ _, mret (no_match video_id)).

(** *** main *)

(** [for video in videos: results.append(process_video(...))] *)
Fixpoint process_videos (fuel : nat) (videos : list (gmap string string))
    (temp_dir : string)
    (known_face_encodings : list Enc) (known_face_names : list string)
    (results : list MatchResult) : M (list MatchResult) :=
  match videos with
  | [] => mret results
  | video :: rest =>
      result ← process_video fuel video temp_dir
                 known_face_encodings known_face_names;
      process_videos fuel rest temp_dir known_face_encodings known_face_names
        (results ++ [result])
  end.

(** [shutil.rmtree(dir)]: unlink the files below [dir] one by one; the first
    one that cannot be unlinked raises. *)
Fixpoint rmtree_files (dir : string) (paths : list string) (fs : gset string)
  : result unit * gset string :=
  match paths with
  | [] => (Ok (), fs)
  | path :: rest =>
      if String.prefix (dir +:+ "/") path then
        if undeletable E path then (Raise OSError, fs)
        else rmtree_files dir rest (fs ∖ {[path]})
      else rmtree_files dir rest fs
  end.

Definition rmtree (dir : string) : M unit := λ fs,
  let '(r, fs') := rmtree_files dir (elements fs) fs in
  Some (r, fs', [EvRmtree dir]).

(** [try: body  finally: cleanup] *)
Definition try_finally {A} (body : M A) (cleanup : M unit) : M A := λ fs,
  match body fs with
  | Some (r, fs1, t1) =>
      match cleanup fs1 with
      | Some (Ok _, fs2, t2) => Some (r, fs2, t1 ++ t2)
      | Some (Raise e, fs2, t2) => Some (Raise e, fs2, t1 ++ t2)
      | None => None
      end
  | None => None
  end.

(** The part of [main] that runs once the gallery is known to be non-empty. *)
Definition run_videos (fuel : nat) (json_file : string)
    (known_face_encodings : list Enc) (known_face_names : list string) : M unit :=
  let temp_dir := mkdtemp E in
  try_finally
    (try_except
       (videos ← call (EvJsonLoad json_file) (json_load E json_file);
        results ← process_videos fuel videos temp_dir
                    known_face_encodings known_face_names [];
        emit (EvDump results))
       (λ _, mret ()))
    (rmtree temp_dir).

Definition main (fuel : nat) (json_file : string) : M unit :=
  '(known_face_encodings, known_face_names) ← load_known_faces "known_faces";
  match known_face_encodings with
  | [] => emit EvNoKnownFaces
  | _ => run_videos fuel json_file known_face_encodings known_face_names
  end.

End Pipeline.

Arguments Env : clear implicits.


(** * filter_videos: the step that prepares the input of the face search

    A shallow embedding of [filter_videos.py], which reads the collected
    videos, asks the YouTube API for the durations it has not cached, and
    writes the videos that are long enough and in the wanted language.  The
    API, langdetect, isodate and the two JSON files are oracles collected in
    a record [Services].  The cache is the dictionary that the script shares
    between [filter_videos] and [get_video_durations] and updates in place:
    it is threaded through the functions, together with the trace of the
    external calls.  JSON values are typed: a record and a cache entry map
    field names to strings. *)

Module Filter.

(** Exceptions: the two kinds of [HttpError] the script tells apart, and the
    others it can meet. *)
Inductive error :=
| QuotaExceeded        (* HttpError, status 403 with 'quotaExceeded' *)
| HttpFailure          (* any other HttpError *)
| MissingKey (key : string)   (* KeyError *)
| LangDetectException
| OtherError.          (* any other Exception *)

Inductive res (A : Type) :=
| Done (a : A)
| Fail (e : error).
Arguments Done {A} a.
Arguments Fail {A} e.

Definition is_HttpError (e : error) : bool :=
  match e with QuotaExceeded | HttpFailure => true | _ => false end.

(** A record of the input file, and an entry of the cache. *)
Definition Video : Type := gmap string string.
Definition Entry : Type := gmap string string.
(** [video_cache]: video id ↦ entry. *)
Definition Cache : Type := gmap string Entry.

(** An item of a [videos().list(part="contentDetails")] response. *)
Record Item := {
  item_id : option string;
  item_contentDetails : option (gmap string string)
}.

Inductive Event :=
| CacheRead
| InputRead (path : string)
| Requested (batch : list string)   (* request.execute() for ','.join(batch) *)
| Slept
| Saved (cache : Cache)             (* save_video_cache *)
| Detected (text : string)          (* langdetect.detect *)
| Dumped (videos : list Video).     (* json.dump to filtered_videos.json *)

Record Services := {
  (* video_cache.json: absent, or the outcome of json.load ([None]: it raised) *)
  cache_file : option (option Cache);
  (* json.load of the input file; [None]: an exception *)
  input_json : string → option (list Video);
  (* youtube.videos().list(...).execute() for the batch that starts at the
     given offset: the 'items' of the response *)
  videos_list : nat → list string → res (list Item);
  (* langdetect.detect *)
  detect : string → res string;
  (* isodate.parse_duration(d).total_seconds(); [None]: an exception *)
  parse_duration : string → option Q
}.

(** [range(start, stop, step)] for a positive [step] *)
Definition py_range_step (start stop step : nat) : list nat :=
  (λ k, start + k * step)%nat <$> seq 0 ((stop - start + step - 1) / step)%nat.

Section Script.

Context (api : Services).

(** *** load_video_cache *)
Definition load_video_cache : Cache :=
  match cache_file api with
  | Some (Some cache) => cache
  | Some None => ∅
  | None => ∅
  end.

(** *** is_language_content *)

(** [text and detect(text) == target_language] *)
Definition detected_as (text target_language : string) : res bool * list Event :=
  if nonempty text then
    match detect api text with
    | Done language => (Done (String.eqb language target_language), [Detected text])
    | Fail e => (Fail e, [Detected text])
    end
  else (Done false, []).

(** A target language is set: [target_language] is neither [None] nor [''] *)
Definition language_set (target_language : option string) : bool :=
  match target_language with
  | Some language => nonempty language
  | None => false
  end.

Definition is_language_content (title description : string)
    (target_language : option string) : res bool * list Event :=
  match target_language with
  | None => (Done true, [])
  | Some language =>
      if nonempty language then
        match detected_as title language with
        | (Done true, t) => (Done true, t)
        | (Done false, t) =>
            match detected_as description language with
            | (Done found, t') => (Done found, t ++ t')
            | (Fail LangDetectException, t') => (Done false, t ++ t')
            | (Fail e, t') => (Fail e, t ++ t')
            end
        | (Fail LangDetectException, t) => (Done false, t)
        | (Fail e, t) => (Fail e, t)
        end
      else (Done true, [])
  end.

(** *** get_video_durations *)

(** [video_cache[vid]['duration']] where both keys are present *)
Definition cached_duration (video_cache : Cache) (vid : string) : option string :=
  entry ← video_cache !! vid; entry !! "duration".

(** [[vid for vid in video_ids
      if vid not in video_cache or 'duration' not in video_cache[vid]]] *)
Definition uncached (video_cache : Cache) (video_ids : list string) : list string :=
  filter (λ vid, cached_duration video_cache vid = None) video_ids.

(** [for item in response.get('items', []): ...] *)
Fixpoint store_items (items : list Item) (video_cache : Cache)
    (durations : gmap string string)
  : res unit * Cache * gmap string string :=
  match items with
  | [] => (Done (), video_cache, durations)
  | item :: rest =>
      match item_id item with
      | None => (Fail (MissingKey "id"), video_cache, durations)
      | Some vid =>
          let duration :=
            default "PT0S" (default ∅ (item_contentDetails item) !! "duration") in
          let entry := default ∅ (video_cache !! vid) in
          store_items rest
            (<[vid := <["duration" := duration]> entry]> video_cache)
            (<[vid := duration]> durations)
      end
  end.

(** [for i in range(0, len(uncached_ids), 50): ...], over the values of [i] *)
Fixpoint fetch_batches (starts : list nat) (uncached_ids : list string)
    (video_cache : Cache) (durations : gmap string string)
  : res unit * Cache * gmap string string * list Event :=
  match starts with
  | [] => (Done (), video_cache, durations, [])
  | i :: rest =>
      let batch := take 50 (drop i uncached_ids) in
      match videos_list api i batch with
      | Done items =>
          match store_items items video_cache durations with
          | (Done _, cache1, durations1) =>
              let '(r, cache2, durations2, t) :=
                fetch_batches rest uncached_ids cache1 durations1 in
              (r, cache2, durations2, [Requested batch; Slept; Saved cache1] ++ t)
          | (Fail e, cache1, durations1) =>
              (Fail e, cache1, durations1, [Requested batch; Slept])
          end
      | Fail HttpFailure =>
          (* logged; break *)
          (Done (), video_cache, durations, [Requested batch])
      | Fail e =>
          (* a quota error is raised again; the others are not caught *)
          (Fail e, video_cache, durations, [Requested batch])
      end
  end.

(** [for vid in video_ids: ...]: the durations of the cache, or 'PT0S' *)
Fixpoint fill_durations (video_ids : list string) (video_cache : Cache)
    (durations : gmap string string) : gmap string string :=
  match video_ids with
  | [] => durations
  | vid :: rest =>
      match cached_duration video_cache vid with
      | Some duration =>
          fill_durations rest video_cache (<[vid := duration]> durations)
      | None =>
          match durations !! vid with
          | None => fill_durations rest video_cache (<[vid := "PT0S"]> durations)
          | Some _ => fill_durations rest video_cache durations
          end
      end
  end.

Definition get_video_durations (video_ids : list string) (video_cache : Cache)
  : res (gmap string string) * Cache * list Event :=
  let uncached_ids := uncached video_cache video_ids in
  let '(r, cache1, durations, t) :=
    match uncached_ids with
    | [] => (Done (), video_cache, ∅, [])
    | _ =>
        fetch_batches (py_range_step 0 (length uncached_ids) 50) uncached_ids
          video_cache ∅
    end in
  match r with
  | Done _ => (Done (fill_durations video_ids cache1 durations), cache1, t)
  | Fail e => (Fail e, cache1, t)
  end.

(** *** duration_to_seconds *)
Definition duration_to_seconds (duration : string) : Z :=
  match parse_duration api duration with
  | Some seconds => py_int seconds
  | None => 0
  end.

(** *** filter_videos *)

(** [[video['video_id'] for video in videos]] *)
Fixpoint video_ids_of (videos : list Video) : res (list string) :=
  match videos with
  | [] => Done []
  | video :: rest =>
      match video !! "video_id" with
      | None => Fail (MissingKey "video_id")
      | Some vid =>
          match video_ids_of rest with
          | Done vids => Done (vid :: vids)
          | Fail e => Fail e
          end
      end
  end.

(** [for video in videos: ...] *)
Fixpoint filter_loop (videos : list Video) (durations : gmap string string)
    (min_duration_seconds : Z) (target_language : option string)
    (filtered_videos : list Video) : res (list Video) * list Event :=
  match videos with
  | [] => (Done filtered_videos, [])
  | video :: rest =>
      match video !! "video_id", video !! "title", video !! "description" with
      | None, _, _ => (Fail (MissingKey "video_id"), [])
      | Some _, None, _ => (Fail (MissingKey "title"), [])
      | Some _, Some _, None => (Fail (MissingKey "description"), [])
      | Some vid, Some title, Some description =>
          let '(in_language, t1) :=
            if language_set target_language
            then is_language_content title description target_language
            else (Done true, []) in
          match in_language with
          | Fail e => (Fail e, t1)
          | Done false =>
              let '(r, t) := filter_loop rest durations min_duration_seconds
                               target_language filtered_videos in
              (r, t1 ++ t)
          | Done true =>
              let duration := default "PT0S" (durations !! vid) in
              let duration_seconds := duration_to_seconds duration in
              let '(r, t) :=
                filter_loop rest durations min_duration_seconds target_language
                  (if duration_seconds <? min_duration_seconds
                   then filtered_videos else filtered_videos ++ [video]) in
              (r, t1 ++ t)
          end
      end
  end.

(** The script returns nothing; what it did is the trace, which ends with the
    [Dumped] list when the output file was written. *)
Definition filter_videos (input_file : string) (min_duration_seconds : Z)
    (target_language : option string) : res unit * Cache * list Event :=
  let video_cache := load_video_cache in
  match input_json api input_file with
  | None => (Done (), video_cache, [CacheRead; InputRead input_file])
  | Some videos =>
      match video_ids_of videos with
      | Fail e => (Fail e, video_cache, [CacheRead; InputRead input_file])
      | Done video_ids =>
          match get_video_durations video_ids video_cache with
          | (Fail e, cache1, t) =>
              if is_HttpError e
              then (Done (), cache1, [CacheRead; InputRead input_file] ++ t)
              else (Fail e, cache1, [CacheRead; InputRead input_file] ++ t)
          | (Done durations, cache1, t) =>
              match filter_loop videos durations min_duration_seconds
                      target_language [] with
              | (Done filtered_videos, t2) =>
                  (Done (), cache1,
                   [CacheRead; InputRead input_file] ++ t ++ t2
                     ++ [Dumped filtered_videos])
              | (Fail e, t2) =>
                  (Fail e, cache1, [CacheRead; InputRead input_file] ++ t ++ t2)
              end
          end
      end
  end.

End Script.

End Filter.
(** * Vocabulary of the properties *)

(** A computation that halts, leaves the files alone and does not depend on
    them: on every file system it gives the same result and trace. *)
Definition stateless {A} (m : M A) : Prop :=
  ∃ r t, ∀ fs, m fs = Some (r, fs, t).

(** A stateless computation that does not raise. *)
Definition safe {A} (m : M A) : Prop :=
  ∃ a t, ∀ fs, m fs = Some (Ok a, fs, t).

(** A computation that, when it halts, has left the files alone and did not
    depend on them. *)
Definition steady {A} (m : M A) : Prop :=
  ∀ fs r fs' t, m fs = Some (r, fs', t) → ∀ fs0, m fs0 = Some (r, fs0, t).

(** A trace put in front of the trace of a run. *)
Definition prepend {A} (t0 : list Event)
    (o : option (result A * Files * list Event))
  : option (result A * Files * list Event) :=
  match o with
  | Some (r, fs, t) => Some (r, fs, t0 ++ t)
  | None => None
  end.

(** The result and the files of a run, and its trace. *)
Definition outcome {A} (o : option (result A * Files * list Event))
  : option (result A * Files) :=
  match o with
  | Some (r, fs, _) => Some (r, fs)
  | None => None
  end.

Definition events {A} (o : option (result A * Files * list Event)) : list Event :=
  match o with
  | Some (_, _, t) => t
  | None => []
  end.

Section MatcherVocabulary.

Context {Pil Img Enc : Type} (E : Env Pil Img Enc).

(** A gallery entry [k] matches the embedding [e]. *)
Definition within_tolerance (k e : Enc) : Prop :=
  (face_distance E k e <= tolerance)%Q.

(** No entry of the gallery matches [e]. *)
Definition unmatched (known : list Enc) (e : Enc) : Prop :=
  Forall (λ k, ¬ within_tolerance k e) known.

Definition box_width (box : Box) : Z := let '(_, r, _, l) := box in r - l.
Definition box_height (box : Box) : Z := let '(t, _, b, _) := box in b - t.

(** A box survives the size filter. *)
Definition survives (box : Box) : Prop := 40 ≤ box_width box ∧ 40 ≤ box_height box.

(** A detected box that cannot produce a match: filtered out by size, or
    embedded into faces none of which is within tolerance of the gallery. *)
Definition fruitless (rgb : Img) (known : list Enc) (box : Box) : Prop :=
  ¬ survives box ∨
  ∃ es, face_encodings E rgb box = Ok es ∧ Forall (unmatched known) es.

(** The boxes of a list that the matcher embeds. *)
Definition embedded (boxes : list Box) : list Box :=
  filter (λ b, too_small b = false) boxes.

(** What detection finds in an image: its RGB array and the face boxes. *)
Definition detects (image : Pil) (rgb : Img) (boxes : list Box) : Prop :=
  ∃ image_np,
    np_array E image = Ok image_np ∧ cvt_rgb E image_np = Ok rgb ∧
    face_locations E rgb = Ok boxes.

(** No detected box has both width and height of at least 40 pixels. *)
Definition no_large_face (image : Pil) : Prop :=
  ∀ rgb boxes, detects image rgb boxes → Forall (λ box, ¬ survives box) boxes.

(** No embedding of a surviving box is within tolerance of a gallery entry. *)
Definition no_face_matches (image : Pil) (known : list Enc) : Prop :=
  ∀ rgb boxes, detects image rgb boxes →
    ∀ box es, box ∈ boxes → survives box →
      face_encodings E rgb box = Ok es → Forall (unmatched known) es.

End MatcherVocabulary.

(** The spec's [round]: the nearest integer, a tie going to the even one. *)
Definition spec_round (x : Q) : Z :=
  let f := Qfloor x in
  let d := (x - inject_Z f)%Q in
  if Qlt_bool d (1 # 2) then f
  else if Qlt_bool (1 # 2) d then f + 1
  else if Z.even f then f else f + 1.

(** The window as the claim words it: rounded, not truncated. *)
Definition rounded_window (fps look_around : Q) (total_frames p : Z) : list Z :=
  let reach := spec_round (round_double (fps * look_around)) in
  py_range (Z.max 0 (p - reach)) (Z.min total_frames (p + reach + 1)).

Section FramesVocabulary.

Context {Pil Img Enc : Type} (E : Env Pil Img Enc).

(** A frame that is neither blurry nor of low contrast. *)
Definition passes_gates (frame : Img) : Prop :=
  is_frame_blurry E frame 150 = Ok false ∧
  has_low_contrast E frame 30 = Ok false.

(** The positions the loop stops at: 0, step, 2 step, ... below the count. *)
Definition sample_positions (step total_frames : Z) : list Z :=
  (λ k, Z.of_nat k * step) <$> seq 0 (Z.to_nat ((total_frames + step - 1) / step)).

(** The stops from position [c] on. *)
Definition stops_from (step total_frames c : Z) : list Z :=
  (λ k, c + Z.of_nat k * step) <$>
    seq 0 (Z.to_nat ((total_frames - c + step - 1) / step)).

(** The reads of one stop: the target frame, then its window. *)
Definition sample_reads (video_path : string) (look_around_frames total_frames p : Z)
  : list Event :=
  EvCapRead video_path p
  :: (EvCapRead video_path <$> window_positions look_around_frames total_frames p).

(** Nothing interrupts the scan: at every stop the target frame can be
    read, and in its window every read returns -- a frame or none -- and
    every frame read can be scored for sharpness and for contrast. *)
Definition unbroken (video_path : string) (step reach total_frames : Z) : Prop :=
  ∀ p, p ∈ sample_positions step total_frames →
    (∃ target, cap_read E video_path p = Ok (Some target)) ∧
    ∀ x, x ∈ window_positions reach total_frames p →
      cap_read E video_path x = Ok None ∨
      ∃ frame v c, cap_read E video_path x = Ok (Some frame) ∧
                   laplacian_var E frame = Ok v ∧ gray_std E frame = Ok c.

(** The running best of a window scan, when there is one, can be scored for
    sharpness and for contrast. *)
Definition scorable (best : option Img) : Prop :=
  ∀ frame, best = Some frame →
    (∃ v, laplacian_var E frame = Ok v) ∧ (∃ c, gray_std E frame = Ok c).

(** The frame that the window scan at the stop [p] settles on, if any. *)
Definition window_best (video_path : string) (reach total_frames p : Z)
  : option Img :=
  match window_scan E video_path (window_positions reach total_frames p)
          None (-1)%Q p ∅ with
  | Some (Ok (best, _, _), _, _) => best
  | _ => None
  end.

(** Both gates let the frame through. *)
Definition gates_pass (frame : Img) : bool :=
  match is_frame_blurry E frame 150, has_low_contrast E frame 30 with
  | Ok false, Ok false => true
  | _, _ => false
  end.

(** What the stop [p] adds to the output: the best frame of its window when
    that frame passes both gates, and nothing otherwise. *)
Definition selected (video_path : string) (reach total_frames p : Z)
  : option Img :=
  best ← window_best video_path reach total_frames p;
  if gates_pass best then Some best else None.

(** The first [n] stops of the loop. *)
Definition first_stops (step : Z) (n : nat) : list Z :=
  (λ k, Z.of_nat k * step) <$> seq 0 n.

(** The first round of the loop goes through: the source has a frame, frame
    0 can be read, and neither the scan of its window nor the gate raises. *)
Definition first_round_completes (video_path : string) (look_around : Q) : Prop :=
  let fps := cap_fps E video_path in
  let total_frames := py_int (cap_frame_count E video_path) in
  1 ≤ total_frames ∧
  (∃ target, cap_read E video_path 0 = Ok (Some target)) ∧
  ∃ best v pos t out,
    window_scan E video_path
      (window_positions (look_around_frames fps look_around) total_frames 0)
      None (-1)%Q 0 ∅
    = Some (Ok (best, v, pos), ∅, t) ∧
    gate_best_frame E fps 0 best pos [] [] ∅ = Some (Ok out, ∅, []).

(** The scan of [video_path] by [process_video] advances and fits the fuel. *)
Definition scan_bounded (fuel : nat) (video_path : string) : Prop :=
  1 ≤ frame_interval (cap_fps E video_path) (5 # 2) ∧
  py_int (cap_frame_count E video_path) ≤ Z.of_nat fuel.

(** The scan of [video_path] by [process_video] ends: within the fuel,
    [extract_frames] gives a result. *)
Definition scan_halts (fuel : nat) (video_path : string) : Prop :=
  extract_frames E fuel video_path (5 # 2) (1 # 4) ∅ ≠ None.

End FramesVocabulary.

Section OrchestratorVocabulary.

Context {Pil Img Enc : Type} (E : Env Pil Img Enc).

(** Where [download_video] puts the video [vid]. *)
Definition video_file (temp_dir vid : string) : string :=
  path_join temp_dir (vid +:+ ".mp4").

(** The files that the download attempts [attempts] for [vid] leave in
    [temp_dir]. *)
Definition left_by (temp_dir vid : string) (attempts : list nat) : Files :=
  ⋃ ((λ n, ydl_files E vid n (video_file temp_dir vid)) <$> attempts).

(** A record that carries both identifiers and the scan of whose video
    ends. *)
Definition well_formed (fuel : nat) (temp_dir : string)
    (video : gmap string string) : Prop :=
  ∃ vid cid,
    video !! "video_id" = Some vid ∧ video !! "channel_id" = Some cid ∧
    scan_halts E fuel (video_file temp_dir vid).

(** The [n]-th metadata attempt ends in an [HttpError]: at the video
    request, or at the channel request after the video request went through. *)
Definition attempt_fails (vid cid : string) (n : nat) : Prop :=
  videos_list E vid n = Raise HttpError ∨
  ∃ items item, videos_list E vid n = Ok items ∧ items !! 0%nat = Some item ∧
                channels_list E cid n = Raise HttpError.

(** Metadata resolution runs out of retries. *)
Definition exhausted (vid cid : string) (retries : nat) : Prop :=
  ∀ n, (n < retries)%nat → attempt_fails vid cid n.

(** The files with an image extension, in directory order. *)
Definition image_files (filenames : list string) : list string :=
  filter (λ f, has_image_ext f = true) filenames.

(** A directory entry that adds nothing to the gallery: not an image file,
    or an image in which no face is found. *)
Definition unusable (dir filename : string) : Prop :=
  has_image_ext filename = false ∨
  ∃ image, load_image_file E (path_join dir filename) = Ok image ∧
           face_encodings_all E image = Ok [].

(** The gallery directory is missing or has no usable entry. *)
Definition gallery_unusable (dir : string) : Prop :=
  listdir E dir = None ∨
  ∃ filenames,
    listdir E dir = Some (Ok filenames) ∧ Forall (unusable dir) filenames.

End OrchestratorVocabulary.

Definition gallery_event (ev : Event) : Prop := ∃ path, ev = EvLoadImageFile path.

(** * Vocabulary of the further properties *)

(** The trace of a download attempt that raised. *)
Definition failed_download (vid : string) (n : nat) : list Event :=
  [EvYdlDownload vid n; EvSleep].

Section MetadataVocabulary.

Context {Pil Img Enc : Type} (E : Env Pil Img Enc).

(** The [n]-th metadata attempt ends in the exception [e], which is not an
    [HttpError]: raised by a request, or the [IndexError] of [items[0]] on an
    answer without items. *)
Definition attempt_breaks (vid cid : string) (n : nat) (e : exn) : Prop :=
  is_HttpError e = false ∧
  (videos_list E vid n = Raise e ∨
   (videos_list E vid n = Ok [] ∧ e = IndexError) ∨
   ∃ item rest,
     videos_list E vid n = Ok (item :: rest) ∧
     (channels_list E cid n = Raise e ∨
      (channels_list E cid n = Ok [] ∧ e = IndexError))).

End MetadataVocabulary.

(** The number of pauses in a trace. *)
Definition sleeps (t : list Event) : nat :=
  length (filter (λ ev, ev = EvSleep) t).

(** The calls of the matcher on one frame whose boxes are [boxes]. *)
Definition frame_events (boxes : list Box) : list Event :=
  EvFaceLocations :: (EvFaceEncodings <$> embedded boxes).

Section SelectorVocabulary.

Context {Pil Img Enc : Type} (E : Env Pil Img Enc).

(** An emitted sample: a frame of the source with the time of its position. *)
Definition sample_of (path : string) (frame : Img) (ts : Q) : Prop :=
  ∃ pos, 0 ≤ pos < py_int (cap_frame_count E path) ∧
         cap_read E path pos = Ok (Some frame) ∧
         Qeq_bool (cap_fps E path) 0 = false ∧
         ts = (inject_Z pos / cap_fps E path)%Q.

End SelectorVocabulary.

(** A string with a character other than the dot. *)
Fixpoint has_name_char (s : string) : bool :=
  match s with
  | EmptyString => false
  | String c s' => (negb (Ascii.eqb c ".") || has_name_char s')%bool
  end.

(** A string without dots. *)
Fixpoint dot_free (s : string) : bool :=
  match s with
  | EmptyString => true
  | String c s' => (negb (Ascii.eqb c ".") && dot_free s')%bool
  end.

Section LoaderVocabulary.

Context {Pil Img Enc : Type} (E : Env Pil Img Enc).

(** What an image file adds to the gallery: the first face found in it,
    under the name of the file without its extension. *)
Definition gallery_entry (dir filename : string) : option (Enc * string) :=
  match load_image_file E (path_join dir filename) with
  | Ok image =>
      match face_encodings_all E image with
      | Ok (e :: _) => Some (e, splitext_root filename)
      | _ => None
      end
  | Raise _ => None
  end.

(** The image file can be loaded and searched for faces. *)
Definition loadable (dir filename : string) : Prop :=
  ∃ image es, load_image_file E (path_join dir filename) = Ok image ∧
              face_encodings_all E image = Ok es.

(** The loads of the image files among [filenames]. *)
Definition loads (dir : string) (filenames : list string) : list Event :=
  EvLoadImageFile <$> (path_join dir <$> image_files filenames).

End LoaderVocabulary.


Section RunVocabulary.

Context {Pil Img Enc : Type} (E : Env Pil Img Enc).

(** [path] lies under the directory [dir]. *)
Definition below (dir path : string) : Prop :=
  String.prefix (dir +:+ "/") path = true.

(** Everything under [dir] can be unlinked. *)
Definition removable (dir : string) : Prop :=
  ∀ path, below dir path → undeletable E path = false.

(** From [fs] to [fs'] the files outside [dir] are the same, and a file that
    cannot be unlinked is still there. *)
Definition confined (dir : string) (fs fs' : Files) : Prop :=
  ∀ path, (¬ below dir path → (path ∈ fs' ↔ path ∈ fs)) ∧
          (undeletable E path = true → path ∈ fs → path ∈ fs').

(** [fs'] is [fs] without what was under [dir]. *)
Definition cleared (dir : string) (fs fs' : Files) : Prop :=
  ∀ path, path ∈ fs' ↔ path ∈ fs ∧ ¬ below dir path.


End RunVocabulary.

(** ** Vocabulary of [filter_videos] *)

(** The batches of ids sent to the API, in order. *)
Definition requested_batches (t : list Filter.Event) : list (list string) :=
  omap (λ ev, match ev with Filter.Requested batch => Some batch | _ => None end) t.

(** The output file is written. *)
Definition is_dump (ev : Filter.Event) : bool :=
  match ev with Filter.Dumped _ => true | _ => false end.

(** The [k]-th batch of fifty of a list of ids. *)
Definition batch_at (ids : list string) (k : nat) : list string :=
  take 50 (drop (k * 50) ids).

(** The record has the three fields that [filter_videos] reads. *)
Definition complete (video : Filter.Video) : Prop :=
  is_Some (video !! "video_id") ∧ is_Some (video !! "title") ∧
  is_Some (video !! "description").

(** The durations recorded so far are those of the cache. *)
Definition recorded (cache : Filter.Cache) (durations : gmap string string) : Prop :=
  ∀ vid d, durations !! vid = Some d → Filter.cached_duration cache vid = Some d.

(** Every recorded duration is the one of the cache, or ['PT0S'] for a video
    the cache has no duration for. *)
Definition settled (cache : Filter.Cache) (durations : gmap string string) : Prop :=
  ∀ vid d, durations !! vid = Some d →
           d = default "PT0S" (Filter.cached_duration cache vid).

(** [cache'] has the entries of [cache]; they differ at most in their
    duration, which none has lost. *)
Definition grown (cache cache' : Filter.Cache) : Prop :=
  ∀ vid entry, cache !! vid = Some entry →
    ∃ entry', cache' !! vid = Some entry' ∧
              (∀ field, field ≠ "duration" → entry' !! field = entry !! field) ∧
              (is_Some (entry !! "duration") → is_Some (entry' !! "duration")).

Section FilterVocabulary.

Context (api : Filter.Services).

(** The API answers with items of the videos it was asked about. *)
Definition answers_what_is_asked : Prop :=
  ∀ i batch items item vid,
    Filter.videos_list api i batch = Filter.Done items → item ∈ items →
    Filter.item_id item = Some vid → vid ∈ batch.

(** The [k]-th request for [ids] is answered, with items that all have an id. *)
Definition answered (ids : list string) (k : nat) : Prop :=
  ∃ items, Filter.videos_list api (k * 50) (batch_at ids k) = Filter.Done items ∧
           Forall (λ item, is_Some (Filter.item_id item)) items.

(** The duration that [filter_videos] compares with the minimum. *)
Definition seconds_of (durations : gmap string string) (video : Filter.Video) : Z :=
  Filter.duration_to_seconds api
    (default "PT0S" (vid ← video !! "video_id"; durations !! vid)).

(** The verdict of the language test on a record, when a language is set. *)
Definition language_verdict (target_language : option string)
    (video : Filter.Video) : Filter.res bool :=
  if Filter.language_set target_language then
    (Filter.is_language_content api (default "" (video !! "title"))
       (default "" (video !! "description")) target_language).1
  else Filter.Done true.

(** The record passes both tests. *)
Definition kept (durations : gmap string string) (min_duration_seconds : Z)
    (target_language : option string) (video : Filter.Video) : bool :=
  match language_verdict target_language video with
  | Filter.Done true => negb (seconds_of durations video <? min_duration_seconds)
  | _ => false
  end.

End FilterVocabulary.
(** * A concrete environment

    Images and pixel arrays are numbered; an embedding is a point on a line
    and the distance between two of them is their gap in hundredths. *)

Module Demo.

Definition alice : Z := 0.
Definition bob : Z := 100.
Definition bobby : Z := 110.

Definition thumbnails_of (url : string) : Thumbnails :=
  {[ "high" := {[ "url" := url ]} ]}.

Definition face_files : list string :=
  ["alice.jpg"; "README.txt"; "bob.PNG"; "blank.jpeg"; "bobby.JPEG"].

Definition v1 : gmap string string :=
  {[ "video_id" := "v1"; "channel_id" := "c1"; "title" := "first" ]}.

Definition records : list (gmap string string) :=
  [ v1;
    {[ "video_id" := "gone"; "channel_id" := "c1" ]};
    {[ "video_id" := "v2"; "channel_id" := "c2" ]} ].

(** The environment, open in the four places the scenarios below vary: the
    gallery directory, the channel API, the paths that cannot be unlinked and
    the input records. *)
Definition env_with (known_faces : option (list string))
    (channel_api : string → nat → result (list Thumbnails))
    (locked : string → bool) (input : list (gmap string string))
  : Env nat nat Z := {|
  listdir d := if String.eqb d "known_faces" then Ok <$> known_faces else None;
  load_image_file p :=
    if String.eqb p "known_faces/alice.jpg" then Ok 1%nat
    else if String.eqb p "known_faces/bob.PNG" then Ok 2%nat
    else if String.eqb p "known_faces/blank.jpeg" then Ok 3%nat
    else if String.eqb p "known_faces/bobby.JPEG" then Ok 4%nat
    else Raise LibraryError;
  face_encodings_all img :=
    match img with
    | 1%nat => Ok [alice]
    | 2%nat => Ok [bob; 300]
    | 4%nat => Ok [bobby]
    | _ => Ok []
    end;
  requests_get url :=
    if String.eqb url "http://img/thumb" then Ok 10%nat
    else if String.eqb url "http://img/avatar" then Ok 11%nat
    else if String.eqb url "http://img/tiny" then Ok 12%nat
    else Raise LibraryError;
  np_array p := Ok p;
  cvt_rgb img := Ok img;
  face_locations img :=
    match img with
    | 10%nat => Ok [(0, 30, 30, 0); (0, 200, 100, 100); (0, 400, 100, 300);
                    (0, 600, 100, 500)]
    | 11%nat => Ok [(0, 200, 100, 100)]
    | 12%nat => Ok [(0, 39, 80, 0)]
    | 1080%nat => Ok [(0, 400, 100, 300)]
    | _ => Ok []
    end;
  face_encodings img box :=
    match img, box with
    | 10%nat, (0, 200, 100, 100) => Ok [250]
    | 10%nat, (0, 400, 100, 300) => Ok [500; 90]
    | 10%nat, (0, 600, 100, 500) => Ok [alice]
    | 11%nat, _ => Ok [700]
    | 1080%nat, _ => Ok [bob]
    | _, _ => Raise LibraryError
    end;
  face_distance a b := Z.abs (a - b) # 100;
  laplacian_var img :=
    if (img =? 1080)%nat then Ok (400 # 1) else Ok (Z.of_nat img # 10);
  gray_std img := Ok (50 # 1);
  videos_list vid attempt :=
    if String.eqb vid "gone" then Ok [] else Ok [thumbnails_of "http://img/thumb"];
  channels_list := channel_api;
  ydl_download vid attempt := (Ok (), [""]);
  cap_fps path := 30 # 1;
  cap_frame_count path := 100 # 1;
  cap_read path pos :=
    if (0 <=? pos)%Z && (pos <? 100)%Z then Ok (Some (1000 + Z.to_nat pos)%nat)
    else Ok None;
  undeletable := locked;
  json_load path := Ok input;
  mkdtemp := "/tmp/tmpface"
|}.

Definition channel_ok (cid : string) (attempt : nat) : result (list Thumbnails) :=
  Ok [thumbnails_of "http://img/avatar"].

Definition env : Env nat nat Z :=
  env_with (Some face_files) channel_ok (λ _, false) records.

(** No gallery directory. *)
Definition no_gallery : Env nat nat Z :=
  env_with None channel_ok (λ _, false) records.

(** The channel API answers every request with an [HttpError]. *)
Definition no_channel : Env nat nat Z :=
  env_with (Some face_files) (λ _ _, Raise HttpError) (λ _, false) records.

(** Nothing can be unlinked. *)
Definition locked : Env nat nat Z :=
  env_with (Some face_files) channel_ok (λ _, true) records.

(** The first record lacks its identifiers. *)
Definition missing_field : Env nat nat Z :=
  env_with (Some face_files) channel_ok (λ _, false)
    [ {[ "title" := "untitled" ]}; {[ "video_id" := "v2"; "channel_id" := "c2" ]} ].

Definition gallery : list Z := [alice; bob; bobby].
Definition names : list string := ["alice"; "bob"; "bobby"].

(** A time-lapse source: one frame every five seconds, all of them blurry. *)
Definition timelapse : Env nat nat Z := {|
  listdir := listdir env;
  load_image_file := load_image_file env;
  face_encodings_all := face_encodings_all env;
  requests_get := requests_get env;
  np_array := np_array env;
  cvt_rgb := cvt_rgb env;
  face_locations := face_locations env;
  face_encodings := face_encodings env;
  face_distance := face_distance env;
  laplacian_var img := Ok (1 # 2);
  gray_std := gray_std env;
  videos_list := videos_list env;
  channels_list := channels_list env;
  ydl_download := ydl_download env;
  cap_fps path := 1 # 5;
  cap_frame_count path := 3 # 1;
  cap_read path pos := Ok (Some 7%nat);
  undeletable := undeletable env;
  json_load := json_load env;
  mkdtemp := mkdtemp env
|}.

End Demo.

(** * Scenarios: an environment with some of its capabilities replaced *)

Module Scenario.

Section Setters.

Context {Pil Img Enc : Type}.

Definition with_ydl_download (f : string → nat → result unit * list string)
    (E : Env Pil Img Enc) : Env Pil Img Enc := {|
  listdir := listdir E;
  load_image_file := load_image_file E;
  face_encodings_all := face_encodings_all E;
  requests_get := requests_get E;
  np_array := np_array E;
  cvt_rgb := cvt_rgb E;
  face_locations := face_locations E;
  face_encodings := face_encodings E;
  face_distance := face_distance E;
  laplacian_var := laplacian_var E;
  gray_std := gray_std E;
  videos_list := videos_list E;
  channels_list := channels_list E;
  ydl_download := f;
  cap_fps := cap_fps E;
  cap_frame_count := cap_frame_count E;
  cap_read := cap_read E;
  undeletable := undeletable E;
  json_load := json_load E;
  mkdtemp := mkdtemp E
|}.

Definition with_metadata
    (videos channels : string → nat → result (list Thumbnails))
    (E : Env Pil Img Enc) : Env Pil Img Enc := {|
  listdir := listdir E;
  load_image_file := load_image_file E;
  face_encodings_all := face_encodings_all E;
  requests_get := requests_get E;
  np_array := np_array E;
  cvt_rgb := cvt_rgb E;
  face_locations := face_locations E;
  face_encodings := face_encodings E;
  face_distance := face_distance E;
  laplacian_var := laplacian_var E;
  gray_std := gray_std E;
  videos_list := videos;
  channels_list := channels;
  ydl_download := ydl_download E;
  cap_fps := cap_fps E;
  cap_frame_count := cap_frame_count E;
  cap_read := cap_read E;
  undeletable := undeletable E;
  json_load := json_load E;
  mkdtemp := mkdtemp E
|}.

Definition with_capture (fps count : string → Q)
    (read : string → Z → result (option Img))
    (E : Env Pil Img Enc) : Env Pil Img Enc := {|
  listdir := listdir E;
  load_image_file := load_image_file E;
  face_encodings_all := face_encodings_all E;
  requests_get := requests_get E;
  np_array := np_array E;
  cvt_rgb := cvt_rgb E;
  face_locations := face_locations E;
  face_encodings := face_encodings E;
  face_distance := face_distance E;
  laplacian_var := laplacian_var E;
  gray_std := gray_std E;
  videos_list := videos_list E;
  channels_list := channels_list E;
  ydl_download := ydl_download E;
  cap_fps := fps;
  cap_frame_count := count;
  cap_read := read;
  undeletable := undeletable E;
  json_load := json_load E;
  mkdtemp := mkdtemp E
|}.

Definition with_image_files (load : string → result Img)
    (E : Env Pil Img Enc) : Env Pil Img Enc := {|
  listdir := listdir E;
  load_image_file := load;
  face_encodings_all := face_encodings_all E;
  requests_get := requests_get E;
  np_array := np_array E;
  cvt_rgb := cvt_rgb E;
  face_locations := face_locations E;
  face_encodings := face_encodings E;
  face_distance := face_distance E;
  laplacian_var := laplacian_var E;
  gray_std := gray_std E;
  videos_list := videos_list E;
  channels_list := channels_list E;
  ydl_download := ydl_download E;
  cap_fps := cap_fps E;
  cap_frame_count := cap_frame_count E;
  cap_read := cap_read E;
  undeletable := undeletable E;
  json_load := json_load E;
  mkdtemp := mkdtemp E
|}.

End Setters.

(** The network goes down during every download: each raises and leaves a
    partial file. *)
Definition offline : Env nat nat Z :=
  with_ydl_download (λ _ _, (Raise LibraryError, [".part"])) Demo.env.

(** The download goes through at the third attempt; the first two leave a
    partial file. *)
Definition flaky : Env nat nat Z :=
  with_ydl_download
    (λ _ n, if (n <? 2)%nat then (Raise LibraryError, [".part"]) else (Ok (), [""]))
    Demo.env.

End Scenario.

Module Scenario2.

(** The API answers the third metadata attempt; the first two end in an
    [HttpError], one at the video request and one at the channel request. *)
Definition throttled : Env nat nat Z :=
  Scenario.with_metadata
    (λ vid n, match n with
              | 0%nat => Raise HttpError
              | _ => Ok [Demo.thumbnails_of "http://img/thumb"]
              end)
    (λ cid n, match n with
              | 1%nat => Raise HttpError
              | _ => Ok [ {[ "default" := {[ "url" := "http://img/small" ]} ]} ]
              end)
    Demo.env.

End Scenario2.

Module Scenario3.

(** A capture that could not be opened: no frame rate, no frames. *)
Definition unopened : Env nat nat Z :=
  Scenario.with_capture (λ _, 0%Q) (λ _, 0%Q) (λ _ _, Ok None) Demo.env.

(** A source with five frames that reports a frame rate of zero. *)
Definition no_rate : Env nat nat Z :=
  Scenario.with_capture (λ _, 0%Q) (λ _, (5 # 1)%Q) (λ _ _, Ok (Some 7%nat))
    Demo.env.

(** The sharpness of the frames of the demo source around frame 3. *)
Definition score (pos : Z) : Q := Z.of_nat (1000 + Z.to_nat pos) # 10.

End Scenario3.

Module Scenario4.

(** The second reference image cannot be decoded. *)
Definition corrupt : Env nat nat Z :=
  Scenario.with_image_files
    (λ p, if String.eqb p "known_faces/bob.PNG" then Raise LibraryError
          else load_image_file Demo.env p)
    Demo.env.

End Scenario4.


(** Runs of [main]. *)
Module Scenario5.

(** The second record has no [channel_id]. *)
Definition incomplete : Env nat nat Z :=
  Demo.env_with (Some Demo.face_files) Demo.channel_ok (λ _, false)
    [ Demo.v1; {[ "video_id" := "v2" ]};
      {[ "video_id" := "v3"; "channel_id" := "c3" ]} ].

(** The input file cannot be parsed. *)
Definition unreadable : Env nat nat Z := {|
  listdir := listdir Demo.env;
  load_image_file := load_image_file Demo.env;
  face_encodings_all := face_encodings_all Demo.env;
  requests_get := requests_get Demo.env;
  np_array := np_array Demo.env;
  cvt_rgb := cvt_rgb Demo.env;
  face_locations := face_locations Demo.env;
  face_encodings := face_encodings Demo.env;
  face_distance := face_distance Demo.env;
  laplacian_var := laplacian_var Demo.env;
  gray_std := gray_std Demo.env;
  videos_list := videos_list Demo.env;
  channels_list := channels_list Demo.env;
  ydl_download := ydl_download Demo.env;
  cap_fps := cap_fps Demo.env;
  cap_frame_count := cap_frame_count Demo.env;
  cap_read := cap_read Demo.env;
  undeletable := undeletable Demo.env;
  json_load path := Raise LibraryError;
  mkdtemp := mkdtemp Demo.env
|}.

(** The file of the first video cannot be unlinked. *)
Definition held : Env nat nat Z :=
  Demo.env_with (Some Demo.face_files) Demo.channel_ok
    (String.eqb "/tmp/tmpface/v1.mp4") Demo.records.

End Scenario5.

(** Runs of [filter_videos.py]. *)
Module FilterDemo.

Definition clip (vid title description : string) : Filter.Video :=
  {[ "video_id" := vid; "title" := title; "description" := description ]}.

Definition talk : Filter.Video := clip "a" "Interview" "A long talk".
Definition short : Filter.Video := clip "b" "Teaser" "Ten seconds".
Definition lecture : Filter.Video := clip "c" "Лекция" "Запись лекции".

Definition input : list Filter.Video := [talk; short; lecture].

(** The cache knows the length of the first video and the channel of the
    second. *)
Definition cache : Filter.Cache :=
  {[ "a" := {[ "duration" := "PT1H" ]}; "b" := {[ "channel" := "news" ]} ]}.

Definition item (vid duration : string) : Filter.Item :=
  {| Filter.item_id := Some vid;
     Filter.item_contentDetails := Some {[ "duration" := duration ]} |}.

Definition services_with
    (list_videos : nat → list string → Filter.res (list Filter.Item))
  : Filter.Services := {|
  Filter.cache_file := Some (Some cache);
  Filter.input_json path :=
    if String.eqb path "all_videos.json" then Some input else None;
  Filter.videos_list := list_videos;
  Filter.detect text :=
    if String.eqb text "Лекция" then Filter.Done "ru"
    else if String.eqb text "Запись лекции" then Filter.Done "ru"
    else if String.eqb text "Teaser" then Filter.Fail Filter.LangDetectException
    else Filter.Done "en";
  Filter.parse_duration d :=
    if String.eqb d "PT1H" then Some (3600 # 1)
    else if String.eqb d "PT10S" then Some (10 # 1)
    else if String.eqb d "PT2M30.5S" then Some (301 # 2)
    else if String.eqb d "PT0S" then Some 0%Q
    else None
|}.

(** The API knows the second video and has nothing on the third. *)
Definition services : Filter.Services :=
  services_with (λ i batch,
    Filter.Done (omap (λ vid, if String.eqb vid "b" then Some (item "b" "PT10S")
                              else None) batch)).

(** The API is out of quota. *)
Definition no_quota : Filter.Services :=
  services_with (λ _ _, Filter.Fail Filter.QuotaExceeded).

(** The API is down. *)
Definition down : Filter.Services :=
  services_with (λ _ _, Filter.Fail Filter.HttpFailure).

(** The cache once the second video has been fetched. *)
Definition cache_after : Filter.Cache :=
  <[ "b" := {[ "channel" := "news"; "duration" := "PT10S" ]} ]> cache.

(** A hundred and twenty videos, none of them cached. *)
Definition many : list string :=
  (λ n, String "v" (String (ascii_of_nat n) "")) <$> seq 0 120.

(** The API answers for every video it is asked about, except at the second
    batch, which fails with the given error. *)
Definition second_batch_fails (e : Filter.error) : Filter.Services :=
  services_with (λ i batch,
    if (i =? 50)%nat then Filter.Fail e
    else Filter.Done ((λ vid, item vid "PT1H") <$> batch)).

End FilterDemo.
(** * Properties *)

(** ** The monad *)

Lemma Qlt_bool_false x y : Qlt_bool x y = false ↔ (y <= x)%Q.
Proof.
  unfold Qlt_bool. rewrite negb_false_iff. apply Qle_bool_iff.
Qed.

Lemma bind_ok {A B} (m : M A) (f : A → M B) fs a fs1 t1 :
  m fs = Some (Ok a, fs1, t1) → (m ≫= f) fs = prepend t1 (f a fs1).
Proof.
  intros H. unfold mbind, M_bind, prepend. rewrite H.
  by destruct (f a fs1) as [[[] ?]|].
Qed.

Lemma bind_raise {A B} (m : M A) (f : A → M B) fs e fs1 t1 :
  m fs = Some (Raise e, fs1, t1) → (m ≫= f) fs = Some (Raise e, fs1, t1).
Proof. intros H. unfold mbind, M_bind. by rewrite H. Qed.

Lemma bind_Ok_inv {A B} (m : M A) (f : A → M B) fs b fs' t :
  (m ≫= f) fs = Some (Ok b, fs', t) →
  ∃ a fs1 t1 t2,
    m fs = Some (Ok a, fs1, t1) ∧ f a fs1 = Some (Ok b, fs', t2) ∧ t = t1 ++ t2.
Proof.
  unfold mbind, M_bind.
  destruct (m fs) as [[[[a|e] fs1] t1]|]; [|done..].
  destruct (f a fs1) as [[[r fs2] t2]|] eqn:Hf; [|done].
  intros [= -> -> <-]. by exists a, fs1, t1, t2.
Qed.

Lemma prepend_nil {A} (o : option (result A * Files * list Event)) :
  prepend [] o = o.
Proof. by destruct o as [[[] ?]|]. Qed.

Lemma prepend_prepend {A} t1 t2 (o : option (result A * Files * list Event)) :
  prepend t1 (prepend t2 o) = prepend (t1 ++ t2) o.
Proof. destruct o as [[[] ?]|]; simpl; [|done]. by rewrite app_assoc. Qed.

Lemma bind_lift {A B} (r : result A) (f : A → M B) fs :
  (lift r ≫= f) fs = match r with Ok a => f a fs | Raise e => Some (Raise e, fs, []) end.
Proof.
  destruct r; [|done]. by rewrite (bind_ok _ _ fs a fs []), prepend_nil.
Qed.

Lemma bind_call {A B} ev (r : result A) (f : A → M B) fs :
  (call ev r ≫= f) fs
  = match r with
    | Ok a => prepend [ev] (f a fs)
    | Raise e => Some (Raise e, fs, [ev])
    end.
Proof. destruct r; [|done]. by rewrite (bind_ok _ _ fs a fs [ev]). Qed.

Lemma bind_ret {A B} (a : A) (f : A → M B) fs : (mret a ≫= f) fs = f a fs.
Proof. by rewrite (bind_ok _ _ fs a fs []), prepend_nil. Qed.

Lemma bind_emit {B} ev (f : unit → M B) fs :
  (emit ev ≫= f) fs = prepend [ev] (f () fs).
Proof. by rewrite (bind_ok _ _ fs () fs [ev]). Qed.

Lemma stateless_bind {A B} (m : M A) (f : A → M B) :
  stateless m → (∀ a, stateless (f a)) → stateless (m ≫= f).
Proof.
  intros ([a|e] & t & Hm) Hf.
  - destruct (Hf a) as (r & t' & Hfa). exists r, (t ++ t'). intros fs.
    by rewrite (bind_ok _ _ _ _ _ _ (Hm fs)), Hfa.
  - exists (Raise e), t. intros fs. by rewrite (bind_raise _ _ _ _ _ _ (Hm fs)).
Qed.

Lemma safe_stateless {A} (m : M A) : safe m → stateless m.
Proof. intros (a & t & H). by exists (Ok a), t. Qed.

Lemma safe_bind {A B} (m : M A) (f : A → M B) :
  safe m → (∀ a, safe (f a)) → safe (m ≫= f).
Proof.
  intros (a & t & Hm) Hf. destruct (Hf a) as (b & t' & Hfa).
  exists b, (t ++ t'). intros fs.
  by rewrite (bind_ok _ _ _ _ _ _ (Hm fs)), Hfa.
Qed.

Lemma safe_ret {A} (a : A) : safe (mret a).
Proof. by exists a, []. Qed.

Lemma stateless_lift {A} (r : result A) : stateless (lift r).
Proof. by exists r, []. Qed.

Lemma stateless_call {A} ev (r : result A) : stateless (call ev r).
Proof. by exists r, [ev]. Qed.

Lemma safe_emit ev : safe (emit ev).
Proof. by exists (), [ev]. Qed.

Lemma stateless_py_index {A} (l : list A) i : stateless (py_index l i).
Proof. unfold py_index. destruct (l !! i); [by exists (Ok a), [] | by exists (Raise IndexError), []]. Qed.

Lemma py_index_Some {A} (l : list A) i v :
  l !! i = Some v → py_index l i = mret v.
Proof. intros H. unfold py_index. by rewrite H. Qed.

Lemma safe_try_except {A} (body : M A) (handler : exn → M A) :
  stateless body → (∀ e, safe (handler e)) → safe (try_except body handler).
Proof.
  intros ([a|e] & t & Hb) Hh.
  - exists a, t. intros fs. unfold try_except. by rewrite Hb.
  - destruct (Hh e) as (a & t' & Hhe). exists a, (t ++ t'). intros fs.
    unfold try_except. by rewrite Hb, Hhe.
Qed.

Lemma stateless_try_except_http {A} (body handler : M A) :
  stateless body → stateless handler → stateless (try_except_http body handler).
Proof.
  intros (r & t & Hb) (r' & t' & Hh). unfold try_except_http.
  destruct r as [a|e]; [exists (Ok a), t; intros fs; by rewrite Hb|].
  destruct (is_HttpError e) eqn:He.
  - exists r', (t ++ t'). intros fs. by rewrite Hb, He, Hh.
  - exists (Raise e), t. intros fs. by rewrite Hb, He.
Qed.

Create HintDb stateless.

Lemma prepend_Some {A} t0 (o : option (result A * Files * list Event)) r fs t :
  prepend t0 o = Some (r, fs, t) → ∃ t', o = Some (r, fs, t') ∧ t = t0 ++ t'.
Proof.
  destruct o as [[[r' fs'] t']|]; simpl; [|done]. intros [= -> -> <-]. eauto.
Qed.

#[global] Hint Resolve safe_stateless safe_ret stateless_lift stateless_call
  safe_emit stateless_py_index : stateless.

(** ** The face matcher *)

Section Matcher.

Context {Pil Img Enc : Type} (E : Env Pil Img Enc).

Lemma too_small_false box : too_small box = false ↔ survives box.
Proof.
  destruct box as [[[t r] b] l]. unfold too_small, survives; simpl.
  rewrite orb_false_iff, !Z.ltb_ge. done.
Qed.

Lemma too_small_true box : too_small box = true ↔ ¬ survives box.
Proof.
  rewrite <- too_small_false. destruct (too_small box); split; congruence.
Qed.

Lemma index_true_None matches :
  index_true matches = None ↔ Forall (λ b, b = false) matches.
Proof.
  induction matches as [|[] rest IH]; simpl.
  - split; [constructor | done].
  - split; [done | intros H; by inversion H].
  - destruct (index_true rest); simpl; split; try done.
    + intros H. inversion H; subst. by apply IH in H3.
    + intros _. constructor; [done | by apply IH].
Qed.

Lemma compare_faces_unmatched known e :
  unmatched E known e → index_true (compare_faces E known e tolerance) = None.
Proof.
  intros H. apply index_true_None. unfold compare_faces.
  induction H as [|k known Hk _ IH]; simpl; constructor; [|done].
  destruct (Qle_bool _ _) eqn:Hb; [|done].
  exfalso. apply Hk. by apply Qle_bool_iff.
Qed.


Lemma match_encodings_unmatched es known names fs :
  Forall (unmatched E known) es →
  match_encodings E es known names fs = Some (Ok false, fs, []).
Proof.
  induction 1 as [|e es He _ IH]; simpl; [done|].
  by rewrite (compare_faces_unmatched _ _ He).
Qed.


Lemma match_locations_fruitless rgb pre rest known names fs :
  Forall (fruitless E rgb known) pre →
  match_locations E rgb (pre ++ rest) known names fs
  = prepend (EvFaceEncodings <$> embedded pre)
      (match_locations E rgb rest known names fs).
Proof.
  intros H. induction H as [|box pre Hbox _ IH]; simpl.
  - by rewrite prepend_nil.
  - unfold embedded. rewrite filter_cons.
    destruct Hbox as [Hsmall | (es & Hes & Hno)].
    + apply too_small_true in Hsmall. rewrite Hsmall.
      rewrite decide_False by done. apply IH.
    + destruct (too_small box) eqn:Hs.
      * rewrite decide_False by done. apply IH.
      * rewrite decide_True by done.
        rewrite bind_call, Hes.
        rewrite (bind_ok _ _ _ _ _ _ (match_encodings_unmatched _ _ names fs Hno)).
        rewrite prepend_nil, IH, prepend_prepend. reflexivity.
Qed.

Lemma stateless_match_encodings es known names :
  stateless (match_encodings E es known names).
Proof.
  induction es as [|e es IH]; simpl; [auto with stateless|].
  destruct (index_true _); [|done].
  apply stateless_bind; [auto with stateless|]. intros name.
  apply stateless_bind; auto with stateless.
Qed.

Lemma stateless_match_locations rgb boxes known names :
  stateless (match_locations E rgb boxes known names).
Proof.
  induction boxes as [|box boxes IH]; simpl; [auto with stateless|].
  destruct (too_small box); [done|].
  apply stateless_bind; [auto with stateless|]. intros es.
  apply stateless_bind; [apply stateless_match_encodings|].
  intros []; auto with stateless.
Qed.

(** Under [no_face_matches] the scan of the boxes cannot return [true]. *)
Lemma match_locations_no_match rgb boxes known names :
  (∀ box es, box ∈ boxes → survives box →
     face_encodings E rgb box = Ok es → Forall (unmatched E known) es) →
  ∃ r t, r ≠ Ok true ∧
         ∀ fs, match_locations E rgb boxes known names fs = Some (r, fs, t).
Proof.
  induction boxes as [|box boxes IH]; intros H; simpl.
  { by exists (Ok false), []. }
  destruct IH as (r & t & Hr & IH).
  { intros b es Hb. apply H. by right. }
  destruct (too_small box) eqn:Hs; [by exists r, t|].
  apply too_small_false in Hs.
  destruct (face_encodings E rgb box) as [es|e] eqn:Hes.
  - exists r, ([EvFaceEncodings box] ++ t). split; [done|]. intros fs.
    rewrite bind_call.
    rewrite (bind_ok _ _ _ _ _ _ (match_encodings_unmatched es known names fs
               (H box es ltac:(by left) Hs Hes))).
    by rewrite IH.
  - exists (Raise e), [EvFaceEncodings box]. split; [done|]. intros fs.
    by rewrite bind_call.
Qed.

Lemma safe_detect_known_faces_in_image image known names :
  safe (detect_known_faces_in_image E image known names).
Proof.
  destruct image as [image|]; simpl; [|auto with stateless].
  apply safe_try_except; [|auto with stateless].
  apply stateless_bind; [auto with stateless|]. intros image_np.
  apply stateless_bind; [auto with stateless|]. intros rgb.
  apply stateless_bind; [auto with stateless|]. intros [|box boxes].
  - auto with stateless.
  - apply stateless_match_locations.
Qed.

(** C9: the face matcher returns false, without raising, when the image is
    absent, when no detected face box is at least 40 pixels wide and 40
    pixels high, and when no embedding of a surviving box is within
    tolerance of a gallery entry. *)
Theorem matcher_false_without_raising image known names fs :
  image = None ∨
  (∃ im, image = Some im ∧ no_large_face E im) ∨
  (∃ im, image = Some im ∧ no_face_matches E im known) →
  ∃ t, detect_known_faces_in_image E image known names fs
       = Some (Ok false, fs, t).
Proof.
  intros [-> | H]; [by eexists|].
  assert (∃ im, image = Some im ∧ no_face_matches E im known) as (im & -> & Hno).
  { destruct H as [(im & -> & Hsmall) | H]; [|done].
    exists im. split; [done|]. intros rgb boxes Hd box es Hin Hsurv _.
    specialize (Hsmall rgb boxes Hd). rewrite Forall_forall in Hsmall.
    by destruct (Hsmall box Hin). }
  simpl. unfold try_except. rewrite bind_lift.
  destruct (np_array E im) as [image_np|] eqn:Hnp; [|by eauto].
  rewrite bind_lift.
  destruct (cvt_rgb E image_np) as [rgb|] eqn:Hrgb; [|by eauto].
  rewrite bind_call.
  destruct (face_locations E rgb) as [[|box boxes]|] eqn:Hloc; [by eauto| |by eauto].
  destruct (match_locations_no_match rgb (box :: boxes) known names)
    as (r & t & Hr & ->).
  { intros b es. apply (Hno rgb (box :: boxes)). by exists image_np. }
  destruct r as [[]|]; by eauto.
Qed.


End Matcher.

(** ** The matcher on the concrete environment *)

Example demo_thumbnail_scan :
  detect_known_faces_in_image Demo.env (Some 10%nat) Demo.gallery Demo.names ∅
  = Some (Ok true, ∅,
          [EvFaceLocations; EvFaceEncodings (0, 200, 100, 100);
           EvFaceEncodings (0, 400, 100, 300); EvMatch "bob"]).
Proof. reflexivity. Qed.

Lemma demo_detects (image : nat) rgb boxes :
  detects Demo.env image rgb boxes →
  rgb = image ∧ face_locations Demo.env image = Ok boxes.
Proof. intros (np & Hnp & Hrgb & Hloc). simpl in Hnp, Hrgb. by simplify_eq. Qed.


Lemma matcher_false_without_raising_witness :
  ∃ t, detect_known_faces_in_image Demo.env (Some 12%nat) Demo.gallery
         Demo.names ∅ = Some (Ok false, ∅, t).
Proof.
  apply matcher_false_without_raising. right; left. exists 12%nat.
  split; [done|]. intros rgb boxes Hd.
  apply demo_detects in Hd as [-> Hloc]. simpl in Hloc. simplify_eq.
  constructor; [|constructor]. unfold survives; simpl; lia.
Defined.

(** ** The frame selector *)

Section Frames.

Context {Pil Img Enc : Type} (E : Env Pil Img Enc).

Lemma stateless_window_scan path positions best v p :
  stateless (window_scan E path positions best v p).
Proof.
  revert best v p. induction positions as [|pos rest IH]; intros best v p; simpl.
  - auto with stateless.
  - apply stateless_bind; [auto with stateless|]. intros [frame|]; [|apply IH].
    apply stateless_bind; [auto with stateless|]. intros v'.
    destruct (Qlt_bool v v'); apply IH.
Qed.

Lemma stateless_gate_best_frame fps target best pos frames ts :
  stateless (gate_best_frame E fps target best pos frames ts).
Proof.
  destruct best as [best|]; simpl; [|auto with stateless].
  apply stateless_bind; [auto with stateless|]. intros [].
  - apply stateless_bind; auto with stateless.
  - apply stateless_bind; [auto with stateless|]. intros [].
    + apply stateless_bind; auto with stateless.
    + apply stateless_bind; auto with stateless.
Qed.

(** With a step of at least one frame the loop needs at most one round per
    remaining frame. *)
Lemma stateless_frames_loop path fps step la total :
  1 ≤ step →
  ∀ fuel c frames ts,
    total - c ≤ Z.of_nat fuel →
    stateless (frames_loop E fuel path fps step la total c frames ts).
Proof.
  intros Hstep. induction fuel as [|fuel IH]; intros c frames ts Hfuel; simpl.
  - destruct (c <? total) eqn:Hc; [apply Z.ltb_lt in Hc; lia|].
    auto with stateless.
  - destruct (c <? total) eqn:Hc; [|auto with stateless].
    apply stateless_bind; [auto with stateless|].
    intros [target|]; [|auto with stateless].
    apply stateless_bind; [apply stateless_window_scan|].
    intros [[best v] pos].
    apply stateless_bind; [apply stateless_gate_best_frame|].
    intros [frames' ts']. apply IH. lia.
Qed.

Lemma safe_extract_frames fuel path interval look_around :
  1 ≤ frame_interval (cap_fps E path) interval →
  py_int (cap_frame_count E path) ≤ Z.of_nat fuel →
  safe (extract_frames E fuel path interval look_around).
Proof.
  intros Hstep Hfuel. apply safe_try_except; [|auto with stateless].
  apply stateless_frames_loop; [done|lia].
Qed.

(** The gate only ever appends a frame that passed it. *)
Lemma gate_best_frame_gated fps target best pos frames ts fs frames' ts' fs' t :
  Forall (passes_gates E) frames →
  gate_best_frame E fps target best pos frames ts fs
  = Some (Ok (frames', ts'), fs', t) →
  Forall (passes_gates E) frames'.
Proof.
  intros Hall. destruct best as [best|]; simpl; [|by intros [= <- <- <- <-]].
  rewrite bind_lift.
  destruct (is_frame_blurry E best 150) as [[]|] eqn:Hb; [| |done].
  - rewrite bind_lift. destruct (py_truediv _ _); [|done].
    by intros [= <- <- <- <-].
  - rewrite bind_lift.
    destruct (has_low_contrast E best 30) as [[]|] eqn:Hc; [| |done].
    + rewrite bind_lift. destruct (py_truediv _ _); [|done].
      by intros [= <- <- <- <-].
    + rewrite bind_lift. destruct (py_truediv _ _); [|done].
      intros [= <- <- <- <-]. apply Forall_app. split; [done|].
      by repeat constructor.
Qed.

Lemma frames_loop_gated path fps step la total fuel :
  ∀ c frames ts fs frames' ts' fs' t,
    Forall (passes_gates E) frames →
    frames_loop E fuel path fps step la total c frames ts fs
    = Some (Ok (frames', ts'), fs', t) →
    Forall (passes_gates E) frames'.
Proof.
  induction fuel as [|fuel IH]; intros c frames ts fs frames' ts' fs' t Hall;
    simpl; destruct (c <? total); try done; try by intros [= <- <- <- <-].
  rewrite bind_call.
  destruct (cap_read E path c) as [[target|]|]; [| |done].
  2: { simpl. by intros [= <- <- <- <-]. }
  intros (t1 & H & _)%prepend_Some. revert H.
  destruct (stateless_window_scan path (window_positions la total c)
              None (-1)%Q c) as ([[[best v] pos]|e] & tw & Hw).
  2: { by rewrite (bind_raise _ _ _ _ _ _ (Hw fs)). }
  rewrite (bind_ok _ _ _ _ _ _ (Hw fs)).
  intros (t2 & H & _)%prepend_Some. revert H.
  destruct (gate_best_frame E fps c best pos frames ts fs)
    as [[[[[frames1 ts1]|e] fs1] tg]|] eqn:Hg.
  - rewrite (bind_ok _ _ _ _ _ _ Hg).
    intros (t3 & H & _)%prepend_Some. revert H. apply IH.
    by eapply gate_best_frame_gated.
  - by rewrite (bind_raise _ _ _ _ _ _ Hg).
  - unfold mbind, M_bind. by rewrite Hg.
Qed.

(** Passing both gates is having a sharpness of at least 150 and a contrast
    of at least 30. *)
Lemma passes_gates_iff frame :
  passes_gates E frame ↔
  ∃ v c, laplacian_var E frame = Ok v ∧ gray_std E frame = Ok c ∧
         (150 <= v)%Q ∧ (30 <= c)%Q.
Proof.
  unfold passes_gates, is_frame_blurry, has_low_contrast.
  destruct (laplacian_var E frame) as [v|], (gray_std E frame) as [c|]; split.
  - intros [[= Hv%Qlt_bool_false] [= Hc%Qlt_bool_false]]. by exists v, c.
  - intros (v' & c' & [= <-] & [= <-] & Hv%Qlt_bool_false & Hc%Qlt_bool_false).
    by rewrite Hv, Hc.
  - by intros [_ [=]].
  - by intros (? & ? & _ & [=] & _).
  - by intros [[=] _].
  - by intros (? & ? & [=] & _).
  - by intros [[=] _].
  - by intros (? & ? & [=] & _).
Qed.

Lemma elem_of_py_range a b x : x ∈ py_range a b ↔ a ≤ x < b.
Proof.
  unfold py_range. rewrite list_elem_of_fmap. split.
  - intros (i & -> & Hi%elem_of_seq). lia.
  - intros H. exists (Z.to_nat (x - a)). split; [lia|].
    apply elem_of_seq. lia.
Qed.

Lemma NoDup_py_range a b : NoDup (py_range a b).
Proof.
  unfold py_range. apply NoDup_fmap_2; [|apply NoDup_seq].
  intros i j. lia.
Qed.

Lemma elem_of_window_positions reach total p x :
  x ∈ window_positions reach total p ↔ p - reach ≤ x ≤ p + reach ∧ 0 ≤ x < total.
Proof. unfold window_positions. rewrite elem_of_py_range. lia. Qed.

Lemma frame_interval_zero_fps fps interval :
  Qeq_bool fps 0 = true → frame_interval fps interval = 0.
Proof.
  intros H%Qeq_bool_iff. unfold frame_interval, py_int_mul, round_double.
  destruct fps as [n d], interval as [n' d']. unfold Qeq in H. simpl in *.
  assert (n = 0) as -> by lia. reflexivity.
Qed.

(** ** What the selector emits *)

(** What the window scan hands to the gate. *)
Lemma window_scan_position path positions :
  ∀ best bv bp fs best' v' p' fs' t,
    window_scan E path positions best bv bp fs
    = Some (Ok (best', v', p'), fs', t) →
    (best' = best ∧ p' = bp) ∨
    (∃ frame, best' = Some frame ∧ p' ∈ positions ∧
              cap_read E path p' = Ok (Some frame)).
Proof.
  induction positions as [|pos rest IH]; intros best bv bp fs best' v' p' fs' t;
    simpl.
  { intros [= <- <- <- <- <-]. by left. }
  rewrite bind_call.
  destruct (cap_read E path pos) as [[frame|]|] eqn:Hread; [| |done].
  - rewrite bind_lift. destruct (laplacian_var E frame) as [v|]; [|done].
    intros (t1 & H & ->)%prepend_Some.
    destruct (Qlt_bool bv v).
    + apply IH in H as [[-> ->] | (f & -> & Hp & Hf)].
      * right. exists frame. split; [done|]. split; [by left|done].
      * right. exists f. split; [done|]. split; [by right|done].
    + apply IH in H as [[-> ->] | (f & -> & Hp & Hf)]; [by left|].
      right. exists f. split; [done|]. split; [by right|done].
  - intros (t1 & H & ->)%prepend_Some.
    apply IH in H as [[-> ->] | (f & -> & Hp & Hf)]; [by left|].
    right. exists f. split; [done|]. split; [by right|done].
Qed.

(** One round of the loop that goes on to a result: it broke at a target
    frame that could not be read, or it scanned the window, passed the gate
    and went on from the next stop. *)
Lemma frames_loop_round fuel path fps step la total c frames ts fs frames' ts' fs' t :
  c < total →
  frames_loop E (S fuel) path fps step la total c frames ts fs
  = Some (Ok (frames', ts'), fs', t) →
  (frames' = frames ∧ ts' = ts) ∨
  ∃ best v pos fs1 t1 frames1 ts1 fs2 t2 t3,
    window_scan E path (window_positions la total c) None (-1)%Q c fs
    = Some (Ok (best, v, pos), fs1, t1) ∧
    gate_best_frame E fps c best pos frames ts fs1
    = Some (Ok (frames1, ts1), fs2, t2) ∧
    frames_loop E fuel path fps step la total (c + step) frames1 ts1 fs2
    = Some (Ok (frames', ts'), fs', t3).
Proof.
  intros Hc%Z.ltb_lt. simpl. rewrite Hc, bind_call.
  destruct (cap_read E path c) as [[target|]|]; [| |done].
  2: { simpl. intros [= <- <- <- <-]. by left. }
  intros (t0 & H & ->)%prepend_Some.
  apply bind_Ok_inv in H as ([[best v] pos] & fs1 & t1 & t2 & Hscan & H & ->).
  apply bind_Ok_inv in H as ([frames1 ts1] & fs2 & t3 & t4 & Hgate & H & ->).
  right. by exists best, v, pos, fs1, t1, frames1, ts1, fs2, t3, t4.
Qed.

(** What the gate returns: the lists as they were, or with the best frame
    and the time of its position appended. *)
Lemma gate_best_frame_result fps target best pos frames ts fs frames1 ts1 fs1 t :
  gate_best_frame E fps target best pos frames ts fs
  = Some (Ok (frames1, ts1), fs1, t) →
  (frames1 = frames ∧ ts1 = ts) ∨
  ∃ frame, best = Some frame ∧ Qeq_bool fps 0 = false ∧
           frames1 = frames ++ [frame] ∧
           ts1 = ts ++ [(inject_Z pos / fps)%Q].
Proof.
  destruct best as [frame|]; simpl; [|intros [= <- <- <- <-]; by left].
  rewrite bind_lift.
  destruct (is_frame_blurry E frame 150) as [[]|]; [| |done].
  { rewrite bind_lift. destruct (py_truediv _ _); [|done].
    intros [= <- <- <- <-]. by left. }
  rewrite bind_lift.
  destruct (has_low_contrast E frame 30) as [[]|]; [| |done].
  { rewrite bind_lift. destruct (py_truediv _ _); [|done].
    intros [= <- <- <- <-]. by left. }
  rewrite bind_lift. unfold py_truediv.
  destruct (Qeq_bool fps 0) eqn:Hfps; [done|].
  intros [= <- <- <- <-]. right. by exists frame.
Qed.

(** A gate that returns has appended the best frame exactly when that frame
    passes both tests. *)
Lemma gate_best_frame_selects fps target best pos frames ts fs frames1 ts1 fs1 t :
  gate_best_frame E fps target best pos frames ts fs
  = Some (Ok (frames1, ts1), fs1, t) →
  frames1
  = frames ++ match best with
              | Some frame => if gates_pass E frame then [frame] else []
              | None => []
              end.
Proof.
  unfold gates_pass.
  destruct best as [frame|]; simpl;
    [|intros [= <- <- <- <-]; by rewrite app_nil_r].
  rewrite bind_lift.
  destruct (is_frame_blurry E frame 150) as [[]|]; [| |done].
  { rewrite bind_lift. destruct (py_truediv _ _); [|done].
    intros [= <- <- <- <-]. by rewrite app_nil_r. }
  rewrite bind_lift.
  destruct (has_low_contrast E frame 30) as [[]|]; [| |done].
  { rewrite bind_lift. destruct (py_truediv _ _); [|done].
    intros [= <- <- <- <-]. by rewrite app_nil_r. }
  rewrite bind_lift. destruct (py_truediv _ _); [|done].
  by intros [= <- <- <- <-].
Qed.

Lemma window_scan_window_best path reach total p fs best v pos fs' t :
  window_scan E path (window_positions reach total p) None (-1)%Q p fs
  = Some (Ok (best, v, pos), fs', t) →
  window_best E path reach total p = best.
Proof.
  intros Hscan. unfold window_best.
  destruct (stateless_window_scan path (window_positions reach total p)
              None (-1)%Q p) as (r & t0 & Hany).
  rewrite Hany in Hscan. injection Hscan as -> _ _. by rewrite Hany.
Qed.

(** The frames the loop returns: for each stop it went through, in order,
    what that stop selects. *)
Lemma frames_loop_selected path fps step la total fuel :
  ∀ c frames ts fs frames' ts' fs' t,
    frames_loop E fuel path fps step la total c frames ts fs
    = Some (Ok (frames', ts'), fs', t) →
    ∃ n, frames'
         = frames ++ omap (selected E path la total)
                       ((λ k, c + Z.of_nat k * step) <$> seq 0 n).
Proof.
  induction fuel as [|fuel IH]; intros c frames ts fs frames' ts' fs' t.
  { simpl. destruct (c <? total); [done|]. intros [= <- <- <- <-].
    exists 0%nat. by rewrite app_nil_r. }
  destruct (Z.ltb_spec c total) as [Hc|Hc].
  2: { simpl. apply Z.ltb_ge in Hc. rewrite Hc. intros [= <- <- <- <-].
       exists 0%nat. by rewrite app_nil_r. }
  intros H.
  apply frames_loop_round in H
    as [[-> ->] | (best & v & pos & fs1 & t1 & frames1 & ts1 & fs2 & t2 & t3
                   & Hscan & Hgate & Hrest)]; [| |done].
  { exists 0%nat. by rewrite app_nil_r. }
  apply IH in Hrest as [n ->].
  apply gate_best_frame_selects in Hgate as ->.
  apply window_scan_window_best in Hscan.
  exists (S n). rewrite <- app_assoc. f_equal.
  change (seq 0 (S n)) with (0%nat :: seq 1 n).
  rewrite fmap_cons. cbn [omap list_omap]. rewrite Z.mul_0_l, Z.add_0_r.
  unfold selected at 2. rewrite Hscan.
  assert (omap (selected E path la total)
            ((λ k, c + step + Z.of_nat k * step) <$> seq 0 n)
          = omap (selected E path la total)
              ((λ k, c + Z.of_nat k * step) <$> seq 1 n)) as ->.
  { f_equal. rewrite <- fmap_S_seq, <- list_fmap_compose.
    apply list_fmap_ext. intros _ k _. simpl. lia. }
  destruct best as [frame|]; simpl; [|done].
  by destruct (gates_pass E frame).
Qed.

(** C6: every frame that the selector emits passed both gates -- a
    sharpness of at least 150 and a contrast of at least 30 -- and the frames
    it emits are, stop by stop and in order, the best frame of each window
    that it went through, wherever that frame passes both gates: a window
    whose best frame fails a gate adds nothing, no other frame of the window
    takes its place. *)
Theorem emitted_frames_pass_gates fuel path interval look_around fs frames ts
    fs' t :
  extract_frames E fuel path interval look_around fs
  = Some (Ok (frames, ts), fs', t) →
  Forall (passes_gates E) frames ∧
  (∀ frame,
     passes_gates E frame ↔
     ∃ v c, laplacian_var E frame = Ok v ∧ gray_std E frame = Ok c ∧
            (150 <= v)%Q ∧ (30 <= c)%Q) ∧
  ∃ n, frames
       = omap (selected E path
                 (look_around_frames (cap_fps E path) look_around)
                 (py_int (cap_frame_count E path)))
           (first_stops (frame_interval (cap_fps E path) interval) n).
Proof.
  unfold extract_frames, try_except.
  destruct (frames_loop E fuel path _ _ _ _ 0 [] [] fs)
    as [[[[[frames1 ts1]|e] fs1] t1]|] eqn:Hloop; [| |done].
  - intros [= <- <- <- <-]. split; [|split; [apply passes_gates_iff|]].
    + eapply frames_loop_gated; [|exact Hloop]. constructor.
    + apply frames_loop_selected in Hloop as [n ->]. by exists n.
  - simpl. intros [= <- <- <- <-]. split; [constructor|].
    split; [apply passes_gates_iff|]. by exists 0%nat.
Qed.

(** ** Where the selector reads *)

Lemma stops_from_done step total c :
  1 ≤ step → total ≤ c → stops_from step total c = [].
Proof.
  intros Hstep Hc. unfold stops_from.
  assert ((total - c + step - 1) / step < 1)
    by (apply Z.div_lt_upper_bound; lia).
  by replace (Z.to_nat ((total - c + step - 1) / step)) with 0%nat by lia.
Qed.

Lemma stops_from_step step total c :
  1 ≤ step → c < total →
  stops_from step total c = c :: stops_from step total (c + step).
Proof.
  intros Hstep Hc. unfold stops_from.
  replace (total - c + step - 1) with ((total - (c + step) + step - 1) + 1 * step)
    by lia.
  rewrite Z.div_add by lia.
  assert (0 ≤ (total - (c + step) + step - 1) / step)
    by (apply Z.div_pos; lia).
  rewrite Z2Nat.inj_add by lia. rewrite Nat.add_comm. simpl.
  rewrite Z.add_0_r. f_equal.
  rewrite <- fmap_S_seq, <- list_fmap_compose.
  apply list_fmap_ext. intros _ k _. simpl. lia.
Qed.

Lemma stops_from_0 step total : stops_from step total 0 = sample_positions step total.
Proof.
  unfold stops_from, sample_positions. rewrite Z.sub_0_r.
  apply list_fmap_ext. intros _ k _. lia.
Qed.

(** A window in which every read returns and every frame read can be
    scored is scanned to its end. *)
Lemma window_scan_unbroken path positions :
  (∀ x, x ∈ positions →
     cap_read E path x = Ok None ∨
     ∃ frame v c, cap_read E path x = Ok (Some frame) ∧
                  laplacian_var E frame = Ok v ∧ gray_std E frame = Ok c) →
  ∀ best bv bp,
    scorable E best →
    ∃ best' v' p',
      scorable E best' ∧
      ∀ fs, window_scan E path positions best bv bp fs
            = Some (Ok (best', v', p'), fs, EvCapRead path <$> positions).
Proof.
  induction positions as [|pos rest IH]; intros Hread best bv bp Hbest; simpl.
  { by exists best, bv, bp. }
  assert (∀ x, x ∈ rest →
            cap_read E path x = Ok None ∨
            ∃ frame v c, cap_read E path x = Ok (Some frame) ∧
                         laplacian_var E frame = Ok v ∧ gray_std E frame = Ok c)
    as Hrest by (intros; apply Hread; by right).
  destruct (Hread pos ltac:(by left)) as [Hnone | (frame & v & c & Hframe & Hv & Hc)].
  - destruct (IH Hrest best bv bp Hbest) as (b & w & p & Hb & Hrun).
    exists b, w, p. split; [done|]. intros fs.
    by rewrite bind_call, Hnone, Hrun.
  - destruct (Qlt_bool bv v) eqn:Hlt.
    + destruct (IH Hrest (Some frame) v pos) as (b & w & p & Hb & Hrun).
      { intros f [= <-]. eauto. }
      exists b, w, p. split; [done|]. intros fs.
      by rewrite bind_call, Hframe, bind_lift, Hv, Hlt, Hrun.
    + destruct (IH Hrest best bv bp Hbest) as (b & w & p & Hb & Hrun).
      exists b, w, p. split; [done|]. intros fs.
      by rewrite bind_call, Hframe, bind_lift, Hv, Hlt, Hrun.
Qed.

Lemma gate_best_frame_scorable fps target best pos frames ts :
  scorable E best → Qeq_bool fps 0 = false →
  ∃ frames' ts', ∀ fs,
    gate_best_frame E fps target best pos frames ts fs
    = Some (Ok (frames', ts'), fs, []).
Proof.
  intros Hbest Hfps.
  destruct best as [best|]; simpl; [|by exists frames, ts].
  unfold is_frame_blurry, has_low_contrast, py_truediv. rewrite Hfps.
  destruct (Hbest best eq_refl) as [(v & ->) (c & ->)].
  destruct (Qlt_bool v 150).
  { exists frames, ts. intros fs. by rewrite !bind_lift. }
  destruct (Qlt_bool c 30).
  { exists frames, ts. intros fs. by rewrite !bind_lift. }
  eexists _, _. intros fs. by rewrite !bind_lift.
Qed.

(** The reads of the loop from position [c] on, when nothing interrupts
    it. *)
Lemma frames_loop_unbroken path fps step la total :
  1 ≤ step → Qeq_bool fps 0 = false →
  ∀ fuel c frames ts,
    total - c ≤ Z.of_nat fuel →
    (∀ p, p ∈ stops_from step total c →
       (∃ target, cap_read E path p = Ok (Some target)) ∧
       ∀ x, x ∈ window_positions la total p →
         cap_read E path x = Ok None ∨
         ∃ frame v c, cap_read E path x = Ok (Some frame) ∧
                      laplacian_var E frame = Ok v ∧ gray_std E frame = Ok c) →
    ∃ frames' ts', ∀ fs,
      frames_loop E fuel path fps step la total c frames ts fs
      = Some (Ok (frames', ts'), fs,
              stops_from step total c ≫= sample_reads path la total).
Proof.
  intros Hstep Hfps.
  induction fuel as [|fuel IH]; intros c frames ts Hfuel Hstops; simpl.
  { destruct (c <? total) eqn:Hlt; [apply Z.ltb_lt in Hlt; lia|].
    apply Z.ltb_ge in Hlt. rewrite (stops_from_done _ _ _ Hstep Hlt).
    by exists frames, ts. }
  destruct (c <? total) eqn:Hlt.
  2: { apply Z.ltb_ge in Hlt. rewrite (stops_from_done _ _ _ Hstep Hlt).
       by exists frames, ts. }
  apply Z.ltb_lt in Hlt.
  rewrite (stops_from_step _ _ _ Hstep Hlt) in Hstops |- *.
  destruct (Hstops c ltac:(by left)) as [(target & Htarget) Hwindow].
  destruct (window_scan_unbroken path (window_positions la total c) Hwindow
              None (-1)%Q c) as (best & v & pos & Hbest & Hscan); [done|].
  destruct (gate_best_frame_scorable fps c best pos frames ts Hbest Hfps)
    as (frames1 & ts1 & Hgate).
  destruct (IH (c + step) frames1 ts1 ltac:(lia)) as (frames2 & ts2 & Hrest).
  { intros p Hp. apply Hstops. by right. }
  exists frames2, ts2. intros fs.
  rewrite bind_call, Htarget.
  rewrite (bind_ok _ _ _ _ _ _ (Hscan fs)). cbv beta iota.
  rewrite (bind_ok _ _ _ _ _ _ (Hgate fs)). cbv beta iota.
  rewrite Hrest. reflexivity.
Qed.

(** On any source the window scan reads the positions of the window in
    order, until a call raises. *)
Lemma window_scan_prefix path positions best v p :
  ∃ r t,
    (∀ fs, window_scan E path positions best v p fs = Some (r, fs, t)) ∧
    t `prefix_of` (EvCapRead path <$> positions) ∧
    (∀ x, r = Ok x → t = EvCapRead path <$> positions).
Proof.
  revert best v p. induction positions as [|pos rest IH]; intros best v p; simpl.
  { exists (Ok (best, v, p)), []. by repeat split. }
  destruct (cap_read E path pos) as [[frame|]|e] eqn:Hread.
  - destruct (laplacian_var E frame) as [v1|e] eqn:Hv.
    + destruct (IH (if Qlt_bool v v1 then Some frame else best)
                   (if Qlt_bool v v1 then v1 else v)
                   (if Qlt_bool v v1 then pos else p))
        as (r & t & Hscan & Hpre & Hfull).
      exists r, (EvCapRead path pos :: t). split; [|split].
      * intros fs. rewrite bind_call, ?Hread, bind_lift, ?Hv.
        destruct (Qlt_bool v v1); by rewrite Hscan.
      * by apply prefix_cons.
      * intros x Hx. by rewrite (Hfull x Hx).
    + exists (Raise e), [EvCapRead path pos]. split; [|split].
      * intros fs. by rewrite bind_call, ?Hread, bind_lift, ?Hv.
      * apply prefix_cons, prefix_nil.
      * done.
  - destruct (IH best v p) as (r & t & Hscan & Hpre & Hfull).
    exists r, (EvCapRead path pos :: t). split; [|split].
    + intros fs. by rewrite bind_call, ?Hread, Hscan.
    + by apply prefix_cons.
    + intros x Hx. by rewrite (Hfull x Hx).
  - exists (Raise e), [EvCapRead path pos]. split; [|split].
    + intros fs. by rewrite bind_call, ?Hread.
    + apply prefix_cons, prefix_nil.
    + done.
Qed.

(** The gate performs no external call. *)
Lemma gate_best_frame_silent fps target best pos frames ts :
  ∃ r, ∀ fs, gate_best_frame E fps target best pos frames ts fs = Some (r, fs, []).
Proof.
  destruct best as [best|]; simpl; [|by eexists].
  destruct (is_frame_blurry E best 150) as [[]|e].
  - destruct (py_truediv (inject_Z target) fps) as [q|e];
      eexists; intros fs; by rewrite !bind_lift.
  - destruct (has_low_contrast E best 30) as [[]|e].
    + destruct (py_truediv (inject_Z target) fps) as [q|e];
        eexists; intros fs; by rewrite !bind_lift.
    + destruct (py_truediv (inject_Z pos) fps) as [q|e];
        eexists; intros fs; by rewrite !bind_lift.
    + eexists; intros fs; by rewrite !bind_lift.
  - eexists; intros fs; by rewrite !bind_lift.
Qed.

(** On any source with a step of at least one frame the reads of the loop
    are an initial part of the reads of its stops. *)
Lemma frames_loop_prefix path fps step la total :
  1 ≤ step →
  ∀ fuel c frames ts,
    total - c ≤ Z.of_nat fuel →
    ∃ r t,
      (∀ fs, frames_loop E fuel path fps step la total c frames ts fs
             = Some (r, fs, t)) ∧
      t `prefix_of` (stops_from step total c ≫= sample_reads path la total).
Proof.
  intros Hstep. induction fuel as [|fuel IH]; intros c frames ts Hfuel; simpl.
  { destruct (c <? total) eqn:Hlt; [apply Z.ltb_lt in Hlt; lia|].
    eexists _, []. split; [done|]. apply prefix_nil. }
  destruct (c <? total) eqn:Hlt.
  2: { eexists _, []. split; [done|]. apply prefix_nil. }
  apply Z.ltb_lt in Hlt. rewrite (stops_from_step _ _ _ Hstep Hlt).
  change ((c :: ?l) ≫= ?f) with (f c ++ (l ≫= f)). unfold sample_reads at 1.
  destruct (cap_read E path c) as [[target|]|e] eqn:Hread.
  2: { exists (Ok (frames, ts)), [EvCapRead path c]. split.
       - intros fs. by rewrite bind_call, ?Hread.
       - apply prefix_cons, prefix_nil. }
  2: { exists (Raise e), [EvCapRead path c]. split.
       - intros fs. by rewrite bind_call, ?Hread.
       - apply prefix_cons, prefix_nil. }
  destruct (window_scan_prefix path (window_positions la total c) None (-1)%Q c)
    as ([[[best v] pos]|e] & tw & Hscan & Hpre & Hfull).
  2: { exists (Raise e), (EvCapRead path c :: tw). split.
       - intros fs. rewrite bind_call, ?Hread.
         by rewrite (bind_raise _ _ _ _ _ _ (Hscan fs)).
       - apply prefix_cons. by apply prefix_app_r. }
  rewrite (Hfull _ eq_refl) in Hscan. clear tw Hpre Hfull.
  destruct (gate_best_frame_silent fps c best pos frames ts)
    as ([[frames1 ts1]|e] & Hgate).
  2: { exists (Raise e),
         (EvCapRead path c :: (EvCapRead path <$> window_positions la total c)).
       split.
       - intros fs. rewrite bind_call, ?Hread.
         rewrite (bind_ok _ _ _ _ _ _ (Hscan fs)). cbv beta iota.
         rewrite (bind_raise _ _ _ _ _ _ (Hgate fs)). simpl.
         by rewrite app_nil_r.
       - apply prefix_cons. by apply prefix_app_r. }
  destruct (IH (c + step) frames1 ts1 ltac:(lia)) as (r & t & Hrest & Hpre).
  exists r, (EvCapRead path c
             :: (EvCapRead path <$> window_positions la total c) ++ t).
  split.
  - intros fs. rewrite bind_call, ?Hread.
    rewrite (bind_ok _ _ _ _ _ _ (Hscan fs)). cbv beta iota.
    rewrite (bind_ok _ _ _ _ _ _ (Hgate fs)). cbv beta iota.
    by rewrite Hrest.
  - apply prefix_cons. by apply prefix_app.
Qed.

(** C3 (amended): with a step of at least one frame, the selector stops at
    0, step, 2 step, ... below the frame count, where the step is
    [int(fps * interval)] -- the double product truncated, not rounded to the
    nearest integer -- and at each stop [p] it reads the target frame and
    then each frame of [p - reach, p + reach] within [0, total_frames), once
    and in order, where the reach is [int(fps * look_around)].  On any
    source the reads are an initial part of that sequence, since a target
    frame that cannot be read, or a call that raises, ends the scan; on a
    source whose target frames can all be read, and whose window frames can
    all be read (or are reported missing) and scored for sharpness and
    contrast, the reads are the whole of it. *)
Theorem frame_reads_follow_truncated_step path interval look_around :
  let fps := cap_fps E path in
  let step := frame_interval fps interval in
  let reach := look_around_frames fps look_around in
  let total := py_int (cap_frame_count E path) in
  1 ≤ step →
  (step = py_int (round_double (fps * interval)) ∧
   reach = py_int (round_double (fps * look_around))) ∧
  (∃ fuel frames ts t,
     (∀ fs, extract_frames E fuel path interval look_around fs
            = Some (Ok (frames, ts), fs, t)) ∧
     t `prefix_of` (sample_positions step total ≫= sample_reads path reach total) ∧
     (unbroken E path step reach total →
      t = sample_positions step total ≫= sample_reads path reach total)) ∧
  (∀ p, NoDup (window_positions reach total p) ∧
        ∀ x, x ∈ window_positions reach total p
             ↔ p - reach ≤ x ≤ p + reach ∧ 0 ≤ x < total).
Proof.
  intros fps step reach total Hstep. split; [done|]. split.
  2: { intros p. split; [apply NoDup_py_range|].
       intros x. apply elem_of_window_positions. }
  assert (Qeq_bool fps 0 = false) as Hfps.
  { destruct (Qeq_bool fps 0) eqn:H; [|done].
    apply (frame_interval_zero_fps _ interval) in H. fold step in H. lia. }
  destruct (frames_loop_prefix path fps step reach total Hstep
              (Z.to_nat total) 0 [] [] ltac:(lia)) as (r & t & Hloop & Hpre).
  rewrite stops_from_0 in Hpre.
  assert (∀ fs, extract_frames E (Z.to_nat total) path interval look_around fs
                = Some (Ok match r with Ok x => x | Raise _ => ([], []) end,
                        fs, t)) as Hrun.
  { intros fs. unfold extract_frames, try_except.
    change (frames_loop E _ path _ _ _ _ 0 [] [] fs)
      with (frames_loop E (Z.to_nat total) path fps step reach total 0 [] [] fs).
    rewrite Hloop. destruct r as [[frames ts]|e]; [done|].
    simpl. by rewrite app_nil_r. }
  exists (Z.to_nat total).
  destruct (match r with Ok x => x | Raise _ => ([], []) end) as [frames ts].
  exists frames, ts, t. split; [exact Hrun|]. split; [exact Hpre|].
  intros Hwhole.
  destruct (frames_loop_unbroken path fps step reach total Hstep Hfps
              (Z.to_nat total) 0 [] [] ltac:(lia)) as (frames' & ts' & Hfull).
  { rewrite stops_from_0. exact Hwhole. }
  specialize (Hloop ∅). rewrite Hfull, stops_from_0 in Hloop.
  by injection Hloop as _ <-.
Qed.

(** ** When the selector ends *)

Lemma stateless_steady {A} (m : M A) : stateless m → steady m.
Proof.
  intros (r & t & Hm) fs r' fs' t'. rewrite Hm. by intros [= <- <- <-].
Qed.

Lemma steady_bind {A B} (m : M A) (f : A → M B) :
  steady m → (∀ a, steady (f a)) → steady (m ≫= f).
Proof.
  intros Hm Hf fs r fs' t Hrun fs0.
  unfold mbind, M_bind in Hrun |- *.
  destruct (m fs) as [[[[a|e] fs1] t1]|] eqn:Hmfs; [| |done].
  - pose proof (Hm _ _ _ _ Hmfs fs) as Hfs. rewrite Hmfs in Hfs.
    injection Hfs as ->. rewrite (Hm _ _ _ _ Hmfs fs0).
    destruct (f a fs) as [[[r2 fs2] t2]|] eqn:Hfa; [|done].
    injection Hrun as <- <- <-. by rewrite (Hf a _ _ _ _ Hfa fs0).
  - injection Hrun as <- <- <-. by rewrite (Hm _ _ _ _ Hmfs fs0).
Qed.

Lemma steady_frames_loop path fps step la total fuel :
  ∀ c frames ts, steady (frames_loop E fuel path fps step la total c frames ts).
Proof.
  induction fuel as [|fuel IH]; intros c frames ts; simpl.
  { destruct (c <? total); [done|]. apply stateless_steady. auto with stateless. }
  destruct (c <? total); [|apply stateless_steady; auto with stateless].
  apply steady_bind; [apply stateless_steady; auto with stateless|].
  intros [target|]; [|apply stateless_steady; auto with stateless].
  apply steady_bind; [apply stateless_steady, stateless_window_scan|].
  intros [[best v] pos].
  apply steady_bind; [apply stateless_steady, stateless_gate_best_frame|].
  intros [frames' ts']. apply IH.
Qed.

(** A scan that ends returns, on every file system, the same lists after
    the same reads. *)
Lemma scan_halts_safe fuel path :
  scan_halts E fuel path → safe (extract_frames E fuel path (5 # 2) (1 # 4)).
Proof.
  unfold scan_halts, extract_frames. intros Hhalts.
  apply safe_try_except; [|auto with stateless].
  unfold try_except in Hhalts.
  destruct (frames_loop E fuel path _ _ _ _ 0 [] [] ∅)
    as [[[r fs'] t]|] eqn:Hloop; [|done].
  exists r, t. intros fs. by apply (steady_frames_loop _ _ _ _ _ _ _ _ _ _ _ _ _ Hloop).
Qed.

Lemma scan_bounded_halts fuel path : scan_bounded E fuel path → scan_halts E fuel path.
Proof.
  intros [Hstep Hfuel]. unfold scan_halts.
  destruct (safe_extract_frames fuel path (5 # 2) (1 # 4) Hstep Hfuel)
    as (a & t & H).
  by rewrite H.
Qed.

(** Whether the gate returns does not depend on the lists it is given. *)
Lemma gate_best_frame_returns fps target best pos out :
  gate_best_frame E fps target best pos [] [] ∅ = Some (Ok out, ∅, []) →
  ∀ frames ts, ∃ out', ∀ fs,
    gate_best_frame E fps target best pos frames ts fs = Some (Ok out', fs, []).
Proof.
  intros Hgate frames ts. unfold gate_best_frame, py_truediv in *.
  destruct best as [best|]; [|by eexists].
  destruct (is_frame_blurry E best 150) as [[]|];
    destruct (has_low_contrast E best 30) as [[]|];
    destruct (Qeq_bool fps 0);
    repeat (rewrite bind_lift in Hgate; cbv beta iota in Hgate);
    try done;
    eexists; intros fs; repeat (rewrite bind_lift; cbv beta iota); reflexivity.
Qed.

(** With a step of zero a first round that completes is repeated for ever. *)
Lemma frames_loop_stuck path look_around :
  first_round_completes E path look_around →
  ∀ fuel frames ts fs,
    frames_loop E fuel path (cap_fps E path) 0
      (look_around_frames (cap_fps E path) look_around)
      (py_int (cap_frame_count E path)) 0 frames ts fs = None.
Proof.
  intros (Htotal & (target & Htarget) & best & v & pos & tw & out & Hscan & Hgate).
  induction fuel as [|fuel IH]; intros frames ts fs; simpl.
  { by rewrite (proj2 (Z.ltb_lt 0 _)) by lia. }
  rewrite (proj2 (Z.ltb_lt 0 _)) by lia.
  rewrite bind_call, Htarget.
  pose proof (stateless_steady _ (stateless_window_scan path _ None (-1)%Q 0)
                _ _ _ _ Hscan fs) as Hscan'.
  rewrite (bind_ok _ _ _ _ _ _ Hscan'). cbv beta iota.
  destruct (gate_best_frame_returns _ _ _ _ _ Hgate frames ts) as ([frames1 ts1] & Hgate').
  rewrite (bind_ok _ _ _ _ _ _ (Hgate' fs)). cbv beta iota.
  change (0 + 0) with 0. by rewrite IH.
Qed.

(** C4 (amended): a step of at least one frame makes the scan finish (the
    index grows by the step at every round, so one round per frame is
    enough).  Without it the scan may finish or not: with a step of zero it
    never finishes when the first round of the loop completes, and it
    finishes within that round when it does not -- the source has no frame,
    frame 0 cannot be read, or a call of the round raises. *)
Theorem extract_frames_terminates_with_positive_step path interval look_around :
  (1 ≤ frame_interval (cap_fps E path) interval →
   ∃ fuel frames ts t,
     ∀ fs, extract_frames E fuel path interval look_around fs
           = Some (Ok (frames, ts), fs, t)) ∧
  (frame_interval (cap_fps E path) interval = 0 →
   first_round_completes E path look_around →
   ∀ fuel fs, extract_frames E fuel path interval look_around fs = None) ∧
  (frame_interval (cap_fps E path) interval = 0 →
   ¬ first_round_completes E path look_around →
   ∃ frames ts t,
     ∀ fs, extract_frames E 1 path interval look_around fs
           = Some (Ok (frames, ts), fs, t)).
Proof.
  split; [|split].
  - intros Hstep.
    exists (Z.to_nat (py_int (cap_frame_count E path))).
    destruct (safe_extract_frames
                (Z.to_nat (py_int (cap_frame_count E path)))
                path interval look_around Hstep ltac:(lia))
      as ([frames ts] & t & H).
    by exists frames, ts, t.
  - intros Hstep Hround fuel fs. unfold extract_frames, try_except.
    cbv zeta. rewrite Hstep.
    by rewrite (frames_loop_stuck path look_around Hround).
  - intros Hstep Hround.
    assert (safe (extract_frames E 1 path interval look_around))
      as ([frames ts] & t & H); [|by exists frames, ts, t].
    unfold extract_frames. apply safe_try_except; [|auto with stateless].
    cbv zeta. rewrite Hstep. simpl.
    destruct (Z.ltb_spec 0 (py_int (cap_frame_count E path))) as [Htotal|Htotal];
      [|auto with stateless].
    destruct (cap_read E path 0) as [[target|]|e] eqn:Htarget.
    2: { exists (Ok ([], [])), [EvCapRead path 0]. intros fs.
         by rewrite bind_call. }
    2: { exists (Raise e), [EvCapRead path 0]. intros fs.
         by rewrite bind_call. }
    destruct (stateless_window_scan path
                (window_positions
                   (look_around_frames (cap_fps E path) look_around)
                   (py_int (cap_frame_count E path)) 0) None (-1)%Q 0)
      as ([[[best v] pos]|e] & tw & Hscan).
    2: { exists (Raise e), (EvCapRead path 0 :: tw). intros fs.
         rewrite bind_call.
         by rewrite (bind_raise _ _ _ _ _ _ (Hscan fs)). }
    destruct (gate_best_frame_silent (cap_fps E path) 0 best pos [] [])
      as ([out|e] & Hgate).
    { destruct Hround. split; [lia|]. split; [by exists target|].
      by exists best, v, pos, tw, out. }
    exists (Raise e), (EvCapRead path 0 :: tw ++ []). intros fs.
    rewrite bind_call.
    rewrite (bind_ok _ _ _ _ _ _ (Hscan fs)). cbv beta iota.
    by rewrite (bind_raise _ _ _ _ _ _ (Hgate fs)).
Qed.

End Frames.

(** On the time-lapse source the first round completes: frame 0 is read,
    found blurry and dropped. *)
Lemma timelapse_round_completes :
  first_round_completes Demo.timelapse "v.mp4" (1 # 4).
Proof.
  split; [by compute|]. split; [by exists 7%nat|].
  exists (Some 7%nat), (1 # 2)%Q, 0, [EvCapRead "v.mp4" 0], ([], []).
  split; reflexivity.
Qed.

Lemma extract_frames_terminates_with_positive_step_witness :
  (∃ fuel frames ts t,
     ∀ fs, extract_frames Demo.env fuel "v.mp4" (5 # 2) (1 # 4) fs
           = Some (Ok (frames, ts), fs, t)) ∧
  (∀ fuel fs, extract_frames Demo.timelapse fuel "v.mp4" (5 # 2) (1 # 4) fs
              = None) ∧
  (∃ frames ts t,
     ∀ fs, extract_frames Scenario3.no_rate 1 "v.mp4" (5 # 2) (1 # 4) fs
           = Some (Ok (frames, ts), fs, t)).
Proof.
  split; [|split].
  - apply (proj1 (extract_frames_terminates_with_positive_step Demo.env "v.mp4"
                    (5 # 2) (1 # 4))).
    by compute.
  - apply (proj1 (proj2 (extract_frames_terminates_with_positive_step
                           Demo.timelapse "v.mp4" (5 # 2) (1 # 4))));
      [reflexivity|exact timelapse_round_completes].
  - apply (proj2 (proj2 (extract_frames_terminates_with_positive_step
                           Scenario3.no_rate "v.mp4" (5 # 2) (1 # 4))));
      [reflexivity|].
    intros (_ & _ & best & v & pos & tw & out & Hscan & Hgate).
    vm_compute in Hscan. injection Hscan as <- <- <- <-.
    by vm_compute in Hgate.
Defined.

(** C4 as stated fails: the precondition is not necessary.  A source that
    reports a frame rate of zero has a step of zero, and its scan ends in
    the first round, at the division by the frame rate. *)
Lemma zero_step_scan_ends :
  frame_interval (cap_fps Scenario3.no_rate "v.mp4") (5 # 2) = 0 ∧
  extract_frames Scenario3.no_rate 1 "v.mp4" (5 # 2) (1 # 4) ∅
  = Some (Ok ([], []), ∅, [EvCapRead "v.mp4" 0; EvCapRead "v.mp4" 0]).
Proof. split; reflexivity. Qed.

Example demo_extract_frames :
  extract_frames Demo.env 2 "v.mp4" (5 # 2) (1 # 4) ∅
  = Some (Ok ([1080%nat], [(80 # 30)%Q]), ∅,
          (EvCapRead "v.mp4" <$> 0 :: py_range 0 8)
          ++ (EvCapRead "v.mp4" <$> 75 :: py_range 68 83)).
Proof. vm_compute. reflexivity. Qed.

Lemma emitted_frames_pass_gates_witness :
  Forall (passes_gates Demo.env) [1080%nat] ∧
  (∀ frame,
     passes_gates Demo.env frame ↔
     ∃ v c, laplacian_var Demo.env frame = Ok v ∧ gray_std Demo.env frame = Ok c ∧
            (150 <= v)%Q ∧ (30 <= c)%Q) ∧
  ∃ n, [1080%nat]
       = omap (selected Demo.env "v.mp4"
                 (look_around_frames (cap_fps Demo.env "v.mp4") (1 # 4))
                 (py_int (cap_frame_count Demo.env "v.mp4")))
           (first_stops (frame_interval (cap_fps Demo.env "v.mp4") (5 # 2)) n).
Proof.
  exact (emitted_frames_pass_gates Demo.env 2 "v.mp4" (5 # 2) (1 # 4) ∅
           [1080%nat] [(80 # 30)%Q] ∅ _ demo_extract_frames).
Defined.

(** The two stops of the demo source: the window of the first has no frame
    sharp enough and adds nothing; the second adds the best of its window,
    frame 80, and not the target frame 75. *)
Example demo_selected :
  omap (selected Demo.env "v.mp4" 7 100) (first_stops 75 2) = [1080%nat] ∧
  selected Demo.env "v.mp4" 7 100 0 = None ∧
  window_best Demo.env "v.mp4" 7 100 0 = Some 1007%nat ∧
  cap_read Demo.env "v.mp4" 75 = Ok (Some 1075%nat).
Proof. repeat split; by vm_compute. Qed.

Lemma demo_unbroken : unbroken Demo.env "v.mp4" 75 7 100.
Proof.
  assert (∀ pos, 0 ≤ pos < 100 →
            cap_read Demo.env "v.mp4" pos = Ok (Some (1000 + Z.to_nat pos)%nat))
    as Hread.
  { intros pos Hpos. simpl.
    destruct (0 <=? pos) eqn:H0; [|apply Z.leb_gt in H0; lia].
    destruct (pos <? 100) eqn:H1; [|apply Z.ltb_ge in H1; lia].
    done. }
  intros p Hp. split.
  - change (sample_positions 75 100) with [0; 75] in Hp.
    eexists. apply Hread.
    apply elem_of_cons in Hp as [-> | Hp]; [lia|].
    apply elem_of_cons in Hp as [-> | Hp]; [lia|by apply elem_of_nil in Hp].
  - intros x Hx%elem_of_window_positions. right.
    rewrite (Hread x) by lia. exists (1000 + Z.to_nat x)%nat.
    cbn [laplacian_var gray_std Demo.env Demo.env_with].
    destruct (1000 + Z.to_nat x =? 1080)%nat; by eexists _, _.
Qed.

Lemma frame_reads_follow_truncated_step_witness :
  (75 = py_int (round_double ((30 # 1) * (5 # 2))) ∧
   7 = py_int (round_double ((30 # 1) * (1 # 4)))) ∧
  (∃ fuel frames ts t,
     (∀ fs, extract_frames Demo.env fuel "v.mp4" (5 # 2) (1 # 4) fs
            = Some (Ok (frames, ts), fs, t)) ∧
     t `prefix_of` (sample_positions 75 100 ≫= sample_reads "v.mp4" 7 100) ∧
     (unbroken Demo.env "v.mp4" 75 7 100 →
      t = sample_positions 75 100 ≫= sample_reads "v.mp4" 7 100)) ∧
  (∀ p, NoDup (window_positions 7 100 p) ∧
        ∀ x, x ∈ window_positions 7 100 p ↔ p - 7 ≤ x ≤ p + 7 ∧ 0 ≤ x < 100).
Proof.
  apply (frame_reads_follow_truncated_step Demo.env "v.mp4" (5 # 2) (1 # 4)).
  by compute.
Defined.

(** At a frame rate of 1.2 -- the double nearest to it -- the product with
    2.5 is rounded up to the double 3.0 before it is truncated: the step is
    3, where the exact product would give 2. *)
Example demo_rounded_product :
  frame_interval (5404319552844595 # 4503599627370496) (5 # 2) = 3 ∧
  py_int ((5404319552844595 # 4503599627370496) * (5 # 2)) = 2.
Proof. split; reflexivity. Qed.

(** C3 as stated fails.  At 30 frames per second the claim has the window
    reach [round(7.5) = 8] frames, so frame 83 belongs to the window of the
    stop at 75, yet the program, which reaches [int(7.5) = 7] frames, never
    reads it.  At 29.97 frames per second the claimed step is
    [round(74.925) = 75] and the program's is 74. *)
Lemma rounded_window_not_examined :
  ∃ r t,
    extract_frames Demo.env 2 "v.mp4" (5 # 2) (1 # 4) ∅ = Some (r, ∅, t) ∧
    EvCapRead "v.mp4" 75 ∈ t ∧
    83 ∈ rounded_window (cap_fps Demo.env "v.mp4") (1 # 4) 100 75 ∧
    (EvCapRead "v.mp4" 83 ∉ t) ∧
    frame_interval (30000 # 1001) (5 # 2) = 74 ∧
    spec_round (round_double ((30000 # 1001) * (5 # 2))) = 75.
Proof.
  eexists _, _. split; [exact demo_extract_frames|].
  split; [|split; [|split; [|split]]].
  - apply elem_of_app. right. by left.
  - unfold rounded_window. apply elem_of_py_range. by vm_compute.
  - rewrite elem_of_app, !list_elem_of_fmap.
    intros [(x & [= <-] & Hx) | (x & [= <-] & Hx)].
    + apply elem_of_cons in Hx as [|Hx%elem_of_py_range]; lia.
    + apply elem_of_cons in Hx as [|Hx%elem_of_py_range]; lia.
  - reflexivity.
  - reflexivity.
Qed.

(** ** Gallery loader *)

Section Loader.

Context {Pil Img Enc : Type} (E : Env Pil Img Enc).

Lemma load_known_faces_loop_unusable dir filenames encs names fs :
  Forall (unusable E dir) filenames →
  load_known_faces_loop E dir filenames encs names fs
  = Some (Ok (encs, names), fs,
          EvLoadImageFile <$> (path_join dir <$> image_files filenames)).
Proof.
  intros H. induction H as [|f rest Hf _ IH]; simpl; [done|].
  unfold image_files. rewrite filter_cons.
  destruct Hf as [Hext | (image & Himg & Henc)].
  - rewrite Hext. rewrite decide_False by done. apply IH.
  - destruct (has_image_ext f) eqn:Hext.
    + rewrite decide_True by done.
      rewrite bind_call, Himg, bind_lift, Henc.
      unfold image_files in IH. by rewrite IH.
    + rewrite decide_False by done. apply IH.
Qed.

Lemma image_files_app l1 l2 : image_files (l1 ++ l2) = image_files l1 ++ image_files l2.
Proof. apply filter_app. Qed.

(** The loader on files that can all be loaded: each image file with a
    face adds its entry. *)
Lemma load_known_faces_loop_entries dir filenames :
  (∀ f, f ∈ image_files filenames → loadable E dir f) →
  ∀ rest encs names fs,
    load_known_faces_loop E dir (filenames ++ rest) encs names fs
    = prepend (loads dir filenames)
        (load_known_faces_loop E dir rest
           (encs ++ (omap (gallery_entry E dir) (image_files filenames)).*1)
           (names ++ (omap (gallery_entry E dir) (image_files filenames)).*2)
           fs).
Proof.
  unfold loads.
  induction filenames as [|f filenames IH]; intros Hload rest encs names fs.
  { simpl. by rewrite prepend_nil, !app_nil_r. }
  simpl. unfold image_files in *. rewrite filter_cons in *.
  destruct (has_image_ext f) eqn:Hext.
  2: { rewrite decide_False in * by done. by apply IH. }
  rewrite decide_True in * by done.
  destruct (Hload f ltac:(by left)) as (image & es & Himg & Hes).
  assert (gallery_entry E dir f
          = match es with e :: _ => Some (e, splitext_root f) | [] => None end)
    as Hentry by (unfold gallery_entry; by rewrite Himg, Hes).
  rewrite bind_call, Himg, bind_lift, Hes. simpl. rewrite Hentry.
  destruct es as [|e es]; rewrite IH by (intros; apply Hload; by right);
    rewrite prepend_prepend; [done|].
  simpl. by rewrite <- !app_assoc.
Qed.

Lemma load_known_faces_entries dir filenames :
  listdir E dir = Some (Ok filenames) →
  (∀ f, f ∈ image_files filenames → loadable E dir f) →
  ∀ fs, load_known_faces E dir fs
        = Some (Ok ((omap (gallery_entry E dir) (image_files filenames)).*1,
                    (omap (gallery_entry E dir) (image_files filenames)).*2),
                fs, loads dir filenames).
Proof.
  intros Hdir Hload fs. unfold load_known_faces. rewrite Hdir, bind_lift.
  rewrite <- (app_nil_r filenames) at 1.
  rewrite load_known_faces_loop_entries by done. simpl.
  by rewrite app_nil_r.
Qed.

(** The loader at an image file that cannot be loaded or searched. *)
Lemma load_known_faces_unreadable dir before f after e :
  listdir E dir = Some (Ok (before ++ f :: after)) →
  (∀ g, g ∈ image_files before → loadable E dir g) →
  has_image_ext f = true →
  (load_image_file E (path_join dir f) = Raise e ∨
   ∃ image, load_image_file E (path_join dir f) = Ok image ∧
            face_encodings_all E image = Raise e) →
  ∀ fs, load_known_faces E dir fs
        = Some (Raise e, fs, loads dir (before ++ [f])).
Proof.
  intros Hdir Hload Hext Hfail fs.
  assert (loads dir (before ++ [f])
          = loads dir before ++ [EvLoadImageFile (path_join dir f)]) as ->.
  { unfold loads. rewrite image_files_app, !fmap_app. do 2 f_equal.
    unfold image_files. by rewrite filter_cons, decide_True. }
  unfold load_known_faces. rewrite Hdir, bind_lift.
  rewrite load_known_faces_loop_entries by done.
  simpl. rewrite Hext.
  destruct Hfail as [Himg | (image & Himg & Hes)].
  - by rewrite bind_call, Himg.
  - by rewrite bind_call, Himg, bind_lift, Hes.
Qed.

(** C7: when the gallery directory is missing or yields no usable entry,
    the loader hands the empty gallery to [main], which reports it and
    returns at once: the trace of the whole run is the gallery loads
    followed by the error line -- no video is processed and no result is
    written; a directory that cannot be listed makes the loader, and [main]
    with it, raise at once.  Otherwise the gallery is fully built before
    matching begins: when every image file can be loaded and some show a
    face, every image file is read, the gallery holds the entry of each file
    that shows one, and only then does the run turn to the videos, with that
    gallery; and a file that cannot be loaded ends the run with its
    exception before the input is read, so that no video is ever matched
    against a gallery in the making. *)
Theorem gallery_precondition fuel json_file :
  (gallery_unusable E "known_faces" →
   ∃ t, Forall gallery_event t ∧
        ∀ fs, load_known_faces E "known_faces" fs = Some (Ok ([], []), fs, t) ∧
              main E fuel json_file fs
              = Some (Ok (), fs, t ++ [EvNoKnownFaces])) ∧
  (∀ e, listdir E "known_faces" = Some (Raise e) →
        ∀ fs, main E fuel json_file fs = Some (Raise e, fs, [])) ∧
  (∀ filenames,
     listdir E "known_faces" = Some (Ok filenames) →
     (∀ f, f ∈ image_files filenames → loadable E "known_faces" f) →
     omap (gallery_entry E "known_faces") (image_files filenames) ≠ [] →
     ∀ fs,
       load_known_faces E "known_faces" fs
       = Some (Ok ((omap (gallery_entry E "known_faces")
                      (image_files filenames)).*1,
                   (omap (gallery_entry E "known_faces")
                      (image_files filenames)).*2),
               fs, loads "known_faces" filenames) ∧
       main E fuel json_file fs
       = prepend (loads "known_faces" filenames)
           (run_videos E fuel json_file
              (omap (gallery_entry E "known_faces") (image_files filenames)).*1
              (omap (gallery_entry E "known_faces") (image_files filenames)).*2
              fs)) ∧
  (∀ before f after e,
     listdir E "known_faces" = Some (Ok (before ++ f :: after)) →
     (∀ g, g ∈ image_files before → loadable E "known_faces" g) →
     has_image_ext f = true →
     (load_image_file E (path_join "known_faces" f) = Raise e ∨
      ∃ image, load_image_file E (path_join "known_faces" f) = Ok image ∧
               face_encodings_all E image = Raise e) →
     ∀ fs, main E fuel json_file fs
           = Some (Raise e, fs, loads "known_faces" (before ++ [f]))).
Proof.
  split; [|split; [|split]].
  - intros Hun.
    assert (∃ t, Forall gallery_event t ∧
                 ∀ fs, load_known_faces E "known_faces" fs
                       = Some (Ok ([], []), fs, t)) as (t & Ht & Hload).
    { unfold load_known_faces.
      destruct Hun as [-> | (filenames & -> & Hun)].
      - by exists [].
      - eexists. split.
        2: { intros fs. rewrite bind_lift.
             by apply load_known_faces_loop_unusable. }
        rewrite <- list_fmap_compose. apply Forall_fmap, Forall_true.
        intros p. by eexists. }
    exists t. split; [done|]. intros fs. split; [done|].
    unfold main. by rewrite (bind_ok _ _ _ _ _ _ (Hload fs)).
  - intros e Hdir fs. unfold main, load_known_faces. rewrite Hdir.
    by rewrite (bind_raise _ _ fs e fs []).
  - intros filenames Hdir Hload Hne fs.
    pose proof (load_known_faces_entries "known_faces" filenames Hdir Hload fs)
      as Hloader.
    split; [done|]. unfold main. rewrite (bind_ok _ _ _ _ _ _ Hloader).
    destruct (omap (gallery_entry E "known_faces") (image_files filenames))
      as [|entry entries]; [done|]. done.
  - intros before f after e Hdir Hload Hext Hfail fs. unfold main.
    by rewrite (bind_raise _ _ _ _ _ _
                  (load_known_faces_unreadable "known_faces" before f after e
                     Hdir Hload Hext Hfail fs)).
Qed.

End Loader.

(** ** Orchestrator *)

Section Orchestrator.

Context {Pil Img Enc : Type} (E : Env Pil Img Enc).

Lemma safe_download_image url : safe (download_image E url).
Proof.
  apply safe_try_except; [|auto with stateless].
  apply stateless_bind; auto with stateless.
Qed.

Lemma safe_check_image_url url known names :
  safe (check_image_url E url known names).
Proof.
  unfold check_image_url. destruct (nonempty url); [|auto with stateless].
  apply safe_bind; [apply safe_download_image|].
  intros image. apply safe_detect_known_faces_in_image.
Qed.

Lemma stateless_match_frames samples known names :
  stateless (match_frames E samples known names).
Proof.
  induction samples as [|[frame ts] rest IH]; simpl; [auto with stateless|].
  apply stateless_bind; [auto with stateless|]. intros []; [done|].
  apply stateless_bind; [auto with stateless|]. intros []; [done|].
  apply stateless_bind; [auto with stateless|]. intros rgb.
  apply stateless_bind; [auto with stateless|]. intros [|box boxes]; [done|].
  apply stateless_bind; [apply stateless_match_locations|].
  intros []; auto with stateless.
Qed.

Lemma safe_detect_known_faces_in_frames frames timestamps known names :
  safe (detect_known_faces_in_frames E frames timestamps known names).
Proof.
  apply safe_try_except; [apply stateless_match_frames|auto with stateless].
Qed.

Lemma stateless_video_and_channel_info_loop attempts vid cid :
  stateless (video_and_channel_info_loop E attempts vid cid).
Proof.
  induction attempts as [|n rest IH]; simpl; [auto with stateless|].
  apply stateless_bind.
  - apply stateless_try_except_http.
    + apply stateless_bind; [auto with stateless|]. intros items.
      apply stateless_bind; [auto with stateless|]. intros item.
      apply stateless_bind; [auto with stateless|]. intros citems.
      apply stateless_bind; auto with stateless.
    + apply stateless_bind; auto with stateless.
  - intros [urls|]; auto with stateless.
Qed.

Lemma nonempty_path_join a b : nonempty (path_join a b) = true.
Proof. by destruct a. Qed.

(** One attempt of [download_video]: [Some _] is its [return], [None] is a
    caught failure, after which the loop goes on.  Whatever the attempt, the
    files that yt-dlp wrote are on disk afterwards. *)
Lemma download_attempt_spec vid dir n fs :
  ∃ r t,
    try_except
      (let output_path := path_join dir (vid +:+ ".mp4") in
       run_ydl E vid n output_path;;
       found ← path_exists output_path;
       if found : bool then mret (Some (Some output_path))
       else mret (Some None))
      (λ _, emit EvSleep;; mret None) fs
    = Some (Ok r, ydl_files E vid n (video_file dir vid) ∪ fs,
            EvYdlDownload vid n :: t) ∧
    match r with
    | None => (∃ e, (ydl_download E vid n).1 = Raise e) ∧ t = [EvSleep]
    | Some None =>
        (ydl_download E vid n).1 = Ok () ∧ t = [] ∧
        video_file dir vid ∉ ydl_files E vid n (video_file dir vid) ∪ fs
    | Some (Some path) =>
        (ydl_download E vid n).1 = Ok () ∧ t = [] ∧
        path = video_file dir vid ∧
        path ∈ ydl_files E vid n (video_file dir vid) ∪ fs
    end.
Proof.
  cbv zeta. fold (video_file dir vid). unfold try_except.
  pose (fs1 := ydl_files E vid n (video_file dir vid) ∪ fs).
  assert (run_ydl E vid n (video_file dir vid) fs
          = Some ((ydl_download E vid n).1, fs1, [EvYdlDownload vid n]))
    as Hrun by done.
  destruct ((ydl_download E vid n).1) as [[]|e] eqn:Hdl.
  - rewrite (bind_ok _ _ _ _ _ _ Hrun).
    destruct (decide (video_file dir vid ∈ fs1)) as [Hin|Hout].
    + rewrite (bind_ok _ _ _ true fs1 [])
        by (unfold path_exists; by rewrite bool_decide_true).
      simpl. by eexists (Some (Some _)), _.
    + rewrite (bind_ok _ _ _ false fs1 [])
        by (unfold path_exists; by rewrite bool_decide_false).
      simpl. by eexists (Some None), _.
  - rewrite (bind_raise _ _ _ _ _ _ Hrun), bind_emit. simpl.
    eexists None, _. split; [done|]. split; [by exists e|done].
Qed.

Lemma left_by_cons dir vid n attempts :
  left_by E dir vid (n :: attempts)
  = ydl_files E vid n (video_file dir vid) ∪ left_by E dir vid attempts.
Proof. done. Qed.

(** [download_video] does not raise; the files on disk afterwards are those
    of before and those that the attempts it made have left; the path it
    returns is the output path, which then exists. *)
Lemma download_video_loop_spec attempts vid dir fs :
  ∃ r k t,
    download_video_loop E attempts vid dir fs
    = Some (Ok r, left_by E dir vid (take k attempts) ∪ fs, t) ∧
    (attempts ≠ [] → ∃ t', t = EvYdlDownload vid (default 0%nat (head attempts)) :: t') ∧
    ∀ path, r = Some path →
      path = video_file dir vid ∧
      path ∈ left_by E dir vid (take k attempts) ∪ fs.
Proof.
  revert fs. induction attempts as [|n rest IH]; intros fs; simpl.
  { exists None, 0%nat, []. split; [|done].
    unfold left_by. simpl. by rewrite union_empty_l_L. }
  destruct (download_attempt_spec vid dir n fs) as (r1 & t1 & H1 & Hr1).
  rewrite (bind_ok _ _ _ _ _ _ H1).
  destruct r1 as [returned|].
  - exists returned, 1%nat, (EvYdlDownload vid n :: t1 ++ []).
    change (take 1 (n :: rest)) with [n]. rewrite left_by_cons.
    replace (left_by E dir vid []) with (∅ : Files) by done.
    rewrite union_empty_r_L. split; [done|].
    split; [intros _; by eexists|].
    intros path ->. simpl in Hr1. rewrite union_empty_r_L.
    by destruct Hr1 as (_ & _ & ? & ?).
  - destruct (IH (ydl_files E vid n (video_file dir vid) ∪ fs))
      as (r & k & t & Hrest & _ & Hr).
    rewrite Hrest. simpl.
    exists r, (S k), (EvYdlDownload vid n :: t1 ++ t).
    assert (left_by E dir vid (take (S k) (n :: rest)) ∪ fs
            = left_by E dir vid (take k rest)
                ∪ (ydl_files E vid n (video_file dir vid) ∪ fs)) as Heq.
    { rewrite firstn_cons, left_by_cons.
      by rewrite (comm_L (∪) (ydl_files _ _ _ _) (left_by _ _ _ _)),
           <- (assoc_L (∪)). }
    rewrite Heq. split; [done|]. split; [intros _; by eexists|]. done.
Qed.

Lemma download_video_spec vid dir fs :
  ∃ r k t,
    download_video E vid dir 3 fs
    = Some (Ok r, left_by E dir vid (seq 0 k) ∪ fs, EvYdlDownload vid 0 :: t) ∧
    (k ≤ 3)%nat ∧
    ∀ path, r = Some path →
      path = video_file dir vid ∧ path ∈ left_by E dir vid (seq 0 k) ∪ fs.
Proof.
  destruct (download_video_loop_spec (seq 0 3) vid dir fs)
    as (r & k & t & Hdl & Ht & Hr).
  destruct Ht as (t' & ->); [done|].
  exists r, (k `min` 3)%nat, t'. unfold download_video.
  rewrite <- take_seq. split; [done|]. split; [lia|done].
Qed.

(** The video step once the download has returned. *)
Lemma check_video_frames_after_download fuel vid dir known names fs dl fs1 t1 :
  download_video E vid dir 3 fs = Some (Ok dl, fs1, t1) →
  (dl ≠ None → scan_halts E fuel (video_file dir vid)) →
  ∃ r fs' t,
    check_video_frames E fuel vid dir known names fs = Some (r, fs', t1 ++ t) ∧
    match dl with
    | None => r = Ok false ∧ fs' = fs1 ∧ t = []
    | Some path =>
        path = video_file dir vid ∧ path ∈ fs1 ∧
        (∃ t', t = t' ++ [EvRemove path]) ∧
        if undeletable E path
        then r = Raise OSError ∧ fs' = fs1
        else (∃ found, r = Ok found) ∧ fs' = fs1 ∖ {[path]}
    end.
Proof.
  intros Hdl Hscan. unfold check_video_frames.
  rewrite (bind_ok _ _ _ _ _ _ Hdl).
  destruct dl as [path|]; simpl.
  2: { exists (Ok false), fs1, []. by rewrite app_nil_r. }
  destruct (download_video_spec vid dir fs) as (r & k & t & Hspec & _ & Hr).
  rewrite Hdl in Hspec. injection Hspec as <- -> ->.
  destruct (Hr path eq_refl) as [-> Hin].
  unfold video_file at 1. rewrite nonempty_path_join. fold (video_file dir vid).
  destruct (scan_halts_safe E fuel (video_file dir vid) (Hscan ltac:(done)))
    as ([frames ts] & t2 & Hex).
  rewrite (bind_ok _ _ _ _ _ _ (Hex _)). cbv beta iota.
  destruct (safe_detect_known_faces_in_frames frames ts known names)
    as (found & t3 & Hdet).
  rewrite (bind_ok _ _ _ _ _ _ (Hdet _)).
  set (fs1 := left_by E dir vid (seq 0 k) ∪ fs) in *.
  destruct (undeletable E (video_file dir vid)) eqn:Hun.
  - rewrite (bind_raise _ _ _ OSError fs1 [EvRemove (video_file dir vid)])
      by (unfold os_remove; by rewrite Hun).
    simpl. exists (Raise OSError), fs1, ((t2 ++ t3) ++ [EvRemove (video_file dir vid)]).
    split; [by rewrite <- !app_assoc|].
    split; [done|]. split; [done|]. split; [by eexists|done].
  - rewrite (bind_ok _ _ _ () (fs1 ∖ {[video_file dir vid]})
               [EvRemove (video_file dir vid)]).
    2: { unfold os_remove. by rewrite Hun, bool_decide_true. }
    simpl. exists (Ok found), (fs1 ∖ {[video_file dir vid]}),
             ((t2 ++ t3) ++ [EvRemove (video_file dir vid)]).
    split; [by rewrite <- !app_assoc|].
    split; [done|]. split; [done|]. split; [by eexists|by eauto].
Qed.

(** The video step.  It returns or raises when the scan ends; it raises only
    when the file it downloaded cannot be unlinked. *)
Lemma check_video_frames_spec fuel vid dir known names fs :
  scan_halts E fuel (video_file dir vid) →
  ∃ r fs' tv,
    check_video_frames E fuel vid dir known names fs
    = Some (r, fs', EvYdlDownload vid 0 :: tv) ∧
    (∀ e, r = Raise e → undeletable E (video_file dir vid) = true).
Proof.
  intros Hscan.
  destruct (download_video_spec vid dir fs) as (dl & k & t1 & Hdl & _ & _).
  destruct (check_video_frames_after_download fuel vid dir known names fs
              dl _ _ Hdl (λ _, Hscan)) as (r & fs' & t & Hv & Hcases).
  exists r, fs', (t1 ++ t). split; [done|]. intros e ->.
  destruct dl as [path|]; [|by destruct Hcases].
  destruct Hcases as (-> & _ & _ & Hcases).
  destruct (undeletable E (video_file dir vid)); [done|].
  by destruct Hcases as [[found ?] _].
Qed.

(** The shape of every run of [process_video] on a record that carries
    both identifiers. *)
Lemma process_video_unresolved fuel video vid cid dir known names fs e t0 :
  video !! "video_id" = Some vid → video !! "channel_id" = Some cid →
  get_video_and_channel_info E vid cid 3 fs = Some (Raise e, fs, t0) →
  process_video E fuel video dir known names fs
  = Some (Ok (no_match vid), fs, t0).
Proof.
  intros Hvid Hcid Hinfo. unfold process_video, py_getitem.
  rewrite Hvid, Hcid, !bind_ret. unfold try_except, process_video_body.
  rewrite (bind_raise _ _ _ _ _ _ Hinfo). simpl. by rewrite app_nil_r.
Qed.

Lemma process_video_resolved fuel video vid cid dir known names fs
    turl aurl t0 in_t tt in_a ta rv fs' tv :
  video !! "video_id" = Some vid → video !! "channel_id" = Some cid →
  get_video_and_channel_info E vid cid 3 fs = Some (Ok (turl, aurl), fs, t0) →
  check_image_url E turl known names fs = Some (Ok in_t, fs, tt) →
  check_image_url E aurl known names fs = Some (Ok in_a, fs, ta) →
  check_video_frames E fuel vid dir known names fs = Some (rv, fs', tv) →
  process_video E fuel video dir known names fs
  = Some (Ok match rv with
             | Ok in_v =>
                 {| video_id := vid;
                    has_known_face_in_thumbnail := in_t;
                    has_known_face_in_avatar := in_a;
                    has_known_face_in_video := in_v |}
             | Raise _ => no_match vid
             end,
          fs', t0 ++ tt ++ ta ++ tv).
Proof.
  intros Hvid Hcid Hinfo Ht Ha Hv. unfold process_video, py_getitem.
  rewrite Hvid, Hcid, !bind_ret. unfold try_except, process_video_body.
  rewrite (bind_ok _ _ _ _ _ _ Hinfo). cbv beta iota.
  rewrite (bind_ok _ _ _ _ _ _ Ht), (bind_ok _ _ _ _ _ _ Ha).
  destruct rv as [in_v|e].
  - rewrite (bind_ok _ _ _ _ _ _ Hv). simpl. by rewrite app_nil_r.
  - rewrite (bind_raise _ _ _ _ _ _ Hv). simpl. by rewrite app_nil_r.
Qed.

(** C5 (amended): on a record that carries both identifiers, once metadata
    resolution has returned the two URLs and provided the frame scan of the
    video ends, the three checks all run, one after the other, whatever the
    earlier ones found: the trace of the run is the metadata calls, the
    thumbnail check, the avatar check and the video step, which starts with
    the first download attempt.  The thumbnail and avatar verdicts are those
    of [check_image_url] on their own URL, the same on every file system.
    When the video step returns, the record holds the three verdicts, each
    of its own check; the video step raises only when the file it downloaded
    cannot be unlinked, and the handler then records all three booleans
    false, whatever the image checks found. *)
Theorem checks_are_independent fuel video vid cid dir known names fs turl aurl t0 :
  video !! "video_id" = Some vid → video !! "channel_id" = Some cid →
  get_video_and_channel_info E vid cid 3 fs = Some (Ok (turl, aurl), fs, t0) →
  scan_halts E fuel (video_file dir vid) →
  ∃ in_t tt in_a ta rv fs' tv,
    (∀ fs0, check_image_url E turl known names fs0 = Some (Ok in_t, fs0, tt)) ∧
    (∀ fs0, check_image_url E aurl known names fs0 = Some (Ok in_a, fs0, ta)) ∧
    check_video_frames E fuel vid dir known names fs
    = Some (rv, fs', EvYdlDownload vid 0 :: tv) ∧
    (∀ e, rv = Raise e → undeletable E (video_file dir vid) = true) ∧
    process_video E fuel video dir known names fs
    = Some (Ok match rv with
               | Ok in_v =>
                   {| video_id := vid;
                      has_known_face_in_thumbnail := in_t;
                      has_known_face_in_avatar := in_a;
                      has_known_face_in_video := in_v |}
               | Raise _ => no_match vid
               end,
            fs', t0 ++ tt ++ ta ++ EvYdlDownload vid 0 :: tv).
Proof.
  intros Hvid Hcid Hinfo Hscan.
  destruct (safe_check_image_url turl known names) as (in_t & tt & Ht).
  destruct (safe_check_image_url aurl known names) as (in_a & ta & Ha).
  destruct (check_video_frames_spec fuel vid dir known names fs Hscan)
    as (rv & fs' & tv & Hv & Hraise).
  exists in_t, tt, in_a, ta, rv, fs', tv. repeat split; try done.
  exact (process_video_resolved fuel video vid cid dir known names fs
           turl aurl t0 in_t tt in_a ta rv fs' _ Hvid Hcid Hinfo
           (Ht fs) (Ha fs) Hv).
Qed.

(** C1 (amended): on a record that carries both identifiers, once metadata
    resolution has returned and [download_video] has returned the path of
    the file it downloaded, and provided the frame scan of that file ends,
    [process_video] returns, and its last action is the call of [os.remove]
    on the file.  If the system lets the program unlink the file, the files
    on disk at the return are those left by the download without that file:
    it is gone, whether the scan found a match or not and whatever was
    raised inside frame extraction or frame matching; what the failed
    attempts left beside it stays.  If [os.remove] raises, the result is the
    all-false record and the file is still there. *)
Theorem temp_file_removed fuel video vid cid dir known names fs urls t0 path fs1 t1 :
  video !! "video_id" = Some vid → video !! "channel_id" = Some cid →
  get_video_and_channel_info E vid cid 3 fs = Some (Ok urls, fs, t0) →
  download_video E vid dir 3 fs = Some (Ok (Some path), fs1, t1) →
  scan_halts E fuel path →
  path ∈ fs1 ∧
  ∃ r fs' t,
    process_video E fuel video dir known names fs
    = Some (Ok r, fs', t ++ [EvRemove path]) ∧
    if undeletable E path
    then r = no_match vid ∧ fs' = fs1
    else fs' = fs1 ∖ {[path]} ∧ path ∉ fs'.
Proof.
  intros Hvid Hcid Hinfo Hdl Hscan. destruct urls as [turl aurl].
  destruct (download_video_spec vid dir fs) as (dl & k & t & Hspec & _ & Hdlr).
  rewrite Hdl in Hspec. injection Hspec as <- Hfs1 Ht1.
  destruct (Hdlr path eq_refl) as [Hpath _].
  destruct (check_video_frames_after_download fuel vid dir known names fs
              (Some path) fs1 t1 Hdl)
    as (rv & fs' & tv & Hv & _ & Hin & (tv' & ->) & Hcases).
  { intros _. by rewrite <- Hpath. }
  split; [done|].
  destruct (safe_check_image_url turl known names) as (in_t & tt & Ht).
  destruct (safe_check_image_url aurl known names) as (in_a & ta & Ha).
  pose proof (process_video_resolved fuel video vid cid dir known names fs
                turl aurl t0 in_t tt in_a ta rv fs' _ Hvid Hcid Hinfo
                (Ht fs) (Ha fs) Hv) as Hrun.
  rewrite Hrun. eexists _, fs', (t0 ++ tt ++ ta ++ t1 ++ tv').
  split; [by rewrite <- !app_assoc|].
  destruct (undeletable E path).
  - by destruct Hcases as [-> ->].
  - destruct Hcases as [_ ->]. split; [done|].
    intros [_ H]%elem_of_difference. apply H. by apply elem_of_singleton.
Qed.

(** [process_video] never raises on a well-formed record. *)
Lemma process_video_returns fuel video vid cid dir known names fs :
  video !! "video_id" = Some vid → video !! "channel_id" = Some cid →
  scan_halts E fuel (video_file dir vid) →
  ∃ r fs' t,
    process_video E fuel video dir known names fs = Some (Ok r, fs', t) ∧
    video_id r = vid.
Proof.
  intros Hvid Hcid Hscan.
  destruct (stateless_video_and_channel_info_loop (seq 0 3) vid cid)
    as ([[turl aurl]|e] & t0 & Hinfo).
  2: { exists (no_match vid), fs, t0. split; [|done].
       exact (process_video_unresolved fuel video vid cid dir known names fs
                e t0 Hvid Hcid (Hinfo fs)). }
  destruct (safe_check_image_url turl known names) as (in_t & tt & Ht).
  destruct (safe_check_image_url aurl known names) as (in_a & ta & Ha).
  destruct (check_video_frames_spec fuel vid dir known names fs Hscan)
    as (rv & fs' & tv & Hv & _).
  eexists _, _, _. split.
  - exact (process_video_resolved fuel video vid cid dir known names fs
             turl aurl t0 in_t tt in_a ta rv fs' _ Hvid Hcid (Hinfo fs)
             (Ht fs) (Ha fs) Hv).
  - by destruct rv.
Qed.

(** C2 (amended): on a record that carries both identifiers, an exception
    raised in the [try] block of [process_video] -- that is, after the two
    identifiers were read -- becomes the all-false record of that video, with
    the files and the trace that the block left; such a record, when the
    frame scan of its video ends, never makes [process_video] raise; and on
    records that all carry both identifiers and whose frame scans end, the
    loop of [main] yields one result per video, in order, whatever failed
    inside any of them. *)
Theorem failures_are_isolated fuel dir known names :
  (∀ video vid cid fs e fs1 t1,
     video !! "video_id" = Some vid → video !! "channel_id" = Some cid →
     process_video_body E fuel vid cid dir known names fs
     = Some (Raise e, fs1, t1) →
     process_video E fuel video dir known names fs
     = Some (Ok (no_match vid), fs1, t1)) ∧
  (∀ video fs,
     well_formed E fuel dir video →
     ∃ r fs' t,
       process_video E fuel video dir known names fs = Some (Ok r, fs', t) ∧
       video !! "video_id" = Some (video_id r)) ∧
  (∀ videos results fs,
     Forall (well_formed E fuel dir) videos →
     ∃ rs fs' t,
       process_videos E fuel videos dir known names results fs
       = Some (Ok (results ++ rs), fs', t) ∧
       Forall2 (λ video r, video !! "video_id" = Some (video_id r)) videos rs).
Proof.
  split; [|split].
  - intros video vid cid fs e fs1 t1 Hvid Hcid Hbody.
    unfold process_video, py_getitem. rewrite Hvid, Hcid, !bind_ret.
    unfold try_except. rewrite Hbody. simpl. by rewrite app_nil_r.
  - intros video fs (vid & cid & Hvid & Hcid & Hscan).
    destruct (process_video_returns fuel video vid cid dir known names fs
                Hvid Hcid Hscan) as (r & fs1 & t1 & Hr & Hid).
    exists r, fs1, t1. by rewrite Hid.
  - intros videos results fs Hwf. revert results fs.
    induction Hwf as [|video videos (vid & cid & Hvid & Hcid & Hscan) _ IH];
      intros results fs; simpl.
    { exists [], fs, []. by rewrite app_nil_r. }
    destruct (process_video_returns fuel video vid cid dir known names fs
                Hvid Hcid Hscan) as (r & fs1 & t1 & Hr & Hid).
    destruct (IH (results ++ [r]) fs1) as (rs & fs2 & t2 & Hrest & Hall).
    exists (r :: rs), fs2, (t1 ++ t2). split.
    + rewrite (bind_ok _ _ _ _ _ _ Hr), Hrest. simpl.
      by rewrite <- app_assoc.
    + constructor; [by rewrite Hid|done].
Qed.

Lemma video_and_channel_info_loop_exhausted attempts vid cid :
  (∀ n, n ∈ attempts → attempt_fails E vid cid n) →
  ∃ t, ∀ fs,
    video_and_channel_info_loop E attempts vid cid fs = Some (Ok ("", ""), fs, t).
Proof.
  induction attempts as [|n rest IH]; intros Hfail; simpl; [by exists []|].
  destruct IH as (t & IH); [intros; apply Hfail; by right|].
  destruct (Hfail n ltac:(by left)) as [Hv | (items & item & Hv & Hitem & Hc)].
  - exists ([EvVideosList vid n; EvSleep] ++ t). intros fs.
    match goal with
    | |- (try_except_http ?body ?handler ≫= _) _ = _ =>
        assert (try_except_http body handler fs
                = Some (Ok None, fs, [EvVideosList vid n; EvSleep])) as Hattempt
    end.
    { unfold try_except_http. rewrite bind_call, Hv. reflexivity. }
    by rewrite (bind_ok _ _ _ _ _ _ Hattempt), IH.
  - exists ([EvVideosList vid n; EvChannelsList cid n; EvSleep] ++ t). intros fs.
    match goal with
    | |- (try_except_http ?body ?handler ≫= _) _ = _ =>
        assert (try_except_http body handler fs
                = Some (Ok None, fs,
                        [EvVideosList vid n; EvChannelsList cid n; EvSleep]))
          as Hattempt
    end.
    { unfold try_except_http. rewrite bind_call, Hv.
      rewrite (py_index_Some _ _ _ Hitem), bind_ret, bind_call, Hc.
      reflexivity. }
    by rewrite (bind_ok _ _ _ _ _ _ Hattempt), IH.
Qed.

(** C10 (amended): on a record that carries both identifiers and the frame
    scan of whose video ends, when every one of the three metadata attempts
    ends in an [HttpError], both URLs come back empty, both image checks are
    skipped and recorded false (the trace goes from the metadata calls
    straight to the first download attempt), and the video is not failed:
    the video step runs, and when it returns its verdict is recorded.  The
    video step raises only when the file it downloaded cannot be unlinked;
    the record is then the all-false one. *)
Theorem metadata_exhaustion_skips_both_images fuel video vid cid dir known names fs :
  video !! "video_id" = Some vid → video !! "channel_id" = Some cid →
  scan_halts E fuel (video_file dir vid) →
  exhausted E vid cid 3 →
  ∃ t0 rv fs' tv,
    (∀ fs0, get_video_and_channel_info E vid cid 3 fs0
            = Some (Ok ("", ""), fs0, t0)) ∧
    check_video_frames E fuel vid dir known names fs
    = Some (rv, fs', EvYdlDownload vid 0 :: tv) ∧
    (∀ e, rv = Raise e → undeletable E (video_file dir vid) = true) ∧
    process_video E fuel video dir known names fs
    = Some (Ok match rv with
               | Ok in_v =>
                   {| video_id := vid;
                      has_known_face_in_thumbnail := false;
                      has_known_face_in_avatar := false;
                      has_known_face_in_video := in_v |}
               | Raise _ => no_match vid
               end,
            fs', t0 ++ EvYdlDownload vid 0 :: tv).
Proof.
  intros Hvid Hcid Hscan Hex.
  destruct (video_and_channel_info_loop_exhausted (seq 0 3) vid cid)
    as (t0 & Hinfo).
  { intros n Hn%elem_of_seq. apply Hex. lia. }
  destruct (check_video_frames_spec fuel vid dir known names fs Hscan)
    as (rv & fs' & tv & Hv & Hraise).
  exists t0, rv, fs', tv. split; [exact Hinfo|]. split; [exact Hv|].
  split; [exact Hraise|].
  exact (process_video_resolved fuel video vid cid dir known names fs
           "" "" t0 false [] false [] rv fs' _ Hvid Hcid (Hinfo fs)
           eq_refl eq_refl Hv).
Qed.

End Orchestrator.

(** ** The orchestrator on the concrete environments *)

Lemma demo_scan_bounded E path :
  cap_fps E path = (30 # 1)%Q → cap_frame_count E path = (100 # 1)%Q →
  scan_bounded (Pil := nat) (Img := nat) (Enc := Z) E 100 path.
Proof. intros Hfps Hcount. unfold scan_bounded. rewrite Hfps, Hcount. by compute. Qed.

Lemma demo_scan_halts E path :
  cap_fps E path = (30 # 1)%Q → cap_frame_count E path = (100 # 1)%Q →
  scan_halts (Pil := nat) (Img := nat) (Enc := Z) E 100 path.
Proof. intros Hfps Hcount. by apply scan_bounded_halts, demo_scan_bounded. Qed.

Lemma checks_are_independent_witness :
  ∃ in_t tt in_a ta rv fs' tv,
    (∀ fs0, check_image_url Demo.env "http://img/thumb" Demo.gallery Demo.names fs0
            = Some (Ok in_t, fs0, tt)) ∧
    (∀ fs0, check_image_url Demo.env "http://img/avatar" Demo.gallery Demo.names fs0
            = Some (Ok in_a, fs0, ta)) ∧
    check_video_frames Demo.env 100 "v1" "/tmp/tmpface" Demo.gallery Demo.names ∅
    = Some (rv, fs', EvYdlDownload "v1" 0 :: tv) ∧
    (∀ e, rv = Raise e → undeletable Demo.env (video_file "/tmp/tmpface" "v1") = true) ∧
    process_video Demo.env 100 Demo.v1 "/tmp/tmpface" Demo.gallery Demo.names ∅
    = Some (Ok match rv with
               | Ok in_v =>
                   {| video_id := "v1";
                      has_known_face_in_thumbnail := in_t;
                      has_known_face_in_avatar := in_a;
                      has_known_face_in_video := in_v |}
               | Raise _ => no_match "v1"
               end,
            fs', [EvVideosList "v1" 0; EvChannelsList "c1" 0] ++ tt ++ ta
                   ++ EvYdlDownload "v1" 0 :: tv).
Proof.
  apply (checks_are_independent Demo.env 100 Demo.v1 "v1" "c1").
  - reflexivity.
  - reflexivity.
  - reflexivity.
  - by apply demo_scan_halts.
Defined.

(** C5 as stated fails: the thumbnail check finds a known face, and so does
    the video step up to its last call; [os.remove] raises there, and the
    record holds false for the thumbnail as for the rest. *)
Lemma failed_cleanup_discards_image_verdicts :
  get_video_and_channel_info Demo.locked "v1" "c1" 3 ∅
  = Some (Ok ("http://img/thumb", "http://img/avatar"), ∅,
          [EvVideosList "v1" 0; EvChannelsList "c1" 0]) ∧
  outcome (check_image_url Demo.locked "http://img/thumb" Demo.gallery
             Demo.names ∅) = Some (Ok true, ∅) ∧
  outcome (check_video_frames Demo.locked 100 "v1" "/tmp/tmpface" Demo.gallery
             Demo.names ∅) = Some (Raise OSError, {[ "/tmp/tmpface/v1.mp4" ]}) ∧
  outcome (process_video Demo.locked 100 Demo.v1 "/tmp/tmpface" Demo.gallery
             Demo.names ∅)
  = Some (Ok {| video_id := "v1"; has_known_face_in_thumbnail := false;
                has_known_face_in_avatar := false;
                has_known_face_in_video := false |},
          {[ "/tmp/tmpface/v1.mp4" ]}).
Proof. repeat split; by vm_compute. Qed.

Lemma unopened_scan_halts path : scan_halts Scenario3.unopened 100 path.
Proof. unfold scan_halts. by vm_compute. Qed.

Lemma temp_file_removed_witness :
  ("/tmp/tmpface/v1.mp4" ∈ ({[ "/tmp/tmpface/v1.mp4" ]} : Files) ∧
   ∃ r fs' t,
     process_video Demo.env 100 Demo.v1 "/tmp/tmpface" Demo.gallery Demo.names ∅
     = Some (Ok r, fs', t ++ [EvRemove "/tmp/tmpface/v1.mp4"]) ∧
     if undeletable Demo.env "/tmp/tmpface/v1.mp4"
     then r = no_match "v1" ∧ fs' = {[ "/tmp/tmpface/v1.mp4" ]}
     else fs' = ({[ "/tmp/tmpface/v1.mp4" ]} : Files) ∖ {[ "/tmp/tmpface/v1.mp4" ]} ∧
          "/tmp/tmpface/v1.mp4" ∉ fs') ∧
  ("/tmp/tmpface/v1.mp4" ∈ ({[ "/tmp/tmpface/v1.mp4" ]} : Files) ∧
   ∃ r fs' t,
     process_video Scenario3.unopened 100 Demo.v1 "/tmp/tmpface" Demo.gallery
       Demo.names ∅
     = Some (Ok r, fs', t ++ [EvRemove "/tmp/tmpface/v1.mp4"]) ∧
     if undeletable Scenario3.unopened "/tmp/tmpface/v1.mp4"
     then r = no_match "v1" ∧ fs' = {[ "/tmp/tmpface/v1.mp4" ]}
     else fs' = ({[ "/tmp/tmpface/v1.mp4" ]} : Files) ∖ {[ "/tmp/tmpface/v1.mp4" ]} ∧
          "/tmp/tmpface/v1.mp4" ∉ fs').
Proof.
  split.
  - apply (temp_file_removed Demo.env 100 Demo.v1 "v1" "c1" "/tmp/tmpface"
             Demo.gallery Demo.names ∅ ("http://img/thumb", "http://img/avatar")
             [EvVideosList "v1" 0; EvChannelsList "c1" 0]
             "/tmp/tmpface/v1.mp4" {[ "/tmp/tmpface/v1.mp4" ]}
             [EvYdlDownload "v1" 0]).
    + reflexivity.
    + reflexivity.
    + reflexivity.
    + by vm_compute.
    + by apply demo_scan_halts.
  - apply (temp_file_removed Scenario3.unopened 100 Demo.v1 "v1" "c1" "/tmp/tmpface"
             Demo.gallery Demo.names ∅ ("http://img/thumb", "http://img/avatar")
             [EvVideosList "v1" 0; EvChannelsList "c1" 0]
             "/tmp/tmpface/v1.mp4" {[ "/tmp/tmpface/v1.mp4" ]}
             [EvYdlDownload "v1" 0]).
    + reflexivity.
    + reflexivity.
    + reflexivity.
    + by vm_compute.
    + apply unopened_scan_halts.
Defined.

(** A download that does not open as a video is scanned at once -- no frame
    is read -- and removed. *)
Example unopened_download_removed :
  process_video Scenario3.unopened 100 Demo.v1 "/tmp/tmpface" Demo.gallery
    Demo.names ∅
  = Some (Ok {| video_id := "v1"; has_known_face_in_thumbnail := true;
                has_known_face_in_avatar := false;
                has_known_face_in_video := false |}, ∅,
          [EvVideosList "v1" 0; EvChannelsList "c1" 0;
           EvRequestsGet "http://img/thumb"; EvFaceLocations;
           EvFaceEncodings (0, 200, 100, 100);
           EvFaceEncodings (0, 400, 100, 300); EvMatch "bob";
           EvRequestsGet "http://img/avatar"; EvFaceLocations;
           EvFaceEncodings (0, 200, 100, 100); EvYdlDownload "v1" 0;
           EvRemove "/tmp/tmpface/v1.mp4"]).
Proof. by vm_compute. Qed.

(** C1 as stated fails: the download succeeds, [os.remove] raises, the
    handler returns the all-false record, and the file is still there. *)
Lemma locked_file_left_behind :
  let run := process_video Demo.locked 100 Demo.v1 "/tmp/tmpface" Demo.gallery
               Demo.names ∅ in
  outcome run = Some (Ok (no_match "v1"), {[ "/tmp/tmpface/v1.mp4" ]}) ∧
  EvYdlDownload "v1" 0 ∈ events run ∧
  EvRemove "/tmp/tmpface/v1.mp4" ∈ events run.
Proof.
  split; [by vm_compute|].
  split; apply (bool_decide_unpack _); by vm_compute.
Qed.

Lemma demo_well_formed : Forall (well_formed Demo.env 100 "/tmp/tmpface") Demo.records.
Proof.
  repeat constructor.
  - exists "v1", "c1". repeat split; try reflexivity; by apply demo_scan_halts.
  - exists "gone", "c1". repeat split; try reflexivity; by apply demo_scan_halts.
  - exists "v2", "c2". repeat split; try reflexivity; by apply demo_scan_halts.
Qed.

Lemma failures_are_isolated_witness :
  ∃ rs fs' t,
    process_videos Demo.env 100 Demo.records "/tmp/tmpface" Demo.gallery
      Demo.names [] ∅
    = Some (Ok ([] ++ rs), fs', t) ∧
    Forall2 (λ video r, video !! "video_id" = Some (video_id r)) Demo.records rs.
Proof.
  apply (proj2 (proj2 (failures_are_isolated Demo.env 100 "/tmp/tmpface"
                         Demo.gallery Demo.names))).
  exact demo_well_formed.
Defined.

(** The second record fails inside (the API has no item for it); the third
    is processed all the same. *)
Example demo_failure_in_the_middle :
  outcome (process_videos Demo.env 100 Demo.records "/tmp/tmpface" Demo.gallery
             Demo.names [] ∅)
  = Some (Ok [ {| video_id := "v1"; has_known_face_in_thumbnail := true;
                  has_known_face_in_avatar := false;
                  has_known_face_in_video := true |};
               no_match "gone";
               {| video_id := "v2"; has_known_face_in_thumbnail := true;
                  has_known_face_in_avatar := false;
                  has_known_face_in_video := true |} ], ∅).
Proof. by vm_compute. Qed.

(** C2 as stated fails: the first of two records lacks [video_id]; the
    [KeyError] leaves [process_video], [main] takes it for a failure of the
    whole input, and the run ends with no result written and the second
    record untouched. *)
Lemma missing_field_aborts_run :
  json_load Demo.missing_field "videos.json"
  = Ok [ {[ "title" := "untitled" ]};
         {[ "video_id" := "v2"; "channel_id" := "c2" ]} ] ∧
  process_video Demo.missing_field 100 {[ "title" := "untitled" ]}
    "/tmp/tmpface" Demo.gallery Demo.names ∅
  = Some (Raise (KeyError "video_id"), ∅, []) ∧
  main Demo.missing_field 100 "videos.json" ∅
  = Some (Ok (), ∅,
          [EvLoadImageFile "known_faces/alice.jpg";
           EvLoadImageFile "known_faces/bob.PNG";
           EvLoadImageFile "known_faces/blank.jpeg";
           EvLoadImageFile "known_faces/bobby.JPEG";
           EvJsonLoad "videos.json"; EvRmtree "/tmp/tmpface"]).
Proof. repeat split; by vm_compute. Qed.

Lemma demo_loadable f : f ∈ image_files Demo.face_files → loadable Demo.env "known_faces" f.
Proof.
  change (image_files Demo.face_files)
    with ["alice.jpg"; "bob.PNG"; "blank.jpeg"; "bobby.JPEG"].
  intros H. repeat (apply elem_of_cons in H as [-> | H]);
    [by eexists _, _..|by apply elem_of_nil in H].
Qed.

Lemma gallery_precondition_witness :
  (∃ t, Forall gallery_event t ∧
        ∀ fs, load_known_faces Demo.no_gallery "known_faces" fs
              = Some (Ok ([], []), fs, t) ∧
              main Demo.no_gallery 100 "videos.json" fs
              = Some (Ok (), fs, t ++ [EvNoKnownFaces])) ∧
  (load_known_faces Demo.env "known_faces" ∅
   = Some (Ok ((omap (gallery_entry Demo.env "known_faces")
                  (image_files Demo.face_files)).*1,
               (omap (gallery_entry Demo.env "known_faces")
                  (image_files Demo.face_files)).*2),
           ∅, loads "known_faces" Demo.face_files) ∧
   main Demo.env 100 "videos.json" ∅
   = prepend (loads "known_faces" Demo.face_files)
       (run_videos Demo.env 100 "videos.json"
          (omap (gallery_entry Demo.env "known_faces")
             (image_files Demo.face_files)).*1
          (omap (gallery_entry Demo.env "known_faces")
             (image_files Demo.face_files)).*2
          ∅)).
Proof.
  split.
  - apply (proj1 (gallery_precondition Demo.no_gallery 100 "videos.json")).
    by left.
  - apply (proj1 (proj2 (proj2 (gallery_precondition Demo.env 100 "videos.json")))
             Demo.face_files).
    + reflexivity.
    + exact demo_loadable.
    + by vm_compute.
Defined.

Example demo_gallery :
  load_known_faces Demo.env "known_faces" ∅
  = Some (Ok (Demo.gallery, Demo.names), ∅,
          EvLoadImageFile <$> (path_join "known_faces" <$> image_files Demo.face_files)).
Proof. by vm_compute. Qed.

Lemma metadata_exhaustion_skips_both_images_witness :
  ∃ t0 rv fs' tv,
    (∀ fs0, get_video_and_channel_info Demo.no_channel "v1" "c1" 3 fs0
            = Some (Ok ("", ""), fs0, t0)) ∧
    check_video_frames Demo.no_channel 100 "v1" "/tmp/tmpface" Demo.gallery
      Demo.names ∅ = Some (rv, fs', EvYdlDownload "v1" 0 :: tv) ∧
    (∀ e, rv = Raise e
          → undeletable Demo.no_channel (video_file "/tmp/tmpface" "v1") = true) ∧
    process_video Demo.no_channel 100 Demo.v1 "/tmp/tmpface" Demo.gallery Demo.names ∅
    = Some (Ok match rv with
               | Ok in_v =>
                   {| video_id := "v1";
                      has_known_face_in_thumbnail := false;
                      has_known_face_in_avatar := false;
                      has_known_face_in_video := in_v |}
               | Raise _ => no_match "v1"
               end,
            fs', t0 ++ EvYdlDownload "v1" 0 :: tv).
Proof.
  apply (metadata_exhaustion_skips_both_images Demo.no_channel 100 Demo.v1 "v1" "c1").
  - reflexivity.
  - reflexivity.
  - by apply demo_scan_halts.
  - intros n _. right.
    by exists [Demo.thumbnails_of "http://img/thumb"],
              (Demo.thumbnails_of "http://img/thumb").
Defined.

(** C10 as stated fails: the video request resolves the thumbnail URL at
    every attempt and only the channel request fails, yet the thumbnail is
    never fetched and its check -- which finds a known face -- is skipped. *)
Lemma channel_failure_drops_thumbnail :
  let run := process_video Demo.no_channel 100 Demo.v1 "/tmp/tmpface" Demo.gallery
               Demo.names ∅ in
  (∀ n, videos_list Demo.no_channel "v1" n
        = Ok [Demo.thumbnails_of "http://img/thumb"]) ∧
  outcome (check_image_url Demo.no_channel "http://img/thumb" Demo.gallery
             Demo.names ∅) = Some (Ok true, ∅) ∧
  outcome run
  = Some (Ok {| video_id := "v1"; has_known_face_in_thumbnail := false;
                has_known_face_in_avatar := false;
                has_known_face_in_video := true |}, ∅) ∧
  EvRequestsGet "http://img/thumb" ∉ events run.
Proof.
  split; [done|]. split; [by vm_compute|]. split; [by vm_compute|].
  apply (bool_decide_unpack _). by vm_compute.
Qed.

(** * Further properties *)

(** ** download_video *)

Section Download.

Context {Pil Img Enc : Type} (E : Env Pil Img Enc).

(** An attempt that raises, as a run: the exception is caught, the program
    pauses, and what yt-dlp wrote before it raised is on disk. *)
Lemma failed_download_attempt vid dir n fs :
  (∃ e, (ydl_download E vid n).1 = Raise e) →
  try_except
    (let output_path := path_join dir (vid +:+ ".mp4") in
     run_ydl E vid n output_path;;
     found ← path_exists output_path;
     if found : bool then mret (Some (Some output_path))
     else mret (Some None))
    (λ _, emit EvSleep;; mret None) fs
  = Some (Ok None, ydl_files E vid n (video_file dir vid) ∪ fs,
          failed_download vid n).
Proof.
  intros (e & He).
  destruct (download_attempt_spec E vid dir n fs) as (r & t & Hrun & Hr).
  rewrite Hrun. destruct r as [[path|]|].
  - destruct Hr as (Hok & _). by rewrite He in Hok.
  - destruct Hr as (Hok & _). by rewrite He in Hok.
  - by destruct Hr as (_ & ->).
Qed.

Lemma download_video_loop_failures pre rest vid dir :
  (∀ n, n ∈ pre → ∃ e, (ydl_download E vid n).1 = Raise e) →
  ∀ fs,
    download_video_loop E (pre ++ rest) vid dir fs
    = prepend (pre ≫= failed_download vid)
        (download_video_loop E rest vid dir (left_by E dir vid pre ∪ fs)).
Proof.
  induction pre as [|n pre IH]; intros Hfail fs; simpl.
  { rewrite prepend_nil. unfold left_by. simpl. by rewrite union_empty_l_L. }
  rewrite (bind_ok _ _ _ _ _ _
             (failed_download_attempt vid dir n fs (Hfail n ltac:(by left)))).
  cbv beta iota.
  rewrite IH by (intros; apply Hfail; by right).
  rewrite prepend_prepend, left_by_cons.
  by rewrite (comm_L (∪) (ydl_files _ _ _ _) (left_by _ _ _ _)),
       <- (assoc_L (∪)).
Qed.

(** X1: when each of the [retries] download attempts raises,
    [download_video] returns nothing, without raising; it has tried exactly
    [retries] times and slept after every failure.  It removes nothing: the
    files on disk are those of before and those that the failed attempts
    left behind. *)
Theorem download_video_gives_up vid dir retries fs :
  (∀ n, (n < retries)%nat → ∃ e, (ydl_download E vid n).1 = Raise e) →
  download_video E vid dir retries fs
  = Some (Ok None, left_by E dir vid (seq 0 retries) ∪ fs,
          seq 0 retries ≫= failed_download vid).
Proof.
  intros Hfail. unfold download_video.
  rewrite <- (app_nil_r (seq 0 retries)) at 1.
  rewrite download_video_loop_failures
    by (intros n Hn%elem_of_seq; apply Hfail; lia).
  simpl. by rewrite app_nil_r.
Qed.

(** X2: the first attempt that does not raise ends [download_video],
    whatever number of retries is left.  If the file is there -- written by
    this attempt, or found under that name from before -- its path is
    returned; if not, nothing is returned and the download is not tried
    again.  The files on disk are those of before and those that the
    attempts, this one included, have left. *)
Theorem download_video_first_completion vid dir retries k fs :
  (k < retries)%nat →
  (∀ n, (n < k)%nat → ∃ e, (ydl_download E vid n).1 = Raise e) →
  (ydl_download E vid k).1 = Ok () →
  download_video E vid dir retries fs
  = Some (Ok (if bool_decide (video_file dir vid
                              ∈ ydl_files E vid k (video_file dir vid)
                                ∪ (left_by E dir vid (seq 0 k) ∪ fs))
              then Some (video_file dir vid) else None),
          ydl_files E vid k (video_file dir vid)
            ∪ (left_by E dir vid (seq 0 k) ∪ fs),
          (seq 0 k ≫= failed_download vid) ++ [EvYdlDownload vid k]).
Proof.
  intros Hk Hfail Hdone. unfold download_video.
  replace retries with (k + S (retries - S k))%nat by lia.
  rewrite seq_app. simpl seq.
  rewrite download_video_loop_failures
    by (intros n Hn%elem_of_seq; apply Hfail; lia).
  simpl.
  destruct (download_attempt_spec E vid dir k (left_by E dir vid (seq 0 k) ∪ fs))
    as (r & t & Hrun & Hr).
  rewrite (bind_ok _ _ _ _ _ _ Hrun).
  destruct r as [[path|]|].
  - destruct Hr as (_ & -> & -> & Hin).
    by rewrite bool_decide_true.
  - destruct Hr as (_ & -> & Hout).
    by rewrite bool_decide_false.
  - destruct Hr as ((e & He) & _). by rewrite He in Hdone.
Qed.

End Download.

Lemma download_video_gives_up_witness :
  download_video Scenario.offline "v1" "/tmp/tmpface" 3 ∅
  = Some (Ok None, left_by Scenario.offline "/tmp/tmpface" "v1" (seq 0 3) ∪ ∅,
          seq 0 3 ≫= failed_download "v1").
Proof.
  apply (download_video_gives_up Scenario.offline). intros n _. by eexists.
Defined.

(** Each failed attempt leaves its partial file, under the same name. *)
Example offline_leftovers :
  left_by Scenario.offline "/tmp/tmpface" "v1" (seq 0 3) ∪ ∅
  = ({[ "/tmp/tmpface/v1.mp4.part" ]} : Files).
Proof. by vm_compute. Qed.

Lemma download_video_first_completion_witness :
  download_video Scenario.flaky "v1" "/tmp/tmpface" 3 ∅
  = Some (Ok (if bool_decide (video_file "/tmp/tmpface" "v1"
                              ∈ ydl_files Scenario.flaky "v1" 2
                                  (video_file "/tmp/tmpface" "v1")
                                ∪ (left_by Scenario.flaky "/tmp/tmpface" "v1" (seq 0 2)
                                   ∪ ∅))
              then Some (video_file "/tmp/tmpface" "v1") else None),
          ydl_files Scenario.flaky "v1" 2 (video_file "/tmp/tmpface" "v1")
            ∪ (left_by Scenario.flaky "/tmp/tmpface" "v1" (seq 0 2) ∪ ∅),
          (seq 0 2 ≫= failed_download "v1") ++ [EvYdlDownload "v1" 2]).
Proof.
  apply (download_video_first_completion Scenario.flaky "v1" "/tmp/tmpface" 3 2).
  - lia.
  - intros n Hn. exists LibraryError. simpl.
    destruct n as [|[|n]]; [done|done|lia].
  - reflexivity.
Defined.

(** The third attempt succeeds: the path is returned, and the partial file of
    the first two is beside the video. *)
Example flaky_download :
  outcome (download_video Scenario.flaky "v1" "/tmp/tmpface" 3 ∅)
  = Some (Ok (Some "/tmp/tmpface/v1.mp4"),
          {[ "/tmp/tmpface/v1.mp4"; "/tmp/tmpface/v1.mp4.part" ]}).
Proof. by vm_compute. Qed.

(** ** get_video_and_channel_info *)

Section Metadata.

Context {Pil Img Enc : Type} (E : Env Pil Img Enc).

Lemma sleeps_app t1 t2 : sleeps (t1 ++ t2) = (sleeps t1 + sleeps t2)%nat.
Proof. unfold sleeps. by rewrite filter_app, length_app. Qed.

(** A failed attempt, as a run: it is caught, followed by one pause, and
    hands [None] to the loop. *)
Lemma failed_attempt_run vid cid n :
  attempt_fails E vid cid n →
  ∃ t, sleeps t = 1%nat ∧
       ∀ (k : option (string * string) → M (string * string)) fs,
         (try_except_http
            (video_items ← call (EvVideosList vid n) (videos_list E vid n);
             video_item ← py_index video_items 0;
             let thumbnail_url := high_url video_item in
             channel_items ← call (EvChannelsList cid n) (channels_list E cid n);
             channel_item ← py_index channel_items 0;
             let avatar_url := high_url channel_item in
             mret (Some (thumbnail_url, avatar_url)))
            (emit EvSleep;; mret None) ≫= k) fs
         = prepend t (k None fs).
Proof.
  intros [Hv | (items & item & Hv & Hitem & Hc)].
  - exists [EvVideosList vid n; EvSleep]. split; [done|]. intros k fs.
    match goal with
    | |- (try_except_http ?body ?handler ≫= _) _ = _ =>
        assert (try_except_http body handler fs
                = Some (Ok None, fs, [EvVideosList vid n; EvSleep])) as Hattempt
    end.
    { unfold try_except_http. rewrite bind_call, Hv. reflexivity. }
    by rewrite (bind_ok _ _ _ _ _ _ Hattempt).
  - exists [EvVideosList vid n; EvChannelsList cid n; EvSleep].
    split; [done|]. intros k fs.
    match goal with
    | |- (try_except_http ?body ?handler ≫= _) _ = _ =>
        assert (try_except_http body handler fs
                = Some (Ok None, fs,
                        [EvVideosList vid n; EvChannelsList cid n; EvSleep]))
          as Hattempt
    end.
    { unfold try_except_http. rewrite bind_call, Hv.
      rewrite (py_index_Some _ _ _ Hitem), bind_ret, bind_call, Hc.
      reflexivity. }
    by rewrite (bind_ok _ _ _ _ _ _ Hattempt).
Qed.

Lemma video_and_channel_info_loop_failures pre rest vid cid :
  (∀ n, n ∈ pre → attempt_fails E vid cid n) →
  ∃ t, sleeps t = length pre ∧
       ∀ fs, video_and_channel_info_loop E (pre ++ rest) vid cid fs
             = prepend t (video_and_channel_info_loop E rest vid cid fs).
Proof.
  induction pre as [|n pre IH]; intros Hfail; simpl.
  { exists []. split; [done|]. intros fs. by rewrite prepend_nil. }
  destruct IH as (t & Ht & IH); [intros; apply Hfail; by right|].
  destruct (failed_attempt_run vid cid n (Hfail n ltac:(by left)))
    as (t1 & Ht1 & Hrun).
  exists (t1 ++ t). split; [by rewrite sleeps_app, Ht1, Ht|].
  intros fs. rewrite Hrun. cbv beta iota. by rewrite IH, prepend_prepend.
Qed.

(** An attempt that breaks, as a run: the exception passes the handler. *)
Lemma broken_attempt_run vid cid n e rest fs :
  attempt_breaks E vid cid n e →
  ∃ t, (t = [EvVideosList vid n] ∨ t = [EvVideosList vid n; EvChannelsList cid n]) ∧
       video_and_channel_info_loop E (n :: rest) vid cid fs
       = Some (Raise e, fs, t).
Proof.
  intros [He H]. simpl.
  assert (∀ t body handler,
            body fs = Some (Raise e, fs, t) →
            @try_except_http (option (string * string)) body handler fs
            = Some (Raise e, fs, t)) as Hpass.
  { intros t body handler Hbody. unfold try_except_http. by rewrite Hbody, He. }
  destruct H as [Hv | [[Hv ->] | (item & vrest & Hv & [Hc | [Hc ->]])]].
  - exists [EvVideosList vid n]. split; [by left|].
    erewrite bind_raise; [done|]. apply Hpass. by rewrite bind_call, Hv.
  - exists [EvVideosList vid n]. split; [by left|].
    erewrite bind_raise; [done|]. apply Hpass. by rewrite bind_call, Hv.
  - exists [EvVideosList vid n; EvChannelsList cid n]. split; [by right|].
    erewrite bind_raise; [done|]. apply Hpass.
    rewrite bind_call, Hv.
    rewrite (py_index_Some (item :: vrest) 0%nat item eq_refl).
    by rewrite bind_ret, bind_call, Hc.
  - exists [EvVideosList vid n; EvChannelsList cid n]. split; [by right|].
    erewrite bind_raise; [done|]. apply Hpass.
    rewrite bind_call, Hv.
    rewrite (py_index_Some (item :: vrest) 0%nat item eq_refl).
    by rewrite bind_ret, bind_call, Hc.
Qed.

(** X3: an exception of the first metadata attempt that is not an
    [HttpError] -- also the [IndexError] for a video or channel the API
    lists no item for -- is not retried: it leaves
    [get_video_and_channel_info] after one or two requests, and
    [process_video] ends in its handler with the all-false record; nothing
    is downloaded and no check runs. *)
Theorem metadata_error_fails_the_video fuel video vid cid dir known names fs e :
  video !! "video_id" = Some vid → video !! "channel_id" = Some cid →
  attempt_breaks E vid cid 0 e →
  ∃ t,
    (t = [EvVideosList vid 0] ∨ t = [EvVideosList vid 0; EvChannelsList cid 0]) ∧
    get_video_and_channel_info E vid cid 3 fs = Some (Raise e, fs, t) ∧
    process_video E fuel video dir known names fs
    = Some (Ok (no_match vid), fs, t).
Proof.
  intros Hvid Hcid Hbreak.
  destruct (broken_attempt_run vid cid 0 e (seq 1 2) fs Hbreak) as (t & Ht & Hrun).
  exists t. split; [done|]. split; [exact Hrun|].
  exact (process_video_unresolved E fuel video vid cid dir known names fs e t
           Hvid Hcid Hrun).
Qed.

(** X4: after [k] attempts that ended in an [HttpError], an attempt within
    the retries that gets both answers ends the loop: the two URLs are the
    [url] of the [high] thumbnail of the first item of each answer (empty
    where there is none), and the program has paused [k] times. *)
Theorem metadata_resolved_after_retries vid cid retries k
    vitem vrest citem crest :
  (k < retries)%nat →
  (∀ n, (n < k)%nat → attempt_fails E vid cid n) →
  videos_list E vid k = Ok (vitem :: vrest) →
  channels_list E cid k = Ok (citem :: crest) →
  ∃ t, sleeps t = k ∧
       ∀ fs, get_video_and_channel_info E vid cid retries fs
             = Some (Ok (default "" (default ∅ (vitem !! "high") !! "url"),
                         default "" (default ∅ (citem !! "high") !! "url")),
                     fs, t ++ [EvVideosList vid k; EvChannelsList cid k]).
Proof.
  intros Hk Hfail Hv Hc. unfold get_video_and_channel_info.
  replace retries with (k + S (retries - S k))%nat by lia.
  rewrite seq_app. simpl seq.
  destruct (video_and_channel_info_loop_failures (seq 0 k)
              (k :: seq (S k) (retries - S k)) vid cid) as (t & Ht & Hloop).
  { intros n Hn%elem_of_seq. apply Hfail. lia. }
  exists t. split; [by rewrite Ht, length_seq|]. intros fs.
  rewrite Hloop. simpl.
  match goal with
  | |- prepend _ ((try_except_http ?body ?handler ≫= _) _) = _ =>
      assert (try_except_http body handler fs
              = Some (Ok (Some (high_url vitem, high_url citem)), fs,
                      [EvVideosList vid k; EvChannelsList cid k])) as Hattempt
  end.
  { unfold try_except_http. rewrite bind_call, Hv.
    rewrite (py_index_Some (vitem :: vrest) 0%nat vitem eq_refl).
    rewrite bind_ret, bind_call, Hc. reflexivity. }
  by rewrite (bind_ok _ _ _ _ _ _ Hattempt).
Qed.

(** X5: when every download attempt raises, the video costs only its own
    verdict: [process_video] records the verdicts of the two image checks
    and false for the video, reads no frame and removes nothing (what the
    failed attempts left is on disk at the return).  No condition on the
    video source is needed. *)
Theorem unfetchable_video_keeps_image_verdicts fuel video vid cid dir known
    names fs turl aurl t0 :
  video !! "video_id" = Some vid → video !! "channel_id" = Some cid →
  get_video_and_channel_info E vid cid 3 fs = Some (Ok (turl, aurl), fs, t0) →
  (∀ n, (n < 3)%nat → ∃ e, (ydl_download E vid n).1 = Raise e) →
  ∃ in_t tt in_a ta,
    (∀ fs0, check_image_url E turl known names fs0 = Some (Ok in_t, fs0, tt)) ∧
    (∀ fs0, check_image_url E aurl known names fs0 = Some (Ok in_a, fs0, ta)) ∧
    process_video E fuel video dir known names fs
    = Some (Ok {| video_id := vid;
                  has_known_face_in_thumbnail := in_t;
                  has_known_face_in_avatar := in_a;
                  has_known_face_in_video := false |},
            left_by E dir vid (seq 0 3) ∪ fs,
            t0 ++ tt ++ ta ++ (seq 0 3 ≫= failed_download vid)).
Proof.
  intros Hvid Hcid Hinfo Hfail.
  destruct (safe_check_image_url E turl known names) as (in_t & tt & Ht).
  destruct (safe_check_image_url E aurl known names) as (in_a & ta & Ha).
  exists in_t, tt, in_a, ta. split; [done|]. split; [done|].
  assert (check_video_frames E fuel vid dir known names fs
          = Some (Ok false, left_by E dir vid (seq 0 3) ∪ fs,
                  seq 0 3 ≫= failed_download vid)) as Hv.
  { assert (download_video_loop E (seq 0 3) vid dir fs
            = Some (Ok None, left_by E dir vid (seq 0 3) ∪ fs,
                    seq 0 3 ≫= failed_download vid)) as Hdl.
    { rewrite <- (app_nil_r (seq 0 3)) at 1.
      rewrite (download_video_loop_failures E)
        by (intros n Hn%elem_of_seq; apply Hfail; lia).
      simpl. by rewrite ?app_nil_r. }
    unfold check_video_frames, download_video.
    rewrite (bind_ok _ _ _ _ _ _ Hdl). simpl. by rewrite ?app_nil_r. }
  exact (process_video_resolved E fuel video vid cid dir known names fs
           turl aurl t0 in_t tt in_a ta (Ok false) _ _ Hvid Hcid Hinfo
           (Ht fs) (Ha fs) Hv).
Qed.

End Metadata.

Lemma metadata_error_fails_the_video_witness :
  ∃ t,
    (t = [EvVideosList "gone" 0] ∨
     t = [EvVideosList "gone" 0; EvChannelsList "c1" 0]) ∧
    get_video_and_channel_info Demo.env "gone" "c1" 3 ∅
    = Some (Raise IndexError, ∅, t) ∧
    process_video Demo.env 0 {[ "video_id" := "gone"; "channel_id" := "c1" ]}
      "/tmp/tmpface" Demo.gallery Demo.names ∅
    = Some (Ok (no_match "gone"), ∅, t).
Proof.
  apply (metadata_error_fails_the_video Demo.env 0
           {[ "video_id" := "gone"; "channel_id" := "c1" ]} "gone" "c1").
  - reflexivity.
  - reflexivity.
  - split; [reflexivity|]. right; left. by split.
Defined.

Lemma metadata_resolved_after_retries_witness :
  ∃ t, sleeps t = 2%nat ∧
       ∀ fs, get_video_and_channel_info Scenario2.throttled "v1" "c1" 3 fs
             = Some (Ok (default "" (default ∅ (Demo.thumbnails_of "http://img/thumb" !! "high") !! "url"),
                         default "" (default ∅ (({[ "default" := {[ "url" := "http://img/small" ]} ]} : Thumbnails) !! "high") !! "url")),
                     fs, t ++ [EvVideosList "v1" 2; EvChannelsList "c1" 2]).
Proof.
  apply (metadata_resolved_after_retries Scenario2.throttled "v1" "c1" 3 2
           _ [] _ []).
  - lia.
  - intros [|[|n]] Hn; [by left| |lia].
    right. by exists [Demo.thumbnails_of "http://img/thumb"],
                     (Demo.thumbnails_of "http://img/thumb").
  - reflexivity.
  - reflexivity.
Defined.

Example throttled_urls :
  outcome (get_video_and_channel_info Scenario2.throttled "v1" "c1" 3 ∅)
  = Some (Ok ("http://img/thumb", ""), ∅).
Proof. by vm_compute. Qed.

Lemma unfetchable_video_keeps_image_verdicts_witness :
  ∃ in_t tt in_a ta,
    (∀ fs0, check_image_url Scenario.offline "http://img/thumb" Demo.gallery
              Demo.names fs0 = Some (Ok in_t, fs0, tt)) ∧
    (∀ fs0, check_image_url Scenario.offline "http://img/avatar" Demo.gallery
              Demo.names fs0 = Some (Ok in_a, fs0, ta)) ∧
    process_video Scenario.offline 0 Demo.v1 "/tmp/tmpface" Demo.gallery
      Demo.names ∅
    = Some (Ok {| video_id := "v1";
                  has_known_face_in_thumbnail := in_t;
                  has_known_face_in_avatar := in_a;
                  has_known_face_in_video := false |},
            left_by Scenario.offline "/tmp/tmpface" "v1" (seq 0 3) ∪ ∅,
            [EvVideosList "v1" 0; EvChannelsList "c1" 0] ++ tt ++ ta
               ++ (seq 0 3 ≫= failed_download "v1")).
Proof.
  apply (unfetchable_video_keeps_image_verdicts Scenario.offline 0 Demo.v1
           "v1" "c1").
  - reflexivity.
  - reflexivity.
  - reflexivity.
  - intros n _. by eexists.
Defined.

(** ** The matcher, as a decision *)

Section Verdicts.

Context {Pil Img Enc : Type} (E : Env Pil Img Enc).

Lemma index_true_Some matches i :
  index_true matches = Some i → matches !! i = Some true.
Proof.
  revert i. induction matches as [|[] rest IH]; intros i; simpl; [done| |].
  - by intros [= <-].
  - destruct (index_true rest) as [j|]; simpl; [|done].
    intros [= <-]. by apply IH.
Qed.

Lemma compare_faces_None known e :
  index_true (compare_faces E known e tolerance) = None → unmatched E known e.
Proof.
  intros H%index_true_None. unfold compare_faces in H.
  apply Forall_fmap in H. eapply Forall_impl; [exact H|].
  intros k Hk Hwithin. apply Qle_bool_iff in Hwithin. simpl in Hk. congruence.
Qed.

Lemma compare_faces_Some known e i :
  index_true (compare_faces E known e tolerance) = Some i →
  ∃ k, known !! i = Some k ∧ within_tolerance E k e.
Proof.
  intros H%index_true_Some. unfold compare_faces in H.
  rewrite list_lookup_fmap in H.
  destruct (known !! i) as [k|]; [|done].
  exists k. split; [done|]. apply Qle_bool_iff. simpl in H. congruence.
Qed.

(** With as many names as embeddings the comparison never runs off the
    list of names, and it answers true exactly when some embedding is
    within tolerance of some gallery entry. *)
Lemma match_encodings_iff es known names :
  length names = length known →
  ∃ found t,
    (∀ fs, match_encodings E es known names fs = Some (Ok found, fs, t)) ∧
    (found = true ↔ ∃ e k, e ∈ es ∧ k ∈ known ∧ within_tolerance E k e).
Proof.
  intros Hlen. induction es as [|e es IH]; simpl.
  { exists false, []. split; [done|]. split; [done|].
    intros (e & k & He & _). by apply elem_of_nil in He. }
  destruct (index_true (compare_faces E known e tolerance)) as [i|] eqn:Hi.
  - destruct (compare_faces_Some _ _ _ Hi) as (k & Hk & Hwithin).
    destruct (names !! i) as [name|] eqn:Hname.
    2: { apply lookup_ge_None in Hname. apply lookup_lt_Some in Hk. lia. }
    exists true, [EvMatch name]. split.
    + intros fs. by rewrite (py_index_Some _ _ _ Hname), bind_ret, bind_emit.
    + split; [|done]. intros _. exists e, k.
      split; [by left|]. split; [|done]. by eapply list_elem_of_lookup_2.
  - destruct IH as (found & t & Hrun & Hiff). exists found, t.
    split; [done|]. rewrite Hiff. split.
    + intros (e' & k & He' & Hrest). exists e', k. split; [by right|done].
    + intros (e' & k & [-> | He']%elem_of_cons & Hk & Hwithin).
      * apply compare_faces_None in Hi. unfold unmatched in Hi.
        rewrite Forall_forall in Hi.
        by destruct (Hi k Hk).
      * by exists e', k.
Qed.

Lemma match_locations_iff rgb boxes known names :
  length names = length known →
  (∀ box, box ∈ boxes → survives box → ∃ es, face_encodings E rgb box = Ok es) →
  ∃ found t,
    (∀ fs, match_locations E rgb boxes known names fs = Some (Ok found, fs, t)) ∧
    (found = true ↔
     ∃ box es e k, box ∈ boxes ∧ survives box ∧
                   face_encodings E rgb box = Ok es ∧ e ∈ es ∧ k ∈ known ∧
                   within_tolerance E k e).
Proof.
  intros Hlen. induction boxes as [|box boxes IH]; intros Hok; simpl.
  { exists false, []. split; [done|]. split; [done|].
    intros (box & es & e & k & Hbox & _). by apply elem_of_nil in Hbox. }
  destruct IH as (found & t & Hrun & Hiff).
  { intros b Hb. apply Hok. by right. }
  destruct (too_small box) eqn:Hsmall.
  { exists found, t. split; [done|]. rewrite Hiff. split.
    - intros (b & es & e & k & Hb & Hrest). exists b, es, e, k.
      split; [by right|done].
    - intros (b & es & e & k & [-> | Hb]%elem_of_cons & Hs & Hrest).
      + apply too_small_true in Hsmall. by destruct Hsmall.
      + by exists b, es, e, k. }
  apply too_small_false in Hsmall.
  destruct (Hok box ltac:(by left) Hsmall) as (es & Hes).
  destruct (match_encodings_iff es known names Hlen)
    as (found1 & t1 & Hrun1 & Hiff1).
  destruct found1.
  - exists true, ([EvFaceEncodings box] ++ t1). split.
    + intros fs. rewrite bind_call, Hes.
      rewrite (bind_ok _ _ _ _ _ _ (Hrun1 fs)). simpl. by rewrite app_nil_r.
    + split; [|done]. intros _.
      destruct (proj1 Hiff1 eq_refl) as (e & k & He & Hk & Hwithin).
      exists box, es, e, k. split; [by left|done].
  - exists found, ([EvFaceEncodings box] ++ t1 ++ t). split.
    + intros fs. rewrite bind_call, Hes.
      rewrite (bind_ok _ _ _ _ _ _ (Hrun1 fs)). by rewrite Hrun.
    + rewrite Hiff. split.
      * intros (b & es' & e & k & Hb & Hrest). exists b, es', e, k.
        split; [by right|done].
      * intros (b & es' & e & k & [-> | Hb]%elem_of_cons & Hs & Hes' & He & Hk & Hw).
        -- assert (es' = es) as -> by congruence.
           assert (false = true) as [=]. apply Hiff1. by exists e, k.
        -- by exists b, es', e, k.
Qed.

(** X6: on an image in which detection and embedding go through, against a
    gallery with as many names as embeddings, [detect_known_faces_in_image]
    answers true exactly when some face box of at least 40 by 40 pixels has
    an embedding within tolerance of some gallery entry. *)
Theorem image_verdict_iff image rgb boxes known names :
  length names = length known →
  detects E image rgb boxes →
  (∀ box, box ∈ boxes → survives box → ∃ es, face_encodings E rgb box = Ok es) →
  ∃ found t,
    (∀ fs, detect_known_faces_in_image E (Some image) known names fs
           = Some (Ok found, fs, t)) ∧
    (found = true ↔
     ∃ box es e k, box ∈ boxes ∧ survives box ∧
                   face_encodings E rgb box = Ok es ∧ e ∈ es ∧ k ∈ known ∧
                   within_tolerance E k e).
Proof.
  intros Hlen (image_np & Hnp & Hrgb & Hloc) Hok.
  destruct (match_locations_iff rgb boxes known names Hlen Hok)
    as (found & t & Hrun & Hiff).
  exists found, ([EvFaceLocations] ++ if boxes is [] then [] else t).
  split; [|done]. intros fs. simpl. unfold try_except.
  rewrite bind_lift, Hnp, bind_lift, Hrgb, bind_call, Hloc.
  destruct boxes as [|box boxes].
  - simpl in Hrun. specialize (Hrun fs). by injection Hrun as <- <-.
  - by rewrite Hrun.
Qed.

End Verdicts.

Lemma image_verdict_iff_witness :
  ∃ found t,
    (∀ fs, detect_known_faces_in_image Demo.env (Some 11%nat) Demo.gallery
             Demo.names fs = Some (Ok found, fs, t)) ∧
    (found = true ↔
     ∃ box es e k, box ∈ [(0, 200, 100, 100)] ∧ survives box ∧
                   face_encodings Demo.env 11%nat box = Ok es ∧ e ∈ es ∧
                   k ∈ Demo.gallery ∧ within_tolerance Demo.env k e).
Proof.
  apply (image_verdict_iff Demo.env 11%nat 11%nat).
  - reflexivity.
  - by exists 11%nat.
  - intros box _ _. by exists [700].
Defined.

(** ** detect_known_faces_in_frames *)

Section FrameScan.

Context {Pil Img Enc : Type} (E : Env Pil Img Enc).

(** A scan that ended in [true] or in an exception is not changed by
    further samples. *)
Lemma match_frames_app samples more known names fs r fs' t :
  match_frames E samples known names fs = Some (r, fs', t) →
  r ≠ Ok false →
  match_frames E (samples ++ more) known names fs = Some (r, fs', t).
Proof.
  revert t. induction samples as [|[frame ts] samples IH]; intros t; simpl.
  { intros [= <- <- <-]. done. }
  rewrite !bind_lift.
  destruct (is_frame_blurry E frame 150) as [[]|]; [by apply IH| |done].
  rewrite !bind_lift.
  destruct (has_low_contrast E frame 30) as [[]|]; [by apply IH| |done].
  rewrite !bind_lift.
  destruct (cvt_rgb E frame) as [rgb|]; [|done].
  rewrite !bind_call.
  destruct (face_locations E rgb) as [[|box boxes]|]; [| |done].
  { intros (t1 & H & ->)%prepend_Some Hr. by rewrite (IH _ H Hr). }
  destruct (stateless_match_locations E rgb (box :: boxes) known names)
    as ([[]|e] & t1 & Hscan).
  - by rewrite !(bind_ok _ _ _ _ _ _ (Hscan fs)).
  - rewrite !(bind_ok _ _ _ _ _ _ (Hscan fs)). cbv beta iota.
    intros (t2 & (t3 & H & ->)%prepend_Some & ->)%prepend_Some Hr.
    by rewrite (IH _ H Hr).
  - by rewrite !(bind_raise _ _ _ _ _ _ (Hscan fs)).
Qed.

(** X7: once a frame has matched, the frames after it are not looked at:
    appending further samples to a scan that answered true changes neither
    the answer nor the calls made. *)
Theorem frame_scan_stops_at_first_match frames timestamps more_frames
    more_timestamps known names fs fs' t :
  length frames = length timestamps →
  detect_known_faces_in_frames E frames timestamps known names fs
  = Some (Ok true, fs', t) →
  detect_known_faces_in_frames E (frames ++ more_frames)
    (timestamps ++ more_timestamps) known names fs
  = Some (Ok true, fs', t).
Proof.
  intros Hlen. unfold detect_known_faces_in_frames, try_except.
  rewrite zip_with_app by done.
  destruct (match_frames E (zip_with pair frames timestamps) known names fs)
    as [[[[found|e] fs1] t1]|] eqn:Hscan; [| |done].
  - intros [= -> <- <-].
    by rewrite (match_frames_app _ _ _ _ _ _ _ _ Hscan).
  - simpl. intros [=].
Qed.

(** X8: frames that pass the quality gates and hold no face of the gallery
    are all examined, in order -- one face detection each, then the
    embedding of each box of at least 40 by 40 pixels -- and the answer is
    false.  The quality test of the scan skips none of them. *)
Theorem unmatched_frames_are_all_examined frames boxes_of timestamps known names :
  Forall2 (λ frame boxes,
             passes_gates E frame ∧
             ∃ rgb, cvt_rgb E frame = Ok rgb ∧ face_locations E rgb = Ok boxes ∧
                    Forall (fruitless E rgb known) boxes)
          frames boxes_of →
  length timestamps = length frames →
  ∀ fs, detect_known_faces_in_frames E frames timestamps known names fs
        = Some (Ok false, fs, boxes_of ≫= frame_events).
Proof.
  intros Hall Hlen fs. unfold detect_known_faces_in_frames, try_except.
  assert (match_frames E (zip frames timestamps) known names fs
          = Some (Ok false, fs, boxes_of ≫= frame_events)) as ->; [|done].
  revert timestamps Hlen.
  induction Hall as [|frame boxes frames boxes_of
                       ([Hsharp Hcontrast] & rgb & Hrgb & Hloc & Hnone) _ IH];
    intros [|ts timestamps] Hlen; simplify_eq/=; [done|].
  rewrite bind_lift, Hsharp, bind_lift, Hcontrast, bind_lift, Hrgb,
    bind_call, Hloc.
  destruct boxes as [|box boxes]; [by rewrite (IH timestamps)|].
  assert (match_locations E rgb (box :: boxes) known names fs
          = Some (Ok false, fs, EvFaceEncodings <$> embedded (box :: boxes)))
    as Hscan.
  { rewrite <- (app_nil_r (box :: boxes)) at 1.
    rewrite (match_locations_fruitless E _ _ _ _ _ _ Hnone). simpl.
    by rewrite app_nil_r. }
  rewrite (bind_ok _ _ _ _ _ _ Hscan). cbv beta iota.
  by rewrite (IH timestamps).
Qed.

End FrameScan.

Lemma frame_scan_stops_at_first_match_witness :
  detect_known_faces_in_frames Demo.env ([1080%nat] ++ [1081%nat; 1082%nat])
    ([(80 # 30)%Q] ++ [(81 # 30)%Q; (82 # 30)%Q]) Demo.gallery Demo.names ∅
  = Some (Ok true, ∅,
          [EvFaceLocations; EvFaceEncodings (0, 400, 100, 300); EvMatch "bob"]).
Proof.
  apply (frame_scan_stops_at_first_match Demo.env [1080%nat] [(80 # 30)%Q]);
    reflexivity.
Defined.

Lemma unmatched_frames_are_all_examined_witness :
  detect_known_faces_in_frames Demo.env [2000%nat; 2001%nat]
    [(1 # 1)%Q; (2 # 1)%Q] Demo.gallery Demo.names {[ "all_videos.json" ]}
  = Some (Ok false, {[ "all_videos.json" ]}, [[]; []] ≫= frame_events).
Proof.
  apply (unmatched_frames_are_all_examined Demo.env [2000%nat; 2001%nat]
           [[]; []] [(1 # 1)%Q; (2 # 1)%Q]); [|reflexivity].
  repeat constructor; by eexists.
Defined.

(** ** extract_frames *)

Section Selector.

Context {Pil Img Enc : Type} (E : Env Pil Img Enc).

Lemma Qlt_bool_lt x y : Qlt_bool x y = true ↔ (x < y)%Q.
Proof.
  destruct (Qlt_bool x y) eqn:H.
  - split; [intros _|done]. apply Qnot_le_lt. intros Hle%Qlt_bool_false.
    congruence.
  - apply Qlt_bool_false in H. split; [done|]. intros Hlt.
    by destruct (Qlt_not_le _ _ Hlt).
Qed.

(** The window scan with a running best of score [bv]: either no frame of
    the window beats it, or the result is the first frame of the window
    with the highest score. *)
Lemma window_scan_best path (score : Z → Q) positions :
  (∀ pos, pos ∈ positions →
     ∃ frame, cap_read E path pos = Ok (Some frame) ∧
              laplacian_var E frame = Ok (score pos)) →
  ∀ best bv bp,
    ((∀ q, q ∈ positions → (score q <= bv)%Q) ∧
     ∀ fs, window_scan E path positions best bv bp fs
           = Some (Ok (best, bv, bp), fs, EvCapRead path <$> positions)) ∨
    (∃ before pos after frame,
       positions = before ++ pos :: after ∧
       cap_read E path pos = Ok (Some frame) ∧
       (bv < score pos)%Q ∧
       (∀ q, q ∈ before → (score q < score pos)%Q) ∧
       (∀ q, q ∈ after → (score q <= score pos)%Q) ∧
       ∀ fs, window_scan E path positions best bv bp fs
             = Some (Ok (Some frame, score pos, pos), fs,
                     EvCapRead path <$> positions)).
Proof.
  induction positions as [|pos rest IH]; intros Hread best bv bp.
  { left. split; [|done]. intros q Hq. by apply elem_of_nil in Hq. }
  destruct (Hread pos ltac:(by left)) as (frame & Hframe & Hscore).
  assert (∀ q, q ∈ rest →
            ∃ f, cap_read E path q = Ok (Some f) ∧
                 laplacian_var E f = Ok (score q)) as Hrest
    by (intros; apply Hread; by right).
  specialize (IH Hrest).
  destruct (Qlt_bool bv (score pos)) eqn:Hlt.
  - apply Qlt_bool_lt in Hlt. right.
    destruct (IH (Some frame) (score pos) pos)
      as [[Hle Hrun] | (before & p & after & f & -> & Hf & Hbeat & Hb & Ha & Hrun)].
    + exists [], pos, rest, frame. repeat split; try done.
      * intros q Hq. by apply elem_of_nil in Hq.
      * intros fs. simpl. rewrite bind_call, Hframe, bind_lift, Hscore.
        apply Qlt_bool_lt in Hlt. by rewrite Hlt, Hrun.
    + exists (pos :: before), p, after, f. repeat split; try done.
      * by eapply Qlt_trans.
      * intros q [-> | Hq]%elem_of_cons; [done|by apply Hb].
      * intros fs. simpl. rewrite bind_call, Hframe, bind_lift, Hscore.
        apply Qlt_bool_lt in Hlt. by rewrite Hlt, Hrun.
  - pose proof Hlt as Hle%Qlt_bool_false.
    destruct (IH best bv bp)
      as [[Hall Hrun] | (before & p & after & f & -> & Hf & Hbeat & Hb & Ha & Hrun)].
    + left. split.
      * intros q [-> | Hq]%elem_of_cons; [done|by apply Hall].
      * intros fs. simpl. rewrite bind_call, Hframe, bind_lift, Hscore.
        by rewrite Hlt, Hrun.
    + right. exists (pos :: before), p, after, f. repeat split; try done.
      * intros q [-> | Hq]%elem_of_cons; [|by apply Hb].
        by eapply Qle_lt_trans.
      * intros fs. simpl. rewrite bind_call, Hframe, bind_lift, Hscore.
        by rewrite Hlt, Hrun.
Qed.

(** X9: in a window whose frames can all be read and have a sharpness of
    at least zero, the scan settles on the sharpest frame, and among equally
    sharp ones on the first: every frame before it is strictly less sharp,
    every frame after it is at most as sharp. *)
Theorem window_scan_picks_first_sharpest path (score : Z → Q) positions target :
  positions ≠ [] →
  (∀ pos, pos ∈ positions →
     ∃ frame, cap_read E path pos = Ok (Some frame) ∧
              laplacian_var E frame = Ok (score pos) ∧ (0 <= score pos)%Q) →
  ∃ before pos after frame,
    positions = before ++ pos :: after ∧
    cap_read E path pos = Ok (Some frame) ∧
    (∀ q, q ∈ before → (score q < score pos)%Q) ∧
    (∀ q, q ∈ after → (score q <= score pos)%Q) ∧
    ∀ fs, window_scan E path positions None (-1)%Q target fs
          = Some (Ok (Some frame, score pos, pos), fs,
                  EvCapRead path <$> positions).
Proof.
  intros Hne Hread.
  destruct (window_scan_best path score positions) with
    (best := @None Img) (bv := (-1)%Q) (bp := target)
    as [[Hle _] | (before & pos & after & frame & Hsplit & Hf & _ & Hb & Ha & Hrun)].
  - intros pos Hpos. destruct (Hread pos Hpos) as (f & ? & ? & _). eauto.
  - destruct positions as [|pos rest]; [done|].
    destruct (Hread pos ltac:(by left)) as (_ & _ & _ & Hpos).
    specialize (Hle pos ltac:(by left)).
    assert ((0 <= -1)%Q) as Habs by (by eapply Qle_trans). by compute in Habs.
  - by exists before, pos, after, frame.
Qed.

Lemma frames_loop_samples fuel path step la :
  ∀ c frames ts fs frames' ts' fs' t,
    Forall2 (sample_of E path) frames ts →
    frames_loop E fuel path (cap_fps E path) step la
      (py_int (cap_frame_count E path)) c frames ts fs
    = Some (Ok (frames', ts'), fs', t) →
    Forall2 (sample_of E path) frames' ts'.
Proof.
  induction fuel as [|fuel IH]; intros c frames ts fs frames' ts' fs' t Hall.
  { simpl. destruct (c <? _); [done|]. by intros [= <- <- <- <-]. }
  destruct (Z.ltb_spec c (py_int (cap_frame_count E path))) as [Hc|Hc].
  2: { simpl. apply Z.ltb_ge in Hc. rewrite Hc. by intros [= <- <- <- <-]. }
  intros H.
  apply frames_loop_round in H
    as [[-> ->] | (best & v & pos & fs1 & t1 & frames1 & ts1 & fs2 & t2 & t3
                   & Hscan & Hgate & Hrest)]; [done| |done].
  apply IH in Hrest; [done|].
  apply gate_best_frame_result in Hgate
    as [[-> ->] | (frame & -> & Hfps & -> & ->)]; [done|].
  apply Forall2_app; [done|]. constructor; [|done].
  apply window_scan_position in Hscan as [[[=] _] | (f & [= <-] & Hpos & Hf)].
  exists pos. apply elem_of_window_positions in Hpos. repeat split; try done; lia.
Qed.

(** X10: every sample that [extract_frames] returns is a frame of the
    source paired with the time of the position it was read at,
    [position / fps], and positions lie within the frame count: the two
    lists have the same length and belong together item by item. *)
Theorem emitted_samples_are_frames_with_their_time fuel path interval
    look_around fs frames ts fs' t :
  extract_frames E fuel path interval look_around fs
  = Some (Ok (frames, ts), fs', t) →
  Forall2 (sample_of E path) frames ts.
Proof.
  unfold extract_frames, try_except.
  destruct (frames_loop E fuel path _ _ _ _ 0 [] [] fs)
    as [[[[[frames1 ts1]|e] fs1] t1]|] eqn:Hloop; [| |done].
  - intros [= <- <- <- <-]. eapply frames_loop_samples; [|exact Hloop].
    constructor.
  - simpl. intros [= <- <- <- <-]. constructor.
Qed.

Lemma frames_loop_count fuel path fps step la total :
  1 ≤ step →
  ∀ c frames ts fs frames' ts' fs' t,
    frames_loop E fuel path fps step la total c frames ts fs
    = Some (Ok (frames', ts'), fs', t) →
    (length frames' ≤ length frames + length (stops_from step total c))%nat.
Proof.
  intros Hstep.
  induction fuel as [|fuel IH]; intros c frames ts fs frames' ts' fs' t.
  { simpl. destruct (c <? _); [done|]. intros [= <- <- <- <-]. lia. }
  destruct (Z.ltb_spec c total) as [Hc|Hc].
  2: { simpl. apply Z.ltb_ge in Hc. rewrite Hc. intros [= <- <- <- <-]. lia. }
  intros H.
  apply frames_loop_round in H
    as [[-> ->] | (best & v & pos & fs1 & t1 & frames1 & ts1 & fs2 & t2 & t3
                   & Hscan & Hgate & Hrest)]; [lia| |done].
  apply IH in Hrest. rewrite (stops_from_step _ _ _ Hstep Hc). simpl.
  apply gate_best_frame_result in Hgate
    as [[-> ->] | (frame & -> & Hfps & -> & ->)]; [lia|].
  rewrite length_app in Hrest. simpl in Hrest. lia.
Qed.

(** X11: with a step of at least one frame, [extract_frames] returns at
    most one frame per stop: no more than the number of multiples of the
    step below the frame count. *)
Theorem at_most_one_frame_per_stop fuel path interval look_around fs frames
    ts fs' t :
  1 ≤ frame_interval (cap_fps E path) interval →
  extract_frames E fuel path interval look_around fs
  = Some (Ok (frames, ts), fs', t) →
  (length frames
   ≤ length (sample_positions (frame_interval (cap_fps E path) interval)
               (py_int (cap_frame_count E path))))%nat.
Proof.
  intros Hstep. unfold extract_frames, try_except.
  destruct (frames_loop E fuel path _ _ _ _ 0 [] [] fs)
    as [[[[[frames1 ts1]|e] fs1] t1]|] eqn:Hloop; [| |done].
  - intros [= <- <- <- <-].
    apply (frames_loop_count _ _ _ _ _ _ Hstep) in Hloop.
    by rewrite stops_from_0 in Hloop.
  - simpl. intros [= <- <- <- <-]. simpl. lia.
Qed.

(** X12: a source that reports no frames -- as a capture that could not
    be opened does -- yields no sample, without a single read and whatever
    its frame rate, also where the step is zero. *)
Theorem no_frames_no_samples fuel path interval look_around fs :
  py_int (cap_frame_count E path) ≤ 0 →
  extract_frames E fuel path interval look_around fs = Some (Ok ([], []), fs, []).
Proof.
  intros Hcount%Z.ltb_ge. unfold extract_frames, try_except.
  destruct fuel; simpl; by rewrite Hcount.
Qed.

(** X13: a source with frames that reports a frame rate of zero yields no
    sample either, and the scan ends at once instead of staying at frame 0:
    the log line of the first window divides by the frame rate, and the
    handler turns the exception into empty lists. *)
Theorem zero_frame_rate_yields_nothing fuel path interval look_around frame v fs :
  Qeq_bool (cap_fps E path) 0 = true →
  1 ≤ py_int (cap_frame_count E path) →
  cap_read E path 0 = Ok (Some frame) →
  laplacian_var E frame = Ok v → (-1 < v)%Q →
  extract_frames E (S fuel) path interval look_around fs
  = Some (Ok ([], []), fs, [EvCapRead path 0; EvCapRead path 0]).
Proof.
  intros Hfps Hcount Hread Hv Hpos. unfold extract_frames.
  assert (look_around_frames (cap_fps E path) look_around = 0) as ->
    by (by apply frame_interval_zero_fps).
  assert (window_positions 0 (py_int (cap_frame_count E path)) 0 = [0]) as Hwin.
  { unfold window_positions, py_range.
    by replace (Z.min (py_int (cap_frame_count E path)) (0 + 0 + 1)
                - Z.max 0 (0 - 0)) with 1 by lia. }
  assert (∃ e, ∀ frames ts,
            gate_best_frame E (cap_fps E path) 0 (Some frame) 0 frames ts fs
            = Some (Raise e, fs, [])) as (e & Hgate).
  { simpl. unfold is_frame_blurry, has_low_contrast, py_truediv.
    rewrite Hv, Hfps.
    destruct (Qlt_bool v 150).
    { eexists. intros frames ts. by rewrite !bind_lift. }
    destruct (gray_std E frame) as [c|e].
    - destruct (Qlt_bool c 30); eexists; intros frames ts; by rewrite !bind_lift.
    - eexists. intros frames ts. by rewrite !bind_lift. }
  unfold try_except. cbn [frames_loop].
  replace (0 <? py_int (cap_frame_count E path)) with true
    by (symmetry; apply Z.ltb_lt; lia).
  rewrite bind_call, Hread, Hwin. cbn [window_scan].
  assert (window_scan E path [0] None (-1)%Q 0 fs
          = Some (Ok (Some frame, v, 0), fs, [EvCapRead path 0])) as Hscan.
  { simpl. rewrite bind_call, Hread, bind_lift, Hv.
    apply Qlt_bool_lt in Hpos. by rewrite Hpos. }
  simpl in Hscan. rewrite (bind_ok _ _ _ _ _ _ Hscan). cbv beta iota.
  rewrite (bind_raise _ _ _ _ _ _ (Hgate [] [])). reflexivity.
Qed.

End Selector.

Lemma window_scan_picks_first_sharpest_witness :
  ∃ before pos after frame,
    [3; 4] = before ++ pos :: after ∧
    cap_read Demo.env "v.mp4" pos = Ok (Some frame) ∧
    (∀ q, q ∈ before → (Scenario3.score q < Scenario3.score pos)%Q) ∧
    (∀ q, q ∈ after → (Scenario3.score q <= Scenario3.score pos)%Q) ∧
    ∀ fs, window_scan Demo.env "v.mp4" [3; 4] None (-1)%Q 3 fs
          = Some (Ok (Some frame, Scenario3.score pos, pos), fs,
                  EvCapRead "v.mp4" <$> [3; 4]).
Proof.
  apply (window_scan_picks_first_sharpest Demo.env "v.mp4" Scenario3.score).
  - done.
  - intros pos [-> | [-> | []%elem_of_nil]%elem_of_cons]%elem_of_cons;
      eexists; by compute.
Defined.

Lemma emitted_samples_are_frames_with_their_time_witness :
  Forall2 (sample_of Demo.env "v.mp4") [1080%nat] [(80 # 30)%Q].
Proof.
  eapply (emitted_samples_are_frames_with_their_time Demo.env).
  exact demo_extract_frames.
Defined.

Lemma at_most_one_frame_per_stop_witness :
  (length [1080%nat]
   ≤ length (sample_positions
               (frame_interval (cap_fps Demo.env "v.mp4") (5 # 2))
               (py_int (cap_frame_count Demo.env "v.mp4"))))%nat.
Proof.
  eapply (at_most_one_frame_per_stop Demo.env); [|exact demo_extract_frames].
  by compute.
Defined.

Lemma no_frames_no_samples_witness :
  extract_frames Scenario3.unopened 0 "v.mp4" (5 # 2) (1 # 4) ∅
  = Some (Ok ([], []), ∅, []).
Proof. apply (no_frames_no_samples Scenario3.unopened). by compute. Defined.

Lemma zero_frame_rate_yields_nothing_witness :
  extract_frames Scenario3.no_rate 1 "v.mp4" (5 # 2) (1 # 4) ∅
  = Some (Ok ([], []), ∅, [EvCapRead "v.mp4" 0; EvCapRead "v.mp4" 0]).
Proof.
  apply (zero_frame_rate_yields_nothing Scenario3.no_rate 0 "v.mp4" (5 # 2)
           (1 # 4) 7%nat (7 # 10)%Q); by compute.
Defined.

(** ** load_known_faces *)

Section Gallery.

Context {Pil Img Enc : Type} (E : Env Pil Img Enc).

(** X14: when every image file of the directory can be loaded and
    searched, the gallery holds, in directory order, one entry for each
    image file that shows a face -- the first face found in it, under the
    file's name without extension -- and nothing for the other files; the
    two lists are built side by side. *)
Theorem gallery_lists_first_faces dir filenames :
  listdir E dir = Some (Ok filenames) →
  (∀ f, f ∈ image_files filenames → loadable E dir f) →
  ∀ fs, load_known_faces E dir fs
        = Some (Ok ((omap (gallery_entry E dir) (image_files filenames)).*1,
                    (omap (gallery_entry E dir) (image_files filenames)).*2),
                fs, loads dir filenames).
Proof. apply load_known_faces_entries. Qed.

(** X15: an image file that cannot be loaded, or searched for faces, stops
    the loader with that exception, and [main], which calls the loader
    outside any [try], raises it too: the run ends after the loads up to that
    file, before the input is read -- no video is processed, nothing is
    written, and no temporary directory is made. *)
Theorem unreadable_reference_image_aborts_run fuel json_file before f after e :
  listdir E "known_faces" = Some (Ok (before ++ f :: after)) →
  (∀ g, g ∈ image_files before → loadable E "known_faces" g) →
  has_image_ext f = true →
  (load_image_file E (path_join "known_faces" f) = Raise e ∨
   ∃ image, load_image_file E (path_join "known_faces" f) = Ok image ∧
            face_encodings_all E image = Raise e) →
  ∀ fs, main E fuel json_file fs
        = Some (Raise e, fs, loads "known_faces" (before ++ [f])).
Proof.
  intros Hdir Hload Hext Hfail fs. unfold main.
  by rewrite (bind_raise _ _ _ _ _ _
                (load_known_faces_unreadable E "known_faces" before f after e
                   Hdir Hload Hext Hfail fs)).
Qed.

End Gallery.

Lemma gallery_lists_first_faces_witness :
  load_known_faces Demo.env "known_faces" {[ "all_videos.json" ]}
  = Some (Ok ((omap (gallery_entry Demo.env "known_faces")
                 (image_files Demo.face_files)).*1,
              (omap (gallery_entry Demo.env "known_faces")
                 (image_files Demo.face_files)).*2),
          {[ "all_videos.json" ]}, loads "known_faces" Demo.face_files).
Proof.
  apply (gallery_lists_first_faces Demo.env); [reflexivity|exact demo_loadable].
Defined.

Example demo_gallery_entries :
  omap (gallery_entry Demo.env "known_faces") (image_files Demo.face_files)
  = [(Demo.alice, "alice"); (Demo.bob, "bob"); (Demo.bobby, "bobby")].
Proof. reflexivity. Qed.

Lemma unreadable_reference_image_aborts_run_witness :
  main Scenario4.corrupt 100 "videos.json" {[ "all_videos.json" ]}
  = Some (Raise LibraryError, {[ "all_videos.json" ]},
          loads "known_faces" (["alice.jpg"; "README.txt"] ++ ["bob.PNG"])).
Proof.
  apply (unreadable_reference_image_aborts_run Scenario4.corrupt 100
           "videos.json" ["alice.jpg"; "README.txt"] "bob.PNG"
           ["blank.jpeg"; "bobby.JPEG"]).
  - reflexivity.
  - change (image_files ["alice.jpg"; "README.txt"]) with ["alice.jpg"].
    intros g [-> | []%elem_of_nil]%elem_of_cons. by eexists _, _.
  - reflexivity.
  - by left.
Defined.

(** ** File names of the gallery *)

Lemma str_lower_app a b : str_lower (a +:+ b) = str_lower a +:+ str_lower b.
Proof. induction a as [|c a IH]; simpl; [done|]. by rewrite IH. Qed.

Lemma string_length_app a b :
  String.length (a +:+ b) = (String.length a + String.length b)%nat.
Proof. induction a as [|c a IH]; simpl; [done|]. by rewrite IH. Qed.

Lemma substring_all s : substring 0 (String.length s) s = s.
Proof. induction s as [|c s IH]; simpl; [done|]. by rewrite IH. Qed.

Lemma substring_suffix a b :
  substring (String.length a) (String.length b) (a +:+ b) = b.
Proof. induction a as [|c a IH]; simpl; [apply substring_all|done]. Qed.

Lemma substring_prefix a b : substring 0 (String.length a) (a +:+ b) = a.
Proof.
  induction a as [|c a IH]; simpl; [by destruct b|]. by rewrite IH.
Qed.

Lemma str_endswith_app a suffix : str_endswith (a +:+ suffix) suffix = true.
Proof.
  unfold str_endswith. rewrite string_length_app.
  replace (String.length a + String.length suffix - String.length suffix)%nat
    with (String.length a) by lia.
  rewrite substring_suffix, String.eqb_refl, andb_true_r.
  apply Nat.leb_le. lia.
Qed.

Lemma ascii_lower_dot c : Ascii.eqb (ascii_lower c) "." = Ascii.eqb c ".".
Proof. by destruct c as [[] [] [] [] [] [] [] []]. Qed.

Lemma dot_free_lower s : dot_free (str_lower s) = dot_free s.
Proof.
  induction s as [|c s IH]; simpl; [done|]. by rewrite ascii_lower_dot, IH.
Qed.

(** Without a dot in the rest of the name, the last dot seen stays. *)
Lemma ext_dot_dot_free s i found :
  dot_free s = true → ext_dot s i true found = found.
Proof.
  revert i. induction s as [|c s IH]; intros i; simpl; [done|].
  destruct (Ascii.eqb c "."); [done|]. apply IH.
Qed.

Lemma ext_dot_stem stem ext i seen found :
  (seen || has_name_char stem)%bool = true → dot_free ext = true →
  ext_dot (stem +:+ "." +:+ ext) i seen found = Some (i + String.length stem)%nat.
Proof.
  intros Hname Hext. revert i seen found Hname.
  induction stem as [|c stem IH]; intros i seen found Hname; simpl.
  - rewrite orb_false_r in Hname. subst seen.
    rewrite ext_dot_dot_free by done. f_equal. lia.
  - simpl in Hname. destruct (Ascii.eqb c ".") eqn:Hc.
    + rewrite IH by done. f_equal. lia.
    + rewrite IH by done. f_equal. lia.
Qed.

(** X16: a file named [stem.ext], where [ext] is [jpg], [jpeg] or [png] in
    any mix of upper and lower case and the stem has a character other than
    the dot, is taken for an image file, and the gallery name it gives is
    the stem. *)
Theorem image_file_gives_its_stem stem ext :
  has_name_char stem = true →
  str_lower ext ∈ ["jpg"; "jpeg"; "png"] →
  has_image_ext (stem +:+ "." +:+ ext) = true ∧
  splitext_root (stem +:+ "." +:+ ext) = stem.
Proof.
  intros Hname Hext.
  assert (str_lower ext = "jpg" ∨ str_lower ext = "jpeg" ∨ str_lower ext = "png")
    as Hcases.
  { repeat (apply elem_of_cons in Hext as [Hext | Hext]); auto.
    by apply elem_of_nil in Hext. }
  split.
  - unfold has_image_ext. cbv zeta. rewrite str_lower_app.
    change (str_lower ("." +:+ ext)) with ("." +:+ str_lower ext).
    destruct Hcases as [-> | [-> | ->]].
    + by rewrite (str_endswith_app _ ".jpg").
    + rewrite (str_endswith_app _ ".jpeg"). by rewrite orb_true_r.
    + rewrite (str_endswith_app _ ".png"). by rewrite !orb_true_r.
  - assert (dot_free ext = true) as Hfree.
    { rewrite <- dot_free_lower. by destruct Hcases as [-> | [-> | ->]]. }
    unfold splitext_root.
    rewrite (ext_dot_stem stem ext 0 false None) by (by rewrite ?Hname).
    apply substring_prefix.
Qed.

Lemma image_file_gives_its_stem_witness :
  has_image_ext ("anna.maria" +:+ "." +:+ "JpEg") = true ∧
  splitext_root ("anna.maria" +:+ "." +:+ "JpEg") = "anna.maria".
Proof.
  apply image_file_gives_its_stem; [reflexivity|].
  apply (bool_decide_unpack _). by vm_compute.
Defined.

(** ** The run: its results, its clean-up, and what it leaves on disk *)

Section Run.

Context {Pil Img Enc : Type} (E : Env Pil Img Enc).

Lemma below_video_file dir vid : below dir (video_file dir vid).
Proof.
  unfold below, video_file, path_join.
  induction dir as [|c dir IH]; simpl; [by destruct vid|].
  by destruct (ascii_dec c c).
Qed.

Lemma confined_refl dir fs : confined E dir fs fs.
Proof. by intros path. Qed.

Lemma confined_trans dir fs1 fs2 fs3 :
  confined E dir fs1 fs2 → confined E dir fs2 fs3 → confined E dir fs1 fs3.
Proof.
  intros H12 H23 path. destruct (H12 path) as [Ho1 Hl1], (H23 path) as [Ho2 Hl2].
  split.
  - intros Hout. by rewrite Ho2, Ho1.
  - auto.
Qed.

Lemma below_video_file_suffix dir vid suffix :
  below dir (video_file dir vid +:+ suffix).
Proof.
  unfold below, video_file, path_join.
  induction dir as [|c dir IH]; simpl; [by destruct (_ +:+ suffix)|].
  by destruct (ascii_dec c c).
Qed.

(** What the download attempts leave is under the temporary directory. *)
Lemma below_left_by dir vid attempts path :
  path ∈ left_by E dir vid attempts → below dir path.
Proof.
  unfold left_by. intros (X & HX & Hin)%elem_of_union_list.
  apply list_elem_of_fmap in HX as (n & -> & _).
  unfold ydl_files in Hin. apply elem_of_list_to_set in Hin.
  apply list_elem_of_fmap in Hin as (suffix & -> & _).
  apply below_video_file_suffix.
Qed.

(** The video step changes the files under the temporary directory only,
    and removes none that cannot be unlinked. *)
Lemma check_video_frames_confined fuel vid dir known names fs :
  scan_halts E fuel (video_file dir vid) →
  ∃ r fs' t,
    check_video_frames E fuel vid dir known names fs = Some (r, fs', t) ∧
    confined E dir fs fs'.
Proof.
  intros Hscan.
  destruct (download_video_spec E vid dir fs) as (dl & k & t1 & Hdl & _ & _).
  destruct (check_video_frames_after_download E fuel vid dir known names fs
              dl _ _ Hdl (λ _, Hscan)) as (r & fs' & t & Hv & Hcases).
  exists r, fs', (EvYdlDownload vid 0 :: t1 ++ t). split; [done|].
  assert (confined E dir fs (left_by E dir vid (seq 0 k) ∪ fs)) as Hleft.
  { intros path. split.
    - intros Hout. rewrite elem_of_union. split; [|by right].
      intros [Hin%below_left_by | Hin]; done.
    - intros _ Hin. apply elem_of_union. by right. }
  destruct dl as [path|].
  2: { by destruct Hcases as (_ & -> & _). }
  destruct Hcases as (-> & _ & _ & Hcases).
  destruct (undeletable E (video_file dir vid)) eqn:Hun.
  { by destruct Hcases as [_ ->]. }
  destruct Hcases as [_ ->].
  apply (confined_trans _ _ _ _ Hleft).
  pose proof (below_video_file dir vid) as Hbelow.
  intros path. split.
  - intros Hout. rewrite elem_of_difference, elem_of_singleton.
    split; [by intros []|]. intros Hin. split; [done|]. by intros ->.
  - intros Hlocked Hin. rewrite elem_of_difference, elem_of_singleton.
    split; [done|]. intros ->. congruence.
Qed.

Lemma process_video_confined fuel video dir known names fs :
  well_formed E fuel dir video →
  ∃ r fs' t,
    process_video E fuel video dir known names fs = Some (Ok r, fs', t) ∧
    video !! "video_id" = Some (video_id r) ∧
    confined E dir fs fs'.
Proof.
  intros (vid & cid & Hvid & Hcid & Hscan).
  destruct (stateless_video_and_channel_info_loop E (seq 0 3) vid cid)
    as ([[turl aurl]|e] & t0 & Hinfo).
  2: { exists (no_match vid), fs, t0. split; [|split; [done|apply confined_refl]].
       exact (process_video_unresolved E fuel video vid cid dir known names fs
                e t0 Hvid Hcid (Hinfo fs)). }
  destruct (safe_check_image_url E turl known names) as (in_t & tt & Ht).
  destruct (safe_check_image_url E aurl known names) as (in_a & ta & Ha).
  destruct (check_video_frames_confined fuel vid dir known names fs Hscan)
    as (rv & fs' & tv & Hv & Hconf).
  eexists _, _, _. split; [|split; [|exact Hconf]].
  - exact (process_video_resolved E fuel video vid cid dir known names fs
             turl aurl t0 in_t tt in_a ta rv fs' tv Hvid Hcid (Hinfo fs)
             (Ht fs) (Ha fs) Hv).
  - by destruct rv.
Qed.


(** An incomplete record ends the loop with a [KeyError], leaving the
    trace and the files of the records before it. *)
Lemma process_videos_incomplete fuel before bad after dir known names :
  Forall (well_formed E fuel dir) before →
  bad !! "video_id" = None ∨ bad !! "channel_id" = None →
  ∀ results fs,
    ∃ rs fs' t key,
      process_videos E fuel before dir known names results fs
      = Some (Ok (results ++ rs), fs', t) ∧
      process_videos E fuel (before ++ bad :: after) dir known names results fs
      = Some (Raise (KeyError key), fs', t) ∧
      confined E dir fs fs'.
Proof.
  intros Hwf Hbad. induction Hwf as [|video videos Hwf _ IH];
    intros results fs; simpl.
  { assert (∃ key, process_video E fuel bad dir known names fs
                   = Some (Raise (KeyError key), fs, [])) as [key Hkey].
    { unfold process_video, py_getitem.
      destruct (bad !! "video_id") as [vid|] eqn:Hvid.
      - destruct Hbad as [|Hcid]; [done|]. rewrite Hcid.
        exists "channel_id". by rewrite bind_ret.
      - by exists "video_id". }
    exists [], fs, [], key. rewrite app_nil_r.
    split; [done|]. split; [|apply confined_refl].
    by rewrite (bind_raise _ _ _ _ _ _ Hkey). }
  destruct (process_video_confined fuel video dir known names fs Hwf)
    as (r & fs1 & t1 & Hr & _ & Hc1).
  destruct (IH (results ++ [r]) fs1) as (rs & fs2 & t2 & key & Hrun & Hrest & Hc2).
  exists (r :: rs), fs2, (t1 ++ t2), key. split; [|split].
  - rewrite (bind_ok _ _ _ _ _ _ Hr), Hrun. simpl. by rewrite <- app_assoc.
  - by rewrite (bind_ok _ _ _ _ _ _ Hr), Hrest.
  - by eapply confined_trans.
Qed.

(** [shutil.rmtree] on a directory whose files can all be unlinked. *)
Lemma rmtree_files_removable dir paths fs :
  (∀ path, path ∈ paths → below dir path → undeletable E path = false) →
  ∃ fs', rmtree_files E dir paths fs = (Ok (), fs') ∧
         ∀ path, path ∈ fs' ↔ path ∈ fs ∧ ¬ (path ∈ paths ∧ below dir path).
Proof.
  revert fs. induction paths as [|p paths IH]; intros fs Hdel; simpl.
  { exists fs. split; [done|]. intros path. split; [|by intros []].
    intros Hin. split; [done|]. by intros [?%elem_of_nil _]. }
  destruct (String.prefix (dir +:+ "/") p) eqn:Hp.
  - rewrite (Hdel p ltac:(by left) Hp).
    destruct (IH (fs ∖ {[p]})) as (fs' & -> & Hfs').
    { intros path Hin. apply Hdel. by right. }
    exists fs'. split; [done|]. intros path.
    rewrite Hfs', elem_of_difference, elem_of_singleton, elem_of_cons.
    split.
    + intros [[Hin Hne] Hno]. split; [done|]. intros [[-> | Hin'] Hb]; [done|].
      by apply Hno.
    + intros [Hin Hno]. split; [split; [done|]|].
      * intros ->. apply Hno. split; [by left|done].
      * intros [Hin' Hb]. apply Hno. split; [by right|done].
  - destruct (IH fs) as (fs' & -> & Hfs').
    { intros path Hin. apply Hdel. by right. }
    exists fs'. split; [done|]. intros path. rewrite Hfs', elem_of_cons.
    split.
    + intros [Hin Hno]. split; [done|]. intros [[-> | Hin'] Hb].
      * unfold below in Hb. congruence.
      * by apply Hno.
    + intros [Hin Hno]. split; [done|]. intros [Hin' Hb]. apply Hno.
      split; [by right|done].
Qed.

Lemma rmtree_removable dir fs :
  (∀ path, path ∈ fs → below dir path → undeletable E path = false) →
  ∃ fs', rmtree E dir fs = Some (Ok (), fs', [EvRmtree dir]) ∧
         cleared dir fs fs'.
Proof.
  intros Hdel. unfold rmtree.
  destruct (rmtree_files_removable dir (elements fs) fs) as (fs' & -> & Hfs').
  { intros path Hin%elem_of_elements. by apply Hdel. }
  exists fs'. split; [done|]. intros path. rewrite Hfs', elem_of_elements.
  split; intros [Hin Hno]; (split; [done|]); [intros Hb|intros [_ Hb]]; by apply Hno.
Qed.

(** [shutil.rmtree] raises as soon as the directory holds a file that cannot
    be unlinked. *)
Lemma rmtree_files_held dir paths fs path :
  path ∈ paths → below dir path → undeletable E path = true →
  ∃ fs', rmtree_files E dir paths fs = (Raise OSError, fs') ∧
         (path ∈ fs → path ∈ fs').
Proof.
  intros Hin Hb Hun. revert fs.
  induction paths as [|p paths IH]; intros fs; [by apply elem_of_nil in Hin|].
  simpl. destruct (String.prefix (dir +:+ "/") p) eqn:Hp.
  - destruct (undeletable E p) eqn:Hpun; [by exists fs|].
    apply elem_of_cons in Hin as [-> | Hin]; [congruence|].
    destruct (IH Hin (fs ∖ {[p]})) as (fs' & -> & Hkeep).
    exists fs'. split; [done|]. intros Hfs. apply Hkeep.
    apply elem_of_difference. split; [done|].
    rewrite elem_of_singleton. intros ->. congruence.
  - apply elem_of_cons in Hin as [-> | Hin].
    { unfold below in Hb. congruence. }
    by apply IH.
Qed.

Lemma main_with_gallery fuel json_file fs known names tl :
  load_known_faces E "known_faces" fs = Some (Ok (known, names), fs, tl) →
  known ≠ [] →
  main E fuel json_file fs
  = prepend tl (run_videos E fuel json_file known names fs).
Proof.
  intros Hload Hne. unfold main. rewrite (bind_ok _ _ _ _ _ _ Hload).
  by destruct known.
Qed.

(** Whatever the [try] block of [main] did, it is followed by the removal of
    the temporary directory, and only that removal can make the run raise. *)
Lemma run_videos_finally fuel json_file known names fs r1 fs1 t1 r fs' tr :
  (videos ← call (EvJsonLoad json_file) (json_load E json_file);
   results ← process_videos E fuel videos (mkdtemp E) known names [];
   emit (EvDump results)) fs = Some (r1, fs1, t1) →
  rmtree E (mkdtemp E) fs1 = Some (r, fs', tr) →
  run_videos E fuel json_file known names fs = Some (r, fs', t1 ++ tr).
Proof.
  intros Hbody Hrm. unfold run_videos, try_finally, try_except.
  rewrite Hbody. destruct r1 as [[]|e]; simpl; rewrite ?app_nil_r, Hrm;
    by destruct r as [[]|e'].
Qed.

Lemma run_videos_completed fuel json_file known names fs videos rs fs1 tv :
  json_load E json_file = Ok videos →
  process_videos E fuel videos (mkdtemp E) known names [] fs
  = Some (Ok rs, fs1, tv) →
  (videos ← call (EvJsonLoad json_file) (json_load E json_file);
   results ← process_videos E fuel videos (mkdtemp E) known names [];
   emit (EvDump results)) fs
  = Some (Ok (), fs1, EvJsonLoad json_file :: tv ++ [EvDump rs]).
Proof.
  intros Hjson Hrun. rewrite bind_call, Hjson.
  by rewrite (bind_ok _ _ _ _ _ _ Hrun).
Qed.

Lemma cleared_after_confined dir fs fs1 fs' :
  confined E dir fs fs1 → cleared dir fs1 fs' → cleared dir fs fs'.
Proof.
  intros Hconf Hclear path. rewrite (Hclear path).
  destruct (Hconf path) as [Hout _].
  split; intros [Hin Hno]; (split; [|done]); by apply Hout.
Qed.


(** X18: a record without [video_id] or [channel_id] ends the loop of
    [main] with a [KeyError] that [main] catches: the run returns normally,
    but nothing is written -- the results of the records before it are lost,
    the records after it are never processed -- and the temporary directory
    is removed straight after the last complete record. *)
Theorem incomplete_record_discards_results
    fuel json_file fs known names tl before bad after :
  load_known_faces E "known_faces" fs = Some (Ok (known, names), fs, tl) →
  known ≠ [] →
  json_load E json_file = Ok (before ++ bad :: after) →
  Forall (well_formed E fuel (mkdtemp E)) before →
  bad !! "video_id" = None ∨ bad !! "channel_id" = None →
  removable E (mkdtemp E) →
  ∃ rs fs1 tv fs',
    process_videos E fuel before (mkdtemp E) known names [] fs
    = Some (Ok rs, fs1, tv) ∧
    main E fuel json_file fs
    = Some (Ok (), fs', tl ++ EvJsonLoad json_file :: tv ++ [EvRmtree (mkdtemp E)]) ∧
    cleared (mkdtemp E) fs fs'.
Proof.
  intros Hload Hne Hjson Hwf Hbad Hdel.
  destruct (process_videos_incomplete fuel before bad after (mkdtemp E) known
              names Hwf Hbad [] fs)
    as (rs & fs1 & tv & key & Hrun & Hall & Hconf).
  simpl in Hrun.
  destruct (rmtree_removable (mkdtemp E) fs1) as (fs' & Hrm & Hclear).
  { intros path _. apply Hdel. }
  exists rs, fs1, tv, fs'. split; [done|]. split.
  - rewrite (main_with_gallery fuel json_file fs known names tl Hload Hne).
    rewrite (run_videos_finally fuel json_file known names fs
               (Raise (KeyError key)) fs1 (EvJsonLoad json_file :: tv)
               (Ok ()) fs' [EvRmtree (mkdtemp E)]).
    + done.
    + rewrite bind_call, Hjson. by rewrite (bind_raise _ _ _ _ _ _ Hall).
    + done.
  - by eapply cleared_after_confined.
Qed.

(** X19: an input file that cannot be read or parsed does not make [main]
    fail: the exception is caught, no video is processed, nothing is
    written, and the temporary directory is removed. *)
Theorem unreadable_input_ends_quietly fuel json_file fs known names tl e :
  load_known_faces E "known_faces" fs = Some (Ok (known, names), fs, tl) →
  known ≠ [] →
  json_load E json_file = Raise e →
  removable E (mkdtemp E) →
  ∃ fs',
    main E fuel json_file fs
    = Some (Ok (), fs', tl ++ [EvJsonLoad json_file; EvRmtree (mkdtemp E)]) ∧
    cleared (mkdtemp E) fs fs'.
Proof.
  intros Hload Hne Hjson Hdel.
  destruct (rmtree_removable (mkdtemp E) fs) as (fs' & Hrm & Hclear).
  { intros path _. apply Hdel. }
  exists fs'. split; [|done].
  rewrite (main_with_gallery fuel json_file fs known names tl Hload Hne).
  rewrite (run_videos_finally fuel json_file known names fs
             (Raise e) fs [EvJsonLoad json_file]
             (Ok ()) fs' [EvRmtree (mkdtemp E)]); [done| |done].
  by rewrite bind_call, Hjson.
Qed.

(** X20: if, once the videos are processed, the temporary directory holds a
    file that cannot be unlinked, its removal raises [OSError] and [main]
    raises with it -- after the results were written; the file is still
    there. *)
Theorem held_file_fails_the_run_after_results
    fuel json_file fs known names tl videos rs fs1 tv path :
  load_known_faces E "known_faces" fs = Some (Ok (known, names), fs, tl) →
  known ≠ [] →
  json_load E json_file = Ok videos →
  process_videos E fuel videos (mkdtemp E) known names [] fs
  = Some (Ok rs, fs1, tv) →
  path ∈ fs1 → below (mkdtemp E) path → undeletable E path = true →
  ∃ fs',
    main E fuel json_file fs
    = Some (Raise OSError, fs',
            tl ++ EvJsonLoad json_file :: tv
               ++ [EvDump rs; EvRmtree (mkdtemp E)]) ∧
    path ∈ fs'.
Proof.
  intros Hload Hne Hjson Hrun Hin Hbelow Hheld.
  destruct (rmtree_files_held (mkdtemp E) (elements fs1) fs1 path)
    as (fs' & Hrm & Hkeep); [by apply elem_of_elements|done|done|].
  exists fs'. split; [|by apply Hkeep].
  rewrite (main_with_gallery fuel json_file fs known names tl Hload Hne).
  rewrite (run_videos_finally fuel json_file known names fs _ _ _
             (Raise OSError) fs' [EvRmtree (mkdtemp E)]
             (run_videos_completed fuel json_file known names fs videos rs fs1
                tv Hjson Hrun)).
  - simpl. by rewrite <- app_assoc.
  - unfold rmtree. by rewrite Hrm.
Qed.

End Run.

Lemma demo_gallery_loaded (E : Env nat nat Z) fs :
  listdir E = listdir Demo.env → load_image_file E = load_image_file Demo.env →
  face_encodings_all E = face_encodings_all Demo.env →
  load_known_faces E "known_faces" fs
  = Some (Ok (Demo.gallery, Demo.names), fs,
          loads "known_faces" Demo.face_files).
Proof.
  intros Hdir Himg Hes.
  rewrite (load_known_faces_entries E "known_faces" Demo.face_files).
  - assert (gallery_entry E "known_faces" = gallery_entry Demo.env "known_faces")
      as -> by (unfold gallery_entry; by rewrite Himg, Hes).
    done.
  - by rewrite Hdir.
  - intros f Hf. destruct (demo_loadable f Hf) as (image & es & Hload & Hfaces).
    exists image, es. by rewrite Himg, Hes.
Qed.


Lemma incomplete_record_discards_results_witness :
  ∃ rs fs1 tv fs',
    process_videos Scenario5.incomplete 100 [Demo.v1] "/tmp/tmpface"
      Demo.gallery Demo.names [] {[ "all_videos.json" ]}
    = Some (Ok rs, fs1, tv) ∧
    main Scenario5.incomplete 100 "videos.json" {[ "all_videos.json" ]}
    = Some (Ok (), fs',
            loads "known_faces" Demo.face_files
              ++ EvJsonLoad "videos.json" :: tv ++ [EvRmtree "/tmp/tmpface"]) ∧
    cleared "/tmp/tmpface" {[ "all_videos.json" ]} fs'.
Proof.
  apply (incomplete_record_discards_results Scenario5.incomplete 100
           "videos.json" {[ "all_videos.json" ]} Demo.gallery Demo.names
           (loads "known_faces" Demo.face_files)
           [Demo.v1] {[ "video_id" := "v2" ]}
           [ {[ "video_id" := "v3"; "channel_id" := "c3" ]} ]).
  - by apply demo_gallery_loaded.
  - done.
  - reflexivity.
  - repeat constructor. exists "v1", "c1".
    repeat split; try reflexivity; by compute.
  - by right.
  - intros path _. reflexivity.
Defined.

Lemma unreadable_input_ends_quietly_witness :
  ∃ fs',
    main Scenario5.unreadable 100 "videos.json" {[ "all_videos.json" ]}
    = Some (Ok (), fs',
            loads "known_faces" Demo.face_files
              ++ [EvJsonLoad "videos.json"; EvRmtree "/tmp/tmpface"]) ∧
    cleared "/tmp/tmpface" {[ "all_videos.json" ]} fs'.
Proof.
  apply (unreadable_input_ends_quietly Scenario5.unreadable 100 "videos.json"
           {[ "all_videos.json" ]} Demo.gallery Demo.names
           (loads "known_faces" Demo.face_files) LibraryError).
  - by apply demo_gallery_loaded.
  - done.
  - reflexivity.
  - intros path _. reflexivity.
Defined.

Lemma held_file_fails_the_run_after_results_witness :
  ∃ fs',
    main Scenario5.held 100 "videos.json" ∅
    = Some (Raise OSError, fs',
            loads "known_faces" Demo.face_files
              ++ EvJsonLoad "videos.json"
              :: events (process_videos Scenario5.held 100 Demo.records
                           "/tmp/tmpface" Demo.gallery Demo.names [] ∅)
              ++ [EvDump [ no_match "v1"; no_match "gone";
                           {| video_id := "v2";
                              has_known_face_in_thumbnail := true;
                              has_known_face_in_avatar := false;
                              has_known_face_in_video := true |} ];
                  EvRmtree "/tmp/tmpface"]) ∧
    "/tmp/tmpface/v1.mp4" ∈ fs'.
Proof.
  apply (held_file_fails_the_run_after_results Scenario5.held 100 "videos.json"
           ∅ Demo.gallery Demo.names (loads "known_faces" Demo.face_files)
           Demo.records _ {[ "/tmp/tmpface/v1.mp4" ]}).
  - by apply demo_gallery_loaded.
  - done.
  - reflexivity.
  - by vm_compute.
  - by apply elem_of_singleton.
  - reflexivity.
  - reflexivity.
Defined.

(** * filter_videos *)

Section Durations.

Context (api : Filter.Services).

Lemma requested_batches_app t1 t2 :
  requested_batches (t1 ++ t2) = requested_batches t1 ++ requested_batches t2.
Proof. apply omap_app. Qed.

Lemma batch_at_nonempty ids k :
  (k * 50 < length ids)%nat →
  batch_at ids k ≠ [] ∧ (length (batch_at ids k) ≤ 50)%nat.
Proof.
  intros Hk. unfold batch_at. split.
  - intros Hnil. apply (f_equal length) in Hnil.
    rewrite length_take, length_drop in Hnil. cbn [length] in Hnil. lia.
  - rewrite length_take. lia.
Qed.

Lemma batch_at_drop ids k :
  batch_at ids k ++ drop (S k * 50) ids = drop (k * 50) ids.
Proof.
  unfold batch_at. replace (S k * 50)%nat with (k * 50 + 50)%nat by lia.
  by rewrite <- drop_drop, take_drop.
Qed.

Lemma py_range_step_batches n :
  Filter.py_range_step 0 n 50 = (λ k, k * 50)%nat <$> seq 0 ((n + 49) / 50)%nat.
Proof.
  unfold Filter.py_range_step.
  by replace (n - 0 + 50 - 1)%nat with (n + 49)%nat by lia.
Qed.

(** The batches requested are consecutive batches of fifty. *)
Lemma fetch_batches_requests ids m :
  ∀ a cache durations,
    (∀ k, (a ≤ k < a + m)%nat → (k * 50 < length ids)%nat) →
    ∃ n, (n ≤ m)%nat ∧
      requested_batches
        (Filter.fetch_batches api ((λ k, k * 50)%nat <$> seq a m) ids cache durations).2
      = batch_at ids <$> seq a n.
Proof.
  induction m as [|m IH]; intros a cache durations Hlt.
  { exists 0%nat. by split. }
  simpl. fold (batch_at ids a).
  destruct (Filter.videos_list api (a * 50) (batch_at ids a)) as [items|e].
  - destruct (Filter.store_items items cache durations) as [[[[]|e] cache1] durations1].
    + destruct (IH (S a) cache1 durations1) as (n & Hn & Hreq).
      { intros k Hk. apply Hlt. lia. }
      destruct (Filter.fetch_batches api _ ids cache1 durations1)
        as [[[r cache2] durations2] t].
      exists (S n). split; [lia|]. simpl in *. by rewrite Hreq.
    + exists 1%nat. split; [lia|done].
  - exists 1%nat. split; [lia|]. by destruct e.
Qed.

Lemma batches_prefix ids n :
  concat (batch_at ids <$> seq 0 n) `prefix_of` ids.
Proof.
  assert (∀ a, concat (batch_at ids <$> seq a n) `prefix_of` drop (a * 50) ids)
    as H; [|apply (H 0%nat)].
  induction n as [|n IH]; intros a; simpl; [apply prefix_nil|].
  rewrite <- (batch_at_drop ids a). apply prefix_app, IH.
Qed.

Lemma get_video_durations_requests video_ids cache :
  ∃ n, (n * 50 < length (Filter.uncached cache video_ids) + 50)%nat ∧
    requested_batches (Filter.get_video_durations api video_ids cache).2
    = batch_at (Filter.uncached cache video_ids) <$> seq 0 n.
Proof.
  unfold Filter.get_video_durations. cbv zeta.
  destruct (Filter.uncached cache video_ids) as [|u us] eqn:Hu.
  { exists 0%nat. split; [simpl; lia|done]. }
  rewrite py_range_step_batches.
  destruct (fetch_batches_requests (u :: us) ((length (u :: us) + 49) / 50) 0
              cache ∅) as (n & Hn & Hreq).
  { intros k Hk.
    pose proof (Nat.div_mod_eq (length (u :: us) + 49) 50).
    pose proof (Nat.mod_upper_bound (length (u :: us) + 49) 50). lia. }
  exists n. split.
  { pose proof (Nat.div_mod_eq (length (u :: us) + 49) 50).
    pose proof (Nat.mod_upper_bound (length (u :: us) + 49) 50). lia. }
  destruct (Filter.fetch_batches api _ (u :: us) cache ∅)
    as [[[r cache2] durations2] t].
  simpl in Hreq. by destruct r.
Qed.

(** X21: [get_video_durations] asks the API only about videos that have no
    duration in the cache: the batches it requests are, in order, the first
    batches of fifty of the uncached ids -- none is empty, none is longer
    than fifty, and put end to end they are a prefix of the uncached ids. *)
Theorem only_uncached_videos_are_requested video_ids cache :
  let batches :=
    requested_batches (Filter.get_video_durations api video_ids cache).2 in
  concat batches `prefix_of` Filter.uncached cache video_ids ∧
  Forall (λ batch, batch ≠ [] ∧ (length batch ≤ 50)%nat) batches ∧
  ∀ vid, vid ∈ concat batches →
         vid ∈ video_ids ∧ Filter.cached_duration cache vid = None.
Proof.
  cbv zeta.
  destruct (get_video_durations_requests video_ids cache) as (n & Hn & ->).
  assert (concat (batch_at (Filter.uncached cache video_ids) <$> seq 0 n)
            `prefix_of` Filter.uncached cache video_ids) as Hprefix
    by apply batches_prefix.
  split; [done|]. split.
  - apply Forall_fmap, Forall_forall. intros k [_ Hk]%elem_of_seq.
    apply batch_at_nonempty. nia.
  - intros vid Hvid. destruct Hprefix as [rest Hrest].
    assert (vid ∈ Filter.uncached cache video_ids) as Hin
      by (rewrite Hrest; apply elem_of_app; by left).
    apply list_elem_of_filter in Hin as [Hnone Hin]. by split.
Qed.

End Durations.

Section DurationCache.

Context (api : Filter.Services).

(** The dictionaries of the script are finite maps. *)
Ltac as_maps := unfold Filter.Cache, Filter.Entry, Filter.Video in *.

Lemma cached_duration_insert_eq (cache : Filter.Cache) vid (entry : Filter.Entry) d :
  Filter.cached_duration (<[vid := <["duration" := d]> entry]> cache) vid = Some d.
Proof.
  unfold Filter.cached_duration. as_maps. rewrite lookup_insert_eq. simpl.
  apply lookup_insert_eq.
Qed.

Lemma cached_duration_insert_ne (cache : Filter.Cache) vid v (entry : Filter.Entry) :
  vid ≠ v →
  Filter.cached_duration (<[vid := entry]> cache) v = Filter.cached_duration cache v.
Proof.
  intros Hne. unfold Filter.cached_duration. as_maps. by rewrite lookup_insert_ne.
Qed.

Lemma store_items_recorded items :
  ∀ cache durations,
    recorded cache durations →
    recorded (Filter.store_items items cache durations).1.2
             (Filter.store_items items cache durations).2.
Proof.
  induction items as [|item items IH]; intros cache durations Hrec; simpl; [done|].
  destruct (Filter.item_id item) as [vid|]; [|done].
  apply IH. intros v d0. destruct (decide (vid = v)) as [->|Hne].
  - rewrite lookup_insert_eq. intros [= <-]. apply cached_duration_insert_eq.
  - rewrite lookup_insert_ne by done. rewrite cached_duration_insert_ne by done.
    apply Hrec.
Qed.

Lemma fetch_batches_recorded starts ids :
  ∀ cache durations,
    recorded cache durations →
    recorded (Filter.fetch_batches api starts ids cache durations).1.1.2
             (Filter.fetch_batches api starts ids cache durations).1.2.
Proof.
  induction starts as [|i starts IH]; intros cache durations Hrec; simpl; [done|].
  destruct (Filter.videos_list api i _) as [items|e].
  - pose proof (store_items_recorded items cache durations Hrec) as H1.
    destruct (Filter.store_items items cache durations)
      as [[[[]|e] cache1] durations1]; simpl in H1; [|done].
    specialize (IH cache1 durations1 H1).
    by destruct (Filter.fetch_batches api starts ids cache1 durations1)
      as [[[r c2] d2] t].
  - by destruct e.
Qed.

Lemma grown_refl cache : grown cache cache.
Proof. intros vid entry Hentry. by exists entry. Qed.

Lemma grown_trans c1 c2 c3 : grown c1 c2 → grown c2 c3 → grown c1 c3.
Proof.
  intros H12 H23 vid e1 He1.
  destruct (H12 vid e1 He1) as (e2 & He2 & Hf12 & Hd12).
  destruct (H23 vid e2 He2) as (e3 & He3 & Hf23 & Hd23).
  exists e3. split; [done|]. split; [|auto].
  intros field Hfield. by rewrite Hf23, Hf12.
Qed.

Lemma grown_insert (cache : Filter.Cache) vid d :
  grown cache (<[vid := <["duration" := d]> (default ∅ (cache !! vid))]> cache).
Proof.
  intros v entry Hentry. as_maps. destruct (decide (vid = v)) as [->|Hne].
  - rewrite lookup_insert_eq, Hentry. simpl. eexists. split; [done|]. split.
    + intros field Hfield. by rewrite lookup_insert_ne.
    + intros _. rewrite lookup_insert_eq. by eexists.
  - rewrite lookup_insert_ne by done. by exists entry.
Qed.

Lemma store_items_grown items :
  ∀ cache durations,
    grown cache (Filter.store_items items cache durations).1.2.
Proof.
  induction items as [|item items IH]; intros cache durations; simpl;
    [apply grown_refl|].
  destruct (Filter.item_id item) as [vid|]; [|apply grown_refl].
  eapply grown_trans; [apply grown_insert|apply IH].
Qed.

Lemma fetch_batches_grown starts ids :
  ∀ cache durations,
    grown cache (Filter.fetch_batches api starts ids cache durations).1.1.2.
Proof.
  induction starts as [|i starts IH]; intros cache durations; simpl;
    [apply grown_refl|].
  destruct (Filter.videos_list api i _) as [items|e].
  - pose proof (store_items_grown items cache durations) as H1.
    destruct (Filter.store_items items cache durations)
      as [[[[]|e] cache1] durations1]; simpl in H1; [|done].
    specialize (IH cache1 durations1).
    destruct (Filter.fetch_batches api starts ids cache1 durations1)
      as [[[r c2] d2] t].
    by eapply grown_trans.
  - destruct e; apply grown_refl.
Qed.

(** Entries of videos that the answers do not mention are left as they are. *)
Lemma store_items_outside items (asked : list string) :
  ∀ cache durations,
    (∀ item vid, item ∈ items → Filter.item_id item = Some vid → vid ∈ asked) →
    ∀ v, v ∉ asked →
         (Filter.store_items items cache durations).1.2 !! v = cache !! v.
Proof.
  induction items as [|item items IH]; intros cache durations Hitems v Hv; simpl;
    [done|].
  destruct (Filter.item_id item) as [vid|] eqn:Hid; [|done].
  rewrite IH; [| |done].
  - as_maps. apply lookup_insert_ne. intros ->. apply Hv.
    apply (Hitems item); [by left|done].
  - intros item' vid' Hin. apply Hitems. by right.
Qed.

Lemma fetch_batches_outside starts ids :
  answers_what_is_asked api →
  ∀ cache durations v,
    v ∉ ids →
    (Filter.fetch_batches api starts ids cache durations).1.1.2 !! v = cache !! v.
Proof.
  intros Hapi.
  induction starts as [|i starts IH]; intros cache durations v Hv; simpl; [done|].
  destruct (Filter.videos_list api i _) as [items|e] eqn:Hlist.
  - pose proof (store_items_outside items ids cache durations) as H1.
    destruct (Filter.store_items items cache durations)
      as [[[[]|e] cache1] durations1]; simpl in H1.
    + specialize (IH cache1 durations1 v Hv).
      destruct (Filter.fetch_batches api starts ids cache1 durations1)
        as [[[r c2] d2] t].
      simpl in *. rewrite IH. apply H1; [|done].
      intros item vid Hitem Hid.
      pose proof (Hapi _ _ _ _ _ Hlist Hitem Hid) as Hin.
      by apply subseteq_take, subseteq_drop in Hin.
    + apply H1; [|done]. intros item vid Hitem Hid.
      pose proof (Hapi _ _ _ _ _ Hlist Hitem Hid) as Hin.
      by apply subseteq_take, subseteq_drop in Hin.
  - by destruct e.
Qed.

Lemma fill_durations_keeps video_ids cache :
  ∀ durations vid,
    is_Some (durations !! vid) →
    is_Some (Filter.fill_durations video_ids cache durations !! vid).
Proof.
  induction video_ids as [|v vs IH]; intros durations vid Hsome; simpl; [done|].
  destruct (Filter.cached_duration cache v) as [d|].
  - apply IH. rewrite lookup_insert_is_Some. destruct (decide (v = vid)); auto.
  - destruct (durations !! v) eqn:Hv; [by apply IH|].
    apply IH. rewrite lookup_insert_is_Some. destruct (decide (v = vid)); auto.
Qed.

Lemma fill_durations_covers video_ids cache :
  ∀ durations vid,
    vid ∈ video_ids →
    is_Some (Filter.fill_durations video_ids cache durations !! vid).
Proof.
  induction video_ids as [|v vs IH]; intros durations vid Hin;
    [by apply elem_of_nil in Hin|].
  apply elem_of_cons in Hin as [-> | Hin]; simpl.
  - destruct (Filter.cached_duration cache v) as [d|].
    + apply fill_durations_keeps. by rewrite lookup_insert_eq.
    + destruct (durations !! v) eqn:Hv.
      * apply fill_durations_keeps. by rewrite Hv.
      * apply fill_durations_keeps. by rewrite lookup_insert_eq.
  - destruct (Filter.cached_duration cache v) as [d|]; [by apply IH|].
    destruct (durations !! v); by apply IH.
Qed.

Lemma fill_durations_settled video_ids cache :
  ∀ durations,
    settled cache durations →
    settled cache (Filter.fill_durations video_ids cache durations).
Proof.
  induction video_ids as [|v vs IH]; intros durations Hs; simpl; [done|].
  destruct (Filter.cached_duration cache v) as [d|] eqn:Hc.
  - apply IH. intros vid d0. destruct (decide (v = vid)) as [->|].
    + rewrite lookup_insert_eq. intros [= <-]. by rewrite Hc.
    + rewrite lookup_insert_ne by done. apply Hs.
  - destruct (durations !! v) eqn:Hv; [by apply IH|].
    apply IH. intros vid d0. destruct (decide (v = vid)) as [->|].
    + rewrite lookup_insert_eq. intros [= <-]. by rewrite Hc.
    + rewrite lookup_insert_ne by done. apply Hs.
Qed.

Lemma fill_durations_spec video_ids cache durations vid :
  recorded cache durations → vid ∈ video_ids →
  Filter.fill_durations video_ids cache durations !! vid
  = Some (default "PT0S" (Filter.cached_duration cache vid)).
Proof.
  intros Hrec Hin.
  destruct (fill_durations_covers video_ids cache durations vid Hin) as [d Hd].
  rewrite Hd. f_equal.
  apply (fill_durations_settled video_ids cache durations); [|done].
  intros v d0 Hd0. by rewrite (Hrec v d0 Hd0).
Qed.

(** The shape of a run of [get_video_durations]. *)
Lemma get_video_durations_run video_ids cache :
  ∃ (r : Filter.res unit) cache1 durations t,
    Filter.get_video_durations api video_ids cache
    = (match r with
       | Filter.Done _ =>
           Filter.Done (Filter.fill_durations video_ids cache1 durations)
       | Filter.Fail e => Filter.Fail e
       end, cache1, t) ∧
    recorded cache1 durations ∧ grown cache cache1 ∧
    (answers_what_is_asked api →
     ∀ v, v ∉ Filter.uncached cache video_ids → cache1 !! v = cache !! v).
Proof.
  unfold Filter.get_video_durations. cbv zeta.
  destruct (Filter.uncached cache video_ids) as [|u us] eqn:Hu.
  { exists (Filter.Done ()), cache, ∅, []. split; [done|].
    split; [done|]. split; [apply grown_refl|done]. }
  pose proof (fetch_batches_recorded
                (Filter.py_range_step 0 (length (u :: us)) 50) (u :: us) cache ∅)
    as Hrec.
  pose proof (fetch_batches_grown
                (Filter.py_range_step 0 (length (u :: us)) 50) (u :: us) cache ∅)
    as Hgrown.
  pose proof (λ Hapi, fetch_batches_outside
                (Filter.py_range_step 0 (length (u :: us)) 50) (u :: us) Hapi
                cache ∅) as Hout.
  destruct (Filter.fetch_batches api _ (u :: us) cache ∅)
    as [[[r cache1] durations] t].
  exists r, cache1, durations, t. split; [by destruct r|].
  split; [by apply Hrec|]. split; [done|].
  intros Hapi v Hv. by apply (Hout Hapi).
Qed.

(** X22: when [get_video_durations] returns, every video it was asked about
    has a duration: the one the cache now holds for it, or ['PT0S'] if the
    cache holds none. *)
Theorem every_video_gets_a_duration video_ids cache durations cache' t :
  Filter.get_video_durations api video_ids cache
  = (Filter.Done durations, cache', t) →
  ∀ vid, vid ∈ video_ids →
         durations !! vid
         = Some (default "PT0S" (Filter.cached_duration cache' vid)).
Proof.
  destruct (get_video_durations_run video_ids cache)
    as (r & cache1 & durations1 & t1 & -> & Hrec & _).
  destruct r as [[]|e]; [|done]. intros [= <- <- <-] vid Hin.
  by apply fill_durations_spec.
Qed.

(** X23: [get_video_durations] never drops an entry of the cache, whatever
    the API answers and however the run ends: an entry keeps every field
    other than its duration, and an entry that had a duration still has
    one. *)
Theorem cache_entries_are_kept video_ids cache :
  grown cache (Filter.get_video_durations api video_ids cache).1.2.
Proof.
  destruct (get_video_durations_run video_ids cache)
    as (r & cache1 & durations1 & t1 & -> & _ & Hgrown & _).
  done.
Qed.

(** X24: when the API answers only about the videos it is asked about, the
    entries of all other videos -- those with a cached duration among them
    -- are left exactly as they were, and a video with a cached duration is
    given that duration. *)
Theorem cached_duration_is_the_answer video_ids cache r cache' t :
  answers_what_is_asked api →
  Filter.get_video_durations api video_ids cache = (r, cache', t) →
  (∀ vid, vid ∉ Filter.uncached cache video_ids → cache' !! vid = cache !! vid) ∧
  (∀ durations vid d,
     r = Filter.Done durations → vid ∈ video_ids →
     Filter.cached_duration cache vid = Some d →
     durations !! vid = Some d).
Proof.
  intros Hapi.
  destruct (get_video_durations_run video_ids cache)
    as (r1 & cache1 & durations1 & t1 & -> & Hrec & _ & Hout).
  intros [= <- <- <-]. split; [by apply Hout|].
  intros durations vid d Hr Hin Hd.
  destruct r1 as [[]|e]; [|done]. injection Hr as <-.
  rewrite fill_durations_spec by done.
  assert (vid ∉ Filter.uncached cache video_ids) as Hcached.
  { intros [Hnone _]%list_elem_of_filter. congruence. }
  unfold Filter.cached_duration in *. by rewrite (Hout Hapi vid Hcached), Hd.
Qed.

End DurationCache.

Section Requests.

Context (api : Filter.Services).

Lemma store_items_done items :
  Forall (λ item, is_Some (Filter.item_id item)) items →
  ∀ cache durations,
    ∃ cache' durations',
      Filter.store_items items cache durations = (Filter.Done (), cache', durations').
Proof.
  induction 1 as [|item items [vid Hid] _ IH]; intros cache durations; simpl.
  { by eexists _, _. }
  rewrite Hid. apply IH.
Qed.

Lemma batches_concat ids m :
  ∀ a, concat (batch_at ids <$> seq a m) = take (m * 50) (drop (a * 50) ids).
Proof.
  induction m as [|m IH]; intros a; simpl; [done|].
  rewrite IH. unfold batch_at.
  replace (S a * 50)%nat with (a * 50 + 50)%nat by lia.
  rewrite <- drop_drop. apply take_take_drop.
Qed.

(** Batches that are answered are requested one after the other, and the
    cache is saved after each. *)
Lemma fetch_batches_answered ids m :
  ∀ a cache durations,
    (∀ k, (a ≤ k < a + m)%nat → answered api ids k) →
    ∃ cache' durations' t,
      Filter.fetch_batches api ((λ k, k * 50)%nat <$> seq a m) ids cache durations
      = (Filter.Done (), cache', durations', t) ∧
      requested_batches t = batch_at ids <$> seq a m.
Proof.
  induction m as [|m IH]; intros a cache durations Hans.
  { by eexists _, _, _. }
  change (seq a (S m)) with (a :: seq (S a) m). rewrite fmap_cons.
  cbn [Filter.fetch_batches]. fold (batch_at ids a).
  destruct (Hans a ltac:(lia)) as (items & -> & Hids).
  destruct (store_items_done items Hids cache durations) as (cache1 & durations1 & ->).
  destruct (IH (S a) cache1 durations1) as (cache2 & durations2 & t & -> & Hreq).
  { intros k Hk. apply Hans. lia. }
  eexists _, _, _. split; [done|]. simpl. by rewrite Hreq.
Qed.

(** A request that fails is the last one. *)
Lemma fetch_batches_failed ids k m e :
  ∀ a cache durations,
    (∀ j, (a ≤ j < a + k)%nat → answered api ids j) →
    Filter.videos_list api ((a + k) * 50) (batch_at ids (a + k)) = Filter.Fail e →
    ∃ cache' durations' t,
      Filter.fetch_batches api ((λ k, k * 50)%nat <$> seq a (k + S m)) ids
        cache durations
      = (match e with
         | Filter.HttpFailure => Filter.Done ()
         | _ => Filter.Fail e
         end, cache', durations', t) ∧
      requested_batches t = batch_at ids <$> seq a (S k).
Proof.
  induction k as [|k IH]; intros a cache durations Hans Hfail.
  { change (seq a (0 + S m)) with (a :: seq (S a) m). rewrite fmap_cons.
    cbn [Filter.fetch_batches]. fold (batch_at ids a).
    rewrite Nat.add_0_r in Hfail. rewrite Hfail.
    destruct e; by eexists _, _, _. }
  change (seq a (S k + S m)) with (a :: seq (S a) (k + S m)). rewrite fmap_cons.
  cbn [Filter.fetch_batches]. fold (batch_at ids a).
  destruct (Hans a ltac:(lia)) as (items & -> & Hids).
  destruct (store_items_done items Hids cache durations) as (cache1 & durations1 & ->).
  destruct (IH (S a) cache1 durations1) as (cache2 & durations2 & t & -> & Hreq).
  { intros j Hj. apply Hans. lia. }
  { by replace (S a + k)%nat with (a + S k)%nat by lia. }
  eexists _, _, _. split; [done|]. simpl in *. by rewrite Hreq.
Qed.

(** X25: when every request is answered, with items that all carry an id,
    [get_video_durations] returns, and the batches it requested are, put end
    to end, exactly the videos without a cached duration: each is asked about
    once. *)
Theorem answered_requests_cover_the_uncached video_ids cache :
  (∀ k, (k * 50 < length (Filter.uncached cache video_ids))%nat →
        answered api (Filter.uncached cache video_ids) k) →
  ∃ durations cache' t,
    Filter.get_video_durations api video_ids cache
    = (Filter.Done durations, cache', t) ∧
    concat (requested_batches t) = Filter.uncached cache video_ids.
Proof.
  intros Hans. unfold Filter.get_video_durations. cbv zeta.
  destruct (Filter.uncached cache video_ids) as [|u us] eqn:Hu.
  { by eexists _, _, _. }
  rewrite py_range_step_batches.
  pose proof (Nat.div_mod_eq (length (u :: us) + 49) 50) as Hdiv.
  pose proof (Nat.mod_upper_bound (length (u :: us) + 49) 50 ltac:(lia)) as Hmod.
  destruct (fetch_batches_answered (u :: us) ((length (u :: us) + 49) / 50) 0
              cache ∅) as (cache' & durations' & t & -> & Hreq).
  { intros k Hk. apply Hans. lia. }
  eexists _, _, _. split; [done|].
  rewrite Hreq, batches_concat. rewrite drop_0. apply take_ge. lia.
Qed.

Lemma get_video_durations_failed video_ids cache k e :
  (k * 50 < length (Filter.uncached cache video_ids))%nat →
  (∀ j, (j < k)%nat → answered api (Filter.uncached cache video_ids) j) →
  Filter.videos_list api (k * 50) (batch_at (Filter.uncached cache video_ids) k)
  = Filter.Fail e →
  ∃ r cache' t,
    Filter.get_video_durations api video_ids cache = (r, cache', t) ∧
    requested_batches t
    = batch_at (Filter.uncached cache video_ids) <$> seq 0 (S k) ∧
    (e = Filter.HttpFailure → ∃ durations, r = Filter.Done durations) ∧
    (e ≠ Filter.HttpFailure → r = Filter.Fail e).
Proof.
  intros Hk Hans Hfail. unfold Filter.get_video_durations. cbv zeta.
  destruct (Filter.uncached cache video_ids) as [|u us] eqn:Hu.
  { simpl in Hk. lia. }
  rewrite py_range_step_batches.
  pose proof (Nat.div_mod_eq (length (u :: us) + 49) 50) as Hdiv.
  pose proof (Nat.mod_upper_bound (length (u :: us) + 49) 50 ltac:(lia)) as Hmod.
  assert (∃ m, ((length (u :: us) + 49) / 50 = k + S m)%nat) as [m ->].
  { exists ((length (u :: us) + 49) / 50 - S k)%nat. lia. }
  destruct (fetch_batches_failed (u :: us) k m e 0 cache ∅)
    as (cache' & durations' & t & -> & Hreq); [intros j Hj; apply Hans; lia|done|].
  destruct e; eexists _, _, _; (split; [done|]); (split; [done|]);
    split; try done; by eexists.
Qed.

(** X26: a request that fails is the last one, whatever is left to ask.  If
    it failed with an [HttpError] other than the quota error,
    [get_video_durations] still returns durations; any other exception --
    the quota error among them -- leaves the function. *)
Theorem failed_request_is_the_last video_ids cache k e :
  (k * 50 < length (Filter.uncached cache video_ids))%nat →
  (∀ j, (j < k)%nat → answered api (Filter.uncached cache video_ids) j) →
  Filter.videos_list api (k * 50) (batch_at (Filter.uncached cache video_ids) k)
  = Filter.Fail e →
  ∃ r cache' t,
    Filter.get_video_durations api video_ids cache = (r, cache', t) ∧
    requested_batches t
    = batch_at (Filter.uncached cache video_ids) <$> seq 0 (S k) ∧
    (e = Filter.HttpFailure → ∃ durations, r = Filter.Done durations) ∧
    (e ≠ Filter.HttpFailure → r = Filter.Fail e).
Proof. apply get_video_durations_failed. Qed.

End Requests.

Section FilterVideos.

Context (api : Filter.Services).

Lemma video_ids_of_complete videos :
  Forall complete videos →
  Filter.video_ids_of videos = Filter.Done (omap (.!! "video_id") videos).
Proof.
  induction 1 as [|video videos ([vid Hvid] & _) _ IH]; simpl; [done|].
  by rewrite Hvid, IH.
Qed.

(** One round of the loop of [filter_videos] on a complete record. *)
Lemma filter_loop_cons video videos durations min target acc :
  complete video →
  Filter.filter_loop api (video :: videos) durations min target acc
  = match language_verdict api target video with
    | Filter.Done passed =>
        let '(r, t) :=
          Filter.filter_loop api videos durations min target
            (if passed && negb (seconds_of api durations video <? min)
             then acc ++ [video] else acc) in
        (r, (if Filter.language_set target
             then (Filter.is_language_content api
                     (default "" (video !! "title"))
                     (default "" (video !! "description")) target).2
             else []) ++ t)
    | Filter.Fail e =>
        (Filter.Fail e,
         (Filter.is_language_content api (default "" (video !! "title"))
            (default "" (video !! "description")) target).2)
    end.
Proof.
  intros ([vid Hvid] & [title Htitle] & [description Hdesc]).
  unfold language_verdict, seconds_of. simpl.
  rewrite Hvid, Htitle, Hdesc. simpl.
  destruct (Filter.language_set target).
  - destruct (Filter.is_language_content api title description target)
      as [[[|]|e] t1]; simpl; [|done..].
    by destruct (Filter.duration_to_seconds api _ <? min).
  - simpl. by destruct (Filter.duration_to_seconds api _ <? min).
Qed.

Lemma filter_loop_incomplete video videos durations min target acc :
  ¬ complete video →
  ∃ key, Filter.filter_loop api (video :: videos) durations min target acc
         = (Filter.Fail (Filter.MissingKey key), []).
Proof.
  intros Hno. simpl.
  destruct (video !! "video_id") as [vid|] eqn:Hvid; [|by eexists].
  destruct (video !! "title") as [title|] eqn:Htitle; [|by eexists].
  destruct (video !! "description") as [description|] eqn:Hdesc; [|by eexists].
  destruct Hno. by repeat split.
Qed.

Lemma kept_unfold durations min target video :
  kept api durations min target video
  = match language_verdict api target video with
    | Filter.Done passed => passed && negb (seconds_of api durations video <? min)
    | Filter.Fail _ => false
    end.
Proof. unfold kept. by destruct (language_verdict api target video) as [[|]|]. Qed.

(** When the loop ends normally, what it kept is the input filtered by the
    two tests, and every record was complete. *)
Lemma filter_loop_done durations min target videos :
  ∀ acc filtered t2,
    Filter.filter_loop api videos durations min target acc
    = (Filter.Done filtered, t2) →
    filtered
    = acc ++ filter (λ video, kept api durations min target video = true) videos.
Proof.
  induction videos as [|video videos IH]; intros acc filtered t2.
  { simpl. intros [= <- <-]. by rewrite app_nil_r. }
  destruct (decide (complete video)) as [Hc|Hno].
  2: { destruct (filter_loop_incomplete video videos durations min target acc Hno)
         as [key ->]. done. }
  rewrite filter_loop_cons by done. rewrite filter_cons, kept_unfold.
  destruct (language_verdict api target video) as [passed|e]; [|done].
  destruct (Filter.filter_loop api videos durations min target _)
    as [r t] eqn:Hrest.
  intros [= -> <-]. apply IH in Hrest as ->.
  destruct (passed && negb (seconds_of api durations video <? min)).
  - rewrite decide_True by done. by rewrite <- app_assoc.
  - by rewrite decide_False by done.
Qed.

Lemma filter_loop_completes durations min target videos :
  Forall complete videos →
  Forall (λ video, ∃ passed, language_verdict api target video = Filter.Done passed)
    videos →
  ∀ acc, ∃ filtered t2,
    Filter.filter_loop api videos durations min target acc
    = (Filter.Done filtered, t2).
Proof.
  induction 1 as [|video videos Hc _ IH]; intros Hlang acc.
  { by eexists _, _. }
  apply Forall_cons in Hlang as [[passed Hpassed] Hlang].
  rewrite filter_loop_cons by done. rewrite Hpassed.
  destruct (IH Hlang (if passed && negb (seconds_of api durations video <? min)
                      then acc ++ [video] else acc)) as (filtered & t2 & ->).
  by eexists _, _.
Qed.

Lemma detected_as_no_dump text language :
  Forall (λ ev, is_dump ev = false) (Filter.detected_as api text language).2.
Proof.
  unfold Filter.detected_as. destruct (nonempty text); [|by constructor].
  destruct (Filter.detect api text); by repeat constructor.
Qed.

Lemma is_language_content_no_dump title description target :
  Forall (λ ev, is_dump ev = false)
    (Filter.is_language_content api title description target).2.
Proof.
  unfold Filter.is_language_content.
  destruct target as [language|]; [|by constructor].
  destruct (nonempty language); [|by constructor].
  pose proof (detected_as_no_dump title language) as H1.
  pose proof (detected_as_no_dump description language) as H2.
  destruct (Filter.detected_as api title language) as [[[|]|e1] t1];
    simpl in H1; [done| |by destruct e1].
  destruct (Filter.detected_as api description language) as [[found|e2] t2];
    simpl in H2; [by apply Forall_app|].
  destruct e2; by apply Forall_app.
Qed.

Lemma filter_loop_no_dump durations min target videos :
  ∀ acc,
    Forall (λ ev, is_dump ev = false)
      (Filter.filter_loop api videos durations min target acc).2.
Proof.
  induction videos as [|video videos IH]; intros acc; [by constructor|].
  destruct (decide (complete video)) as [Hc|Hno].
  2: { destruct (filter_loop_incomplete video videos durations min target acc Hno)
         as [key ->]. by constructor. }
  rewrite filter_loop_cons by done.
  destruct (language_verdict api target video) as [passed|e].
  - specialize (IH (if passed && negb (seconds_of api durations video <? min)
                    then acc ++ [video] else acc)).
    destruct (Filter.filter_loop api videos durations min target _) as [r t].
    simpl in *. apply Forall_app. split; [|done].
    destruct (Filter.language_set target); [|by constructor].
    apply is_language_content_no_dump.
  - apply is_language_content_no_dump.
Qed.

Lemma fetch_batches_no_dump starts ids :
  ∀ cache durations,
    Forall (λ ev, is_dump ev = false)
      (Filter.fetch_batches api starts ids cache durations).2.
Proof.
  induction starts as [|i starts IH]; intros cache durations; simpl;
    [by constructor|].
  destruct (Filter.videos_list api i _) as [items|e].
  - destruct (Filter.store_items items cache durations)
      as [[[[]|e] cache1] durations1]; [|by repeat constructor].
    specialize (IH cache1 durations1).
    destruct (Filter.fetch_batches api starts ids cache1 durations1)
      as [[[r c2] d2] t].
    simpl in *. by repeat constructor.
  - destruct e; by repeat constructor.
Qed.

Lemma get_video_durations_no_dump video_ids cache :
  Forall (λ ev, is_dump ev = false)
    (Filter.get_video_durations api video_ids cache).2.
Proof.
  unfold Filter.get_video_durations. cbv zeta.
  destruct (Filter.uncached cache video_ids) as [|u us]; [by constructor|].
  pose proof (fetch_batches_no_dump
                (Filter.py_range_step 0 (length (u :: us)) 50) (u :: us) cache ∅)
    as H.
  destruct (Filter.fetch_batches api _ (u :: us) cache ∅)
    as [[[r cache1] durations] t].
  by destruct r.
Qed.

Lemma no_dump_inside t t1 videos t2 :
  Forall (λ ev, is_dump ev = false) t → t ≠ t1 ++ Filter.Dumped videos :: t2.
Proof.
  intros Hno ->. apply Forall_app in Hno as [_ Hno].
  by apply Forall_cons in Hno as [? _].
Qed.

Lemma dump_is_last pre written t1 videos t2 :
  Forall (λ ev, is_dump ev = false) pre →
  pre ++ [Filter.Dumped written] = t1 ++ Filter.Dumped videos :: t2 →
  t1 = pre ∧ videos = written ∧ t2 = [].
Proof.
  intros Hno Heq. destruct t2 as [|ev t2 _] using rev_ind.
  - apply app_inj_tail in Heq as [-> [= ->]]. done.
  - rewrite app_comm_cons, app_assoc in Heq.
    apply app_inj_tail in Heq as [-> _].
    by destruct (no_dump_inside _ t1 videos t2 Hno).
Qed.

Lemma video_ids_of_elem videos :
  ∀ video_ids video vid,
    Filter.video_ids_of videos = Filter.Done video_ids →
    video ∈ videos → video !! "video_id" = Some vid → vid ∈ video_ids.
Proof.
  induction videos as [|v videos IH]; intros video_ids video vid Hids Hin Hvid;
    [by apply elem_of_nil in Hin|].
  simpl in Hids. destruct (v !! "video_id") as [vid0|] eqn:Hv; [|done].
  destruct (Filter.video_ids_of videos) as [vids|]; [|done].
  injection Hids as <-. apply elem_of_cons in Hin as [-> | Hin].
  - assert (vid = vid0) as -> by congruence. by left.
  - right. by eapply IH.
Qed.

(** The runs of [filter_videos] that write the output file. *)
Lemma filter_videos_dumped input_file min target t1 written t2 :
  (Filter.filter_videos api input_file min target).2
  = t1 ++ Filter.Dumped written :: t2 →
  ∃ videos video_ids durations cache' t t',
    Filter.input_json api input_file = Some videos ∧
    Filter.video_ids_of videos = Filter.Done video_ids ∧
    Filter.get_video_durations api video_ids (Filter.load_video_cache api)
    = (Filter.Done durations, cache', t) ∧
    Filter.filter_loop api videos durations min target [] = (Filter.Done written, t') ∧
    Filter.filter_videos api input_file min target
    = (Filter.Done (), cache', t1 ++ [Filter.Dumped written]) ∧
    t1 = [Filter.CacheRead; Filter.InputRead input_file] ++ t ++ t' ∧
    Forall (λ ev, is_dump ev = false) t1 ∧ t2 = [].
Proof.
  unfold Filter.filter_videos. cbv zeta.
  destruct (Filter.input_json api input_file) as [videos|]; [|by destruct t1 as [|? [|? []]]].
  destruct (Filter.video_ids_of videos) as [video_ids|e] eqn:Hids;
    [|by destruct t1 as [|? [|? []]]].
  pose proof (get_video_durations_no_dump video_ids (Filter.load_video_cache api))
    as Hquiet.
  destruct (Filter.get_video_durations api video_ids (Filter.load_video_cache api))
    as [[[durations|e] cache'] t] eqn:Hdur; simpl in Hquiet.
  2: { intros Heq. exfalso.
       eapply (no_dump_inside
                 ([Filter.CacheRead; Filter.InputRead input_file] ++ t));
         [by repeat constructor|].
       destruct (Filter.is_HttpError e); exact Heq. }
  pose proof (filter_loop_no_dump durations min target videos []) as Hquiet'.
  destruct (Filter.filter_loop api videos durations min target [])
    as [[filtered|e] t'] eqn:Hloop; simpl in Hquiet'.
  2: { intros Heq. exfalso.
       eapply (no_dump_inside
                 ([Filter.CacheRead; Filter.InputRead input_file] ++ t ++ t'));
         [|exact Heq].
       repeat constructor. by apply Forall_app. }
  intros Heq.
  assert (Forall (λ ev, is_dump ev = false)
            (Filter.CacheRead :: Filter.InputRead input_file :: t ++ t')) as Hpre.
  { repeat constructor. by apply Forall_app. }
  assert ((Filter.CacheRead :: Filter.InputRead input_file :: t ++ t')
            ++ [Filter.Dumped filtered] = t1 ++ Filter.Dumped written :: t2)
    as Hlast.
  { rewrite <- Heq. simpl. by rewrite <- app_assoc. }
  apply dump_is_last in Hlast as (-> & -> & ->); [|exact Hpre].
  exists videos, video_ids, durations, cache', t, t'.
  repeat split; try done. simpl. by rewrite <- app_assoc.
Qed.

(** X27: on an input whose records all have their three fields, with a
    language test that raises on none of them, [filter_videos] writes, once
    the durations are known, exactly the records that pass the language test
    and are not shorter than the minimum -- in the order of the input. *)
Theorem filter_videos_writes_the_kept_videos
    input_file min target videos durations cache' t :
  Filter.input_json api input_file = Some videos →
  Forall complete videos →
  Forall (λ video, ∃ passed, language_verdict api target video = Filter.Done passed)
    videos →
  Filter.get_video_durations api (omap (.!! "video_id") videos)
    (Filter.load_video_cache api)
  = (Filter.Done durations, cache', t) →
  ∃ t2,
    Filter.filter_videos api input_file min target
    = (Filter.Done (), cache',
       [Filter.CacheRead; Filter.InputRead input_file] ++ t ++ t2
         ++ [Filter.Dumped
               (filter (λ video, kept api durations min target video = true)
                  videos)]).
Proof.
  intros Hinput Hc Hlang Hdur. unfold Filter.filter_videos. cbv zeta.
  rewrite Hinput, (video_ids_of_complete videos Hc), Hdur.
  destruct (filter_loop_completes durations min target videos Hc Hlang [])
    as (filtered & t2 & Hloop).
  rewrite Hloop. apply filter_loop_done in Hloop as ->. by exists t2.
Qed.

(** X28: [filter_videos] writes its output at most once, as the last thing
    it does, and only in a run that ends normally; what it writes is a
    sub-list of the records it read: nothing is added, repeated or
    reordered. *)
Theorem output_is_written_last_and_from_the_input
    input_file min target t1 written t2 :
  (Filter.filter_videos api input_file min target).2
  = t1 ++ Filter.Dumped written :: t2 →
  t2 = [] ∧ Forall (λ ev, is_dump ev = false) t1 ∧
  (Filter.filter_videos api input_file min target).1.1 = Filter.Done () ∧
  ∃ videos, Filter.input_json api input_file = Some videos ∧
            written `sublist_of` videos.
Proof.
  intros Heq.
  destruct (filter_videos_dumped input_file min target t1 written t2 Heq)
    as (videos & video_ids & durations & cache' & t & t' & Hinput & _ & _
        & Hloop & -> & _ & Hquiet & ->).
  split; [done|]. split; [done|]. split; [done|].
  exists videos. split; [done|].
  apply filter_loop_done in Hloop as ->. apply sublist_filter.
Qed.

(** X29: a quota error at any request ends the script there: no further
    batch is requested, nothing is written, and [filter_videos] returns
    without raising. *)
Theorem quota_error_ends_the_script_without_output
    input_file min target videos k :
  let missing :=
    Filter.uncached (Filter.load_video_cache api) (omap (.!! "video_id") videos) in
  Filter.input_json api input_file = Some videos →
  Forall complete videos →
  (k * 50 < length missing)%nat →
  (∀ j, (j < k)%nat → answered api missing j) →
  Filter.videos_list api (k * 50) (batch_at missing k)
  = Filter.Fail Filter.QuotaExceeded →
  ∃ cache' t,
    Filter.filter_videos api input_file min target = (Filter.Done (), cache', t) ∧
    Forall (λ ev, is_dump ev = false) t ∧
    requested_batches t = batch_at missing <$> seq 0 (S k).
Proof.
  intros missing Hinput Hc Hk Hans Hquota.
  destruct (get_video_durations_failed api (omap (.!! "video_id") videos)
              (Filter.load_video_cache api) k Filter.QuotaExceeded Hk Hans Hquota)
    as (r & cache' & t & Hrun & Hreq & _ & Hfail).
  rewrite (Hfail ltac:(done)) in Hrun.
  pose proof (get_video_durations_no_dump (omap (.!! "video_id") videos)
                (Filter.load_video_cache api)) as Hquiet.
  rewrite Hrun in Hquiet.
  unfold Filter.filter_videos. cbv zeta.
  rewrite Hinput, (video_ids_of_complete videos Hc), Hrun. simpl.
  eexists _, _. split; [done|]. split; [by repeat constructor|done].
Qed.

(** X30: when the default ['PT0S'] is shorter than the minimum, every video
    that [filter_videos] writes has a duration in the cache the run ends
    with, and that duration is not below the minimum: a video whose duration
    could not be fetched is never written. *)
Theorem written_videos_have_a_cached_duration
    input_file min target t1 written t2 :
  (Filter.filter_videos api input_file min target).2
  = t1 ++ Filter.Dumped written :: t2 →
  Filter.duration_to_seconds api "PT0S" < min →
  ∀ video, video ∈ written →
    ∃ vid d,
      video !! "video_id" = Some vid ∧
      Filter.cached_duration (Filter.filter_videos api input_file min target).1.2 vid
      = Some d ∧
      min ≤ Filter.duration_to_seconds api d.
Proof.
  intros Heq Hshort video Hin.
  destruct (filter_videos_dumped input_file min target t1 written t2 Heq)
    as (videos & video_ids & durations & cache' & t & t' & Hinput & Hids & Hdur
        & Hloop & -> & _ & _ & _).
  apply filter_loop_done in Hloop as ->. simpl in Hin.
  apply list_elem_of_filter in Hin as [Hkept Hin].
  rewrite kept_unfold in Hkept.
  destruct (language_verdict api target video) as [passed|]; [|done].
  apply andb_true_iff in Hkept as [_ Hlong].
  apply negb_true_iff, Z.ltb_ge in Hlong. unfold seconds_of in Hlong.
  destruct (video !! "video_id") as [vid|] eqn:Hvid; simpl in Hlong; [|lia].
  pose proof (video_ids_of_elem videos video_ids video vid Hids Hin Hvid) as Hvid_in.
  destruct (get_video_durations_run api video_ids (Filter.load_video_cache api))
    as (r & cache1 & durations1 & t0 & Hrun & Hrec & _).
  rewrite Hdur in Hrun. destruct r as [[]|e]; [|done].
  injection Hrun as -> -> ->.
  rewrite (fill_durations_spec video_ids cache1 durations1 vid Hrec Hvid_in)
    in Hlong.
  simpl in Hlong. simpl.
  destruct (Filter.cached_duration cache1 vid) as [d|] eqn:Hcached;
    simpl in Hlong; [|lia].
  by exists vid, d.
Qed.

End FilterVideos.

(** ** The runs of the demonstration services *)

Example demo_durations :
  Filter.get_video_durations FilterDemo.services ["a"; "b"; "c"] FilterDemo.cache
  = (Filter.Done {[ "a" := "PT1H"; "b" := "PT10S"; "c" := "PT0S" ]},
     FilterDemo.cache_after,
     [Filter.Requested ["b"; "c"]; Filter.Slept;
      Filter.Saved FilterDemo.cache_after]).
Proof. by vm_compute. Qed.

Lemma demo_answers_what_is_asked : answers_what_is_asked FilterDemo.services.
Proof.
  intros i batch items item vid [= <-] Hitem Hid.
  apply list_elem_of_omap in Hitem as (asked & Hasked & Hitem).
  destruct (String.eqb asked "b") eqn:Hb; [|done].
  injection Hitem as <-. injection Hid as <-.
  by apply String.eqb_eq in Hb as ->.
Qed.

Lemma demo_complete : Forall complete FilterDemo.input.
Proof. repeat constructor; by eexists. Qed.

Lemma demo_many_uncached :
  Filter.uncached FilterDemo.cache FilterDemo.many = FilterDemo.many.
Proof. by vm_compute. Qed.

Lemma every_video_gets_a_duration_witness :
  Forall (λ vid,
            ({[ "a" := "PT1H"; "b" := "PT10S"; "c" := "PT0S" ]}
               : gmap string string) !! vid
            = Some (default "PT0S"
                      (Filter.cached_duration FilterDemo.cache_after vid)))
    ["a"; "b"; "c"].
Proof.
  apply Forall_forall.
  apply (every_video_gets_a_duration FilterDemo.services ["a"; "b"; "c"]
           FilterDemo.cache _ _
           [Filter.Requested ["b"; "c"]; Filter.Slept;
            Filter.Saved FilterDemo.cache_after]).
  by vm_compute.
Defined.

Lemma cached_duration_is_the_answer_witness :
  (∀ vid, vid ∉ Filter.uncached FilterDemo.cache ["a"; "b"; "c"] →
          FilterDemo.cache_after !! vid = FilterDemo.cache !! vid) ∧
  (∀ durations vid d,
     Filter.Done ({[ "a" := "PT1H"; "b" := "PT10S"; "c" := "PT0S" ]}
                    : gmap string string) = Filter.Done durations →
     vid ∈ ["a"; "b"; "c"] →
     Filter.cached_duration FilterDemo.cache vid = Some d →
     durations !! vid = Some d).
Proof.
  apply (cached_duration_is_the_answer FilterDemo.services ["a"; "b"; "c"]
           FilterDemo.cache _ FilterDemo.cache_after
           [Filter.Requested ["b"; "c"]; Filter.Slept;
            Filter.Saved FilterDemo.cache_after]).
  - exact demo_answers_what_is_asked.
  - by vm_compute.
Defined.

Lemma answered_requests_cover_the_uncached_witness :
  ∃ durations cache' t,
    Filter.get_video_durations FilterDemo.services ["a"; "b"; "c"] FilterDemo.cache
    = (Filter.Done durations, cache', t) ∧
    concat (requested_batches t)
    = Filter.uncached FilterDemo.cache ["a"; "b"; "c"].
Proof.
  apply (answered_requests_cover_the_uncached FilterDemo.services).
  change (Filter.uncached FilterDemo.cache ["a"; "b"; "c"]) with ["b"; "c"].
  intros k Hk. assert (k = 0%nat) as -> by (simpl in Hk; lia).
  exists [FilterDemo.item "b" "PT10S"]. split; [reflexivity|].
  repeat constructor. by eexists.
Defined.

Lemma failed_request_is_the_last_witness :
  ∃ r cache' t,
    Filter.get_video_durations (FilterDemo.second_batch_fails Filter.HttpFailure)
      FilterDemo.many FilterDemo.cache = (r, cache', t) ∧
    requested_batches t
    = batch_at (Filter.uncached FilterDemo.cache FilterDemo.many) <$> seq 0 2 ∧
    (Filter.HttpFailure = Filter.HttpFailure →
     ∃ durations, r = Filter.Done durations) ∧
    (Filter.HttpFailure ≠ Filter.HttpFailure → r = Filter.Fail Filter.HttpFailure).
Proof.
  apply (failed_request_is_the_last
           (FilterDemo.second_batch_fails Filter.HttpFailure)
           FilterDemo.many FilterDemo.cache 1 Filter.HttpFailure).
  - rewrite demo_many_uncached. apply Nat.ltb_lt. by vm_compute.
  - intros j Hj. assert (j = 0%nat) as -> by lia.
    eexists. split; [reflexivity|].
    apply Forall_fmap, Forall_forall. intros vid _. by eexists.
  - reflexivity.
Defined.

Lemma filter_videos_writes_the_kept_videos_witness :
  ∃ t2,
    Filter.filter_videos FilterDemo.services "all_videos.json" 0 (Some "ru")
    = (Filter.Done (), FilterDemo.cache_after,
       [Filter.CacheRead; Filter.InputRead "all_videos.json"]
         ++ [Filter.Requested ["b"; "c"]; Filter.Slept;
             Filter.Saved FilterDemo.cache_after]
         ++ t2
         ++ [Filter.Dumped
               (filter
                  (λ video,
                     kept FilterDemo.services
                       {[ "a" := "PT1H"; "b" := "PT10S"; "c" := "PT0S" ]}
                       0 (Some "ru") video = true)
                  FilterDemo.input)]).
Proof.
  apply (filter_videos_writes_the_kept_videos FilterDemo.services
           "all_videos.json" 0 (Some "ru") FilterDemo.input).
  - reflexivity.
  - exact demo_complete.
  - repeat constructor; by eexists.
  - exact demo_durations.
Defined.

(** Of the three records only the lecture is in Russian; the teaser, whose
    title has no detectable language, is rejected without a look at its
    description. *)
Example demo_kept :
  filter (λ video,
            kept FilterDemo.services
              {[ "a" := "PT1H"; "b" := "PT10S"; "c" := "PT0S" ]}
              0 (Some "ru") video = true) FilterDemo.input
  = [FilterDemo.lecture] ∧
  (Filter.is_language_content FilterDemo.services "Teaser" "Ten seconds"
     (Some "en")).1 = Filter.Done false.
Proof. split; by vm_compute. Qed.

Lemma output_is_written_last_and_from_the_input_witness :
  @nil Filter.Event = [] ∧
  Forall (λ ev, is_dump ev = false)
    [Filter.CacheRead; Filter.InputRead "all_videos.json";
     Filter.Requested ["b"; "c"]; Filter.Slept;
     Filter.Saved FilterDemo.cache_after] ∧
  (Filter.filter_videos FilterDemo.services "all_videos.json" 60 None).1.1
  = Filter.Done () ∧
  ∃ videos, Filter.input_json FilterDemo.services "all_videos.json" = Some videos ∧
            [FilterDemo.talk] `sublist_of` videos.
Proof.
  apply (output_is_written_last_and_from_the_input FilterDemo.services
           "all_videos.json" 60 None).
  by vm_compute.
Defined.

Lemma quota_error_ends_the_script_without_output_witness :
  ∃ cache' t,
    Filter.filter_videos FilterDemo.no_quota "all_videos.json" 60 None
    = (Filter.Done (), cache', t) ∧
    Forall (λ ev, is_dump ev = false) t ∧
    requested_batches t
    = batch_at (Filter.uncached (Filter.load_video_cache FilterDemo.no_quota)
                  (omap (.!! "video_id") FilterDemo.input)) <$> seq 0 1.
Proof.
  apply (quota_error_ends_the_script_without_output FilterDemo.no_quota
           "all_videos.json" 60 None FilterDemo.input 0).
  - reflexivity.
  - exact demo_complete.
  - apply Nat.ltb_lt. by vm_compute.
  - intros j Hj. lia.
  - reflexivity.
Defined.

Lemma written_videos_have_a_cached_duration_witness :
  Forall (λ video,
            ∃ vid d,
              video !! "video_id" = Some vid ∧
              Filter.cached_duration
                (Filter.filter_videos FilterDemo.down "all_videos.json" 60
                   None).1.2 vid
              = Some d ∧
              60 ≤ Filter.duration_to_seconds FilterDemo.down d)
    [FilterDemo.talk].
Proof.
  apply Forall_forall.
  apply (written_videos_have_a_cached_duration FilterDemo.down "all_videos.json"
           60 None
           [Filter.CacheRead; Filter.InputRead "all_videos.json";
            Filter.Requested ["b"; "c"]] [FilterDemo.talk] []).
  - by vm_compute.
  - by vm_compute.
Defined.
